(** * pycontrails.models.cocip.wind_shear

    A shallow embedding of [src/pycontrails/models/cocip/wind_shear.py] and
    the properties of its three functions.

    Doubles are Rocq's primitive binary64 floats, so every definition below
    runs on concrete inputs once C's [pow] is given: the power of a plain
    float and of a NumPy scalar ends in that function, which is a parameter
    of the embedding.  NumPy arrays are a shape and a row-major list of
    elements; a Python function is a computation that may raise and that may
    write lines to the standard output. *)

From Stdlib Require Import List Bool Arith ZArith PArith Lia Floats.
From Stdlib Require QArith Qabs.
Import ListNotations.

Set Warnings "-inexact-float".

(* ================================================================== *)
(** * Python values, exceptions and the standard output                *)
(* ================================================================== *)

(** The exceptions the module can run into. *)
Inductive exn : Set :=
| AttributeError
| IndexError
| OverflowError
| ValueError
| ZeroDivisionError.

(** The three diagnostic lines the module prints.  [str(min_shear)] is kept
    as the number it formats. *)
Inductive line : Set :=
| Removed_NaN
| NORMAL_shear (min_shear : float)
| Shear (min_shear : float).

Definition stdout := list line.

(** A Python computation: it receives what was printed so far and gives an
    exception or a value, together with what has been printed by then. *)
Definition Py (A : Type) : Type := stdout -> (exn + A) * stdout.

Definition ret {A : Type} (a : A) : Py A := fun out => (inr a, out).

Definition raise {A : Type} (e : exn) : Py A := fun out => (inl e, out).

Definition bind {A B : Type} (m : Py A) (k : A -> Py B) : Py B :=
  fun out =>
    match m out with
    | (inl e, out') => (inl e, out')
    | (inr a, out') => k a out'
    end.

Definition print (l : line) : Py unit := fun out => (inr tt, out ++ [l]).

(** A call from a fresh interpreter, and its two observable parts. *)
Definition run {A : Type} (m : Py A) : (exn + A) * stdout := m [].
Definition result {A : Type} (m : Py A) : exn + A := fst (run m).
Definition printed {A : Type} (m : Py A) : stdout := snd (run m).

Declare Scope py_scope.
Delimit Scope py_scope with py.
Notation "x <- m ;; k" := (bind m (fun x => k))
  (at level 61, m at next level, right associativity) : py_scope.
Notation "m ;;; k" := (bind m (fun _ => k))
  (at level 61, right associativity) : py_scope.
Local Open Scope py_scope.

(** An n-dimensional array: its shape and its elements in row-major order. *)
Record ndarray (A : Type) : Type := mk_nd { shape : list nat; data : list A }.
Arguments mk_nd {A} shape data.
Arguments shape {A} _.
Arguments data {A} _.

(** [ArrayScalarLike]: a plain Python [float] or a NumPy value.  A
    [np.float64] scalar is the array of shape [()]. *)
Inductive value : Type :=
| PyFloat (x : float)
| Nd (a : ndarray float).

Definition as_array (v : value) : ndarray float :=
  match v with
  | PyFloat x => mk_nd [] [x]
  | Nd a => a
  end.

(* ================================================================== *)
(** * Shapes and broadcasting                                          *)
(* ================================================================== *)

Definition size (sh : list nat) : nat := fold_right Nat.mul 1 sh.

Definition broadcast_dim (a b : nat) : option nat :=
  if a =? b then Some a
  else if a =? 1 then Some b
  else if b =? 1 then Some a
  else None.

(** Broadcasting aligns shapes on their last axis: the recursion runs on the
    reversed shapes. *)
Fixpoint broadcast_rev (s1 s2 : list nat) : option (list nat) :=
  match s1, s2 with
  | [], s => Some s
  | s, [] => Some s
  | d1 :: r1, d2 :: r2 =>
      match broadcast_dim d1 d2, broadcast_rev r1 r2 with
      | Some d, Some r => Some (d :: r)
      | _, _ => None
      end
  end.

Definition broadcast_shapes (s1 s2 : list nat) : option (list nat) :=
  option_map (@rev nat) (broadcast_rev (rev s1) (rev s2)).

(** Broadcasting once one side may already have failed. *)
Definition broadcast_opt (x y : option (list nat)) : option (list nat) :=
  match x, y with
  | Some a, Some b => broadcast_shapes a b
  | _, _ => None
  end.

(** [np.broadcast_shapes] of several shapes. *)
Definition broadcast_all (shapes : list (list nat)) : option (list nat) :=
  fold_left (fun acc s => broadcast_opt acc (Some s)) shapes (Some []).

(** The index of flat position [k] along each axis of [sh]. *)
Fixpoint unravel (sh : list nat) (k : nat) : list nat :=
  match sh with
  | [] => []
  | d :: r => (k / size r) mod d :: unravel r k
  end.

(** Element strides; an axis of length one is never advanced, which is how
    NumPy repeats it when broadcasting. *)
Fixpoint strides (sh : list nat) : list nat :=
  match sh with
  | [] => []
  | d :: r => (if d =? 1 then 0 else size r) :: strides r
  end.

Definition pad (rank : nat) (sh : list nat) : list nat :=
  repeat 1 (rank - length sh) ++ sh.

Definition dot (idx str : list nat) : nat :=
  fold_right Nat.add 0 (map (fun p => fst p * snd p) (combine idx str)).

(** Where the element at flat position [k] of the broadcast result is read
    in an operand of shape [src]. *)
Definition offset (src tgt : list nat) (k : nat) : nat :=
  dot (unravel tgt k) (strides (pad (length tgt) src)).

Definition broadcast_to {A : Type} (d : A) (a : ndarray A) (tgt : list nat)
  : list A :=
  map (fun k => nth (offset (shape a) tgt k) (data a) d) (seq 0 (size tgt)).

(* ================================================================== *)
(** * The NumPy and Python operations the module uses                  *)
(* ================================================================== *)

Definition map_nd {A B : Type} (f : A -> B) (a : ndarray A) : ndarray B :=
  mk_nd (shape a) (map f (data a)).

(** A binary ufunc. *)
Definition ufunc2 (f : float -> float -> float) (a b : ndarray float)
  : Py (ndarray float) :=
  match broadcast_shapes (shape a) (shape b) with
  | None => raise ValueError
  | Some sh =>
      ret (mk_nd sh
             (map (fun p : float * float => f (fst p) (snd p))
                (combine (broadcast_to nan a sh) (broadcast_to nan b sh))))
  end.

(** A binary operator: Python's own arithmetic between two plain floats,
    the ufunc as soon as one operand is a NumPy value. *)
Definition binop (py : float -> float -> Py float)
  (np : float -> float -> float) (a b : value) : Py value :=
  match a, b with
  | PyFloat x, PyFloat y => r <- py x y ;; ret (PyFloat r)
  | _, _ => r <- ufunc2 np (as_array a) (as_array b) ;; ret (Nd r)
  end.

Definition py_add : value -> value -> Py value :=
  binop (fun x y => ret (x + y)%float) PrimFloat.add.

Definition py_sub : value -> value -> Py value :=
  binop (fun x y => ret (x - y)%float) PrimFloat.sub.

Definition py_mul : value -> value -> Py value :=
  binop (fun x y => ret (x * y)%float) PrimFloat.mul.

(** [/]: a plain float divided by zero raises; NumPy gives an infinity or a
    NaN (and a warning). *)
Definition py_truediv : value -> value -> Py value :=
  binop
    (fun x y => if (y =? 0)%float then raise ZeroDivisionError
                else ret (x / y)%float)
    PrimFloat.div.

(** C's [pow], the libm function that both [float.__pow__] and NumPy's
    power of a [np.float64] scalar end in.  The C standard does not fix its
    results bit for bit and it need not be correctly rounded: it is a
    parameter of the model. *)
Class Libm := libm_pow : float -> float -> float.

Section Power.

Context {libm : Libm}.

(** [x ** 2] on one element of a NumPy value of shape [sh].  The power of an
    array takes its fast path for the exponent 2, [np.square].  A value of
    shape [()] is a [np.float64] scalar by the time it is squared (it is the
    result of the arithmetic of lines 87 and 88, also when the operands were
    arrays of no dimension), and NumPy's scalar power calls [pow]. *)
Definition power_2 (sh : list nat) (x : float) : float :=
  match sh with
  | [] => libm_pow x 2
  | _ :: _ => (x * x)%float
  end.

(** [x ** 0.5] likewise: [np.sqrt] on an array, [pow] on a [np.float64]
    scalar. *)
Definition power_half (sh : list nat) (x : float) : float :=
  match sh with
  | [] => libm_pow x 0.5
  | _ :: _ => sqrt x
  end.

(** [float.__pow__] raises when [pow] overflows: the result [r] is infinite
    and the base [x] is not. *)
Definition overflow (x r : float) : bool :=
  is_infinity r && negb (is_infinity x).

(** [x ** 2] on a plain float, through [float.__pow__].  For a negative base
    CPython hands [pow] the absolute value, which gives the same square with
    every even [pow]. *)
Definition float_pow_2 (x : float) : Py float :=
  let r := libm_pow x 2 in
  if overflow x r then raise OverflowError else ret r.

(** [x ** 0.5] on a plain float.  [float.__pow__] turns to complex numbers
    on a negative base, which the sum of two squares on lines 90 and 155 is
    not ([powers_not_negative] below). *)
Definition float_pow_half (x : float) : Py float :=
  let r := libm_pow x 0.5 in
  if overflow x r then raise OverflowError else ret r.

Definition py_pow_2 (a : value) : Py value :=
  match a with
  | PyFloat x => r <- float_pow_2 x ;; ret (PyFloat r)
  | Nd a => ret (Nd (map_nd (power_2 (shape a)) a))
  end.

Definition py_pow_half (a : value) : Py value :=
  match a with
  | PyFloat x => r <- float_pow_half x ;; ret (PyFloat r)
  | Nd a => ret (Nd (map_nd (power_half (shape a)) a))
  end.

End Power.

(** [np.maximum] and [np.minimum] on two doubles: a NaN wins. *)
Definition np_maximum (a b : float) : float :=
  if (b <=? a)%float || is_nan a then a else b.

Definition np_minimum (a b : float) : float :=
  if (a <=? b)%float || is_nan a then a else b.

Definition reduce (f : float -> float -> float) (xs : list float) : Py float :=
  match xs with
  | [] => raise ValueError
  | x :: xs' => ret (fold_left f xs' x)
  end.

(** [np.max] and [np.min] over all elements; an empty array has no
    maximum. *)
Definition np_max (v : value) : Py float := reduce np_maximum (data (as_array v)).
Definition np_min (a : ndarray float) : Py float := reduce np_minimum (data a).

(** The scan of [np.argmin]: the first strictly smaller element takes over,
    and the scan stops at the first NaN. *)
Fixpoint argmin_from (mp : float) (min_ind i : nat) (xs : list float) : nat :=
  match xs with
  | [] => min_ind
  | x :: xs' =>
      if negb (mp <=? x)%float
      then if is_nan x then i else argmin_from x i (S i) xs'
      else argmin_from mp min_ind (S i) xs'
  end.

Definition argmin (xs : list float) : nat :=
  match xs with
  | [] => 0
  | x :: xs' => if is_nan x then 0 else argmin_from x 0 1 xs'
  end.

(** [np.argmin] without an axis: the index in the flattened array. *)
Definition np_argmin (a : ndarray float) : Py nat :=
  match data a with
  | [] => raise ValueError
  | _ :: _ => ret (argmin (data a))
  end.

(** [np.array(rows)] for rows of one length. *)
Definition np_array_2d (rows : list (list float)) : ndarray float :=
  mk_nd [length rows; length (hd [] rows)] (concat rows).

(** [a[i]] on a one-dimensional array. *)
Definition getitem (xs : list float) (i : nat) : Py float :=
  match nth_error xs i with
  | Some x => ret x
  | None => raise IndexError
  end.

(** [np.isnan(v).any()]. *)
Definition np_isnan_any (v : value) : bool := existsb is_nan (data (as_array v)).

(** [v.shape]: a plain float has no such attribute. *)
Definition get_shape (v : value) : Py (list nat) :=
  match v with
  | PyFloat _ => raise AttributeError
  | Nd a => ret (shape a)
  end.

Definition np_full {A : Type} (sh : list nat) (x : A) : ndarray A :=
  mk_nd sh (repeat x (size sh)).

(** [np.where(mask, x, y)] with a scalar [x]. *)
Definition np_where (mask : ndarray bool) (x : float) (y : value)
  : Py (ndarray float) :=
  let y := as_array y in
  match broadcast_shapes (shape mask) (shape y) with
  | None => raise ValueError
  | Some sh =>
      ret (mk_nd sh
             (map (fun p : bool * float => if fst p then x else snd p)
                (combine (broadcast_to false mask sh) (broadcast_to nan y sh))))
  end.

(* ================================================================== *)
(** * The module                                                       *)
(* ================================================================== *)

Section Libm.

(** The general power [ratio ** exponent] ends in C's [pow]: NumPy applies
    it element by element, and [float.__pow__] wraps it with Python's
    error checks.  Neither is code of this module; both are parameters. *)
Variable npy_pow : float -> float -> float.
Variable float_pow : float -> float -> Py float.

Definition py_pow : value -> value -> Py value := binop float_pow npy_pow.

(** [wind_shear_enhancement_factor] (lines 11-49). *)
Definition wind_shear_enhancement_factor
  (contrail_depth : ndarray float)
  (effective_vertical_resolution wind_shear_enhancement_exponent : value)
  : Py value :=
  ratio <- py_truediv effective_vertical_resolution (Nd contrail_depth) ;;
  p <- py_pow ratio wind_shear_enhancement_exponent ;;
  s <- py_add (PyFloat 1.0) p ;;
  enhancement_factor <- py_mul (PyFloat 0.5) s ;;
  let hijacked_factor := PyFloat 1.0 in
  ret hijacked_factor.

End Libm.

(** The candidates of lines 95 and 160. *)
Definition shear_options : list float := [2e-3; 4e-3; 6e-3]%float.

(** [np.abs(shear_options - shear_max)]: the list becomes an array and the
    scalar is subtracted from each entry. *)
Definition abs_distance (options : list float) (shear_max : float) : list float :=
  map (fun o => abs (o - shear_max)%float) options.

Section Model.

Context {libm : Libm}.

(** [wind_shear_normal] (lines 52-120). *)
Definition wind_shear_normal
  (u_wind_top u_wind_btm v_wind_top v_wind_btm cos_a sin_a : value)
  (dz : float) : Py value :=
  du <- py_sub u_wind_top u_wind_btm ;;
  du_dz <- py_truediv du (PyFloat dz) ;;
  dv <- py_sub v_wind_top v_wind_btm ;;
  dv_dz <- py_truediv dv (PyFloat dz) ;;
  dv_cos <- py_mul dv_dz cos_a ;;
  du_sin <- py_mul du_dz sin_a ;;
  dsn_dz <- py_sub dv_cos du_sin ;;
  du2 <- py_pow_2 du_dz ;;
  dv2 <- py_pow_2 dv_dz ;;
  sq <- py_add du2 dv2 ;;
  ds_dz <- py_pow_half sq ;;
  shear_max <- np_max ds_dz ;;
  let shear_distance :=
    fold_left
      (fun acc (shear : float) => acc ++ [abs_distance shear_options shear_max])
      shear_options [] in
  let shear_distance := np_array_2d shear_distance in
  index_min <- np_argmin shear_distance ;;
  chosen_shear <- getitem shear_options index_min ;;
  choice <-
    (if np_isnan_any dsn_dz
     then print Removed_NaN ;;; ret (2e-3%float, true)
     else ret (chosen_shear, false)) ;;
  let chosen_shear := fst choice in
  let nan_present := snd choice in
  sh <- get_shape dsn_dz ;;
  let mask := np_full sh true in
  dsn_dz <- np_where mask (- chosen_shear)%float dsn_dz ;;
  min_shear <- np_min dsn_dz ;;
  (if negb (chosen_shear =? 2e-3)%float || nan_present
   then print (NORMAL_shear min_shear) else ret tt) ;;;
  ret (Nd dsn_dz).

(** [wind_shear] (lines 123-186). *)
Definition wind_shear
  (u_wind_top u_wind_btm v_wind_top v_wind_btm : value) (dz : float)
  : Py value :=
  du <- py_sub u_wind_top u_wind_btm ;;
  du_dz <- py_truediv du (PyFloat dz) ;;
  dv <- py_sub v_wind_top v_wind_btm ;;
  dv_dz <- py_truediv dv (PyFloat dz) ;;
  du2 <- py_pow_2 du_dz ;;
  dv2 <- py_pow_2 dv_dz ;;
  sq <- py_add du2 dv2 ;;
  ds_dz <- py_pow_half sq ;;
  shear_max <- np_max ds_dz ;;
  let shear_distance :=
    fold_left
      (fun acc (shear : float) => acc ++ [abs_distance shear_options shear_max])
      shear_options [] in
  let shear_distance := np_array_2d shear_distance in
  index_min <- np_argmin shear_distance ;;
  chosen_shear <- getitem shear_options index_min ;;
  choice <-
    (if np_isnan_any ds_dz
     then ret (2e-3%float, true)
     else ret (chosen_shear, false)) ;;
  let chosen_shear := fst choice in
  let nan_present := snd choice in
  sh <- get_shape ds_dz ;;
  let mask := np_full sh true in
  ds_dz <- np_where mask chosen_shear ds_dz ;;
  min_shear <- np_min ds_dz ;;
  (if negb (chosen_shear =? 2e-3)%float || nan_present
   then print (Shear min_shear) else ret tt) ;;;
  ret (Nd ds_dz).

(* ================================================================== *)
(** * Intermediate quantities and notions used in the statements       *)
(* ================================================================== *)

(** [(top - btm) / dz] (lines 87, 88, 152 and 153). *)
Definition gradient (top btm : value) (dz : float) : Py value :=
  d <- py_sub top btm ;;
  py_truediv d (PyFloat dz).

(** [(du_dz**2 + dv_dz**2) ** 0.5] (lines 90 and 155). *)
Definition magnitude (du_dz dv_dz : value) : Py value :=
  du2 <- py_pow_2 du_dz ;;
  dv2 <- py_pow_2 dv_dz ;;
  sq <- py_add du2 dv2 ;;
  py_pow_half sq.

(** [dv_dz * cos_a - du_dz * sin_a] (line 89). *)
Definition normal_gradient (du_dz dv_dz cos_a sin_a : value) : Py value :=
  dv_cos <- py_mul dv_dz cos_a ;;
  du_sin <- py_mul du_dz sin_a ;;
  py_sub dv_cos du_sin.

(** The magnitude array [ds_dz] of both functions, from their arguments. *)
Definition ds_dz_of (u_wind_top u_wind_btm v_wind_top v_wind_btm : value)
  (dz : float) : Py value :=
  du_dz <- gradient u_wind_top u_wind_btm dz ;;
  dv_dz <- gradient v_wind_top v_wind_btm dz ;;
  magnitude du_dz dv_dz.

(** The signed array [dsn_dz] of [wind_shear_normal], from its arguments. *)
Definition dsn_dz_of
  (u_wind_top u_wind_btm v_wind_top v_wind_btm cos_a sin_a : value)
  (dz : float) : Py value :=
  du_dz <- gradient u_wind_top u_wind_btm dz ;;
  dv_dz <- gradient v_wind_top v_wind_btm dz ;;
  normal_gradient du_dz dv_dz cos_a sin_a.

End Model.

(** The selection of lines 95-105, repeated as lines 160-170: one row of
    distances per candidate, the flattened arg-min, the candidate at that
    index. *)
Definition select_shear (shear_max : float) : Py float :=
  let shear_distance :=
    fold_left
      (fun acc (shear : float) => acc ++ [abs_distance shear_options shear_max])
      shear_options [] in
  let shear_distance := np_array_2d shear_distance in
  index_min <- np_argmin shear_distance ;;
  getitem shear_options index_min.

(** The selection as section 9 of the specification words it: one distance
    vector and one arg-min. *)
Definition select_shear_single (shear_max : float) : Py float :=
  let shear_distance := mk_nd [3] (abs_distance shear_options shear_max) in
  index_min <- np_argmin shear_distance ;;
  getitem shear_options index_min.

(** The candidate at the first smallest distance to [shear_max]. *)
Definition closest (shear_max : float) : float :=
  nth (argmin (abs_distance shear_options shear_max)) shear_options 2e-3%float.

(** The bucket after the NaN override of lines 106-111 and 171-176. *)
Definition chosen (nan_present : bool) (shear_max : float) : float :=
  if nan_present then 2e-3%float else closest shear_max.


(** Elementwise negation of what a call gives; an exception stays. *)
Definition negated (r : exn + value) : exn + value :=
  match r with
  | inr (Nd a) => inr (Nd (map_nd PrimFloat.opp a))
  | inr (PyFloat x) => inr (PyFloat (- x)%float)
  | inl e => inl e
  end.

(** A computation that prints nothing. *)
Definition silent {A : Type} (m : Py A) : Prop :=
  forall out, m out = (result m, out).

Definition is_finite (x : float) : bool := negb (is_nan x) && negb (is_infinity x).

(** The element a broadcast to shape [sh] reads at flat position [k]. *)
Definition element_at (v : value) (sh : list nat) (k : nat) : float :=
  nth (offset (shape (as_array v)) sh k) (data (as_array v)) nan.

(** The shape a value has in an operation: a plain float has none of its
    own and broadcasts as [()]. *)
Definition shape_of (v : value) : list nat := shape (as_array v).

(** An array holds as many elements as its shape says. *)
Definition well_formed (v : value) : Prop :=
  length (data (as_array v)) = size (shape_of v).

Definition is_array (v : value) : bool :=
  match v with PyFloat _ => false | Nd _ => true end.

(** The inputs of the worked examples of the specification (section 8). *)
Definition example_u_top : value := Nd (mk_nd [2] [5; 10]%float).
Definition example_zero : value := Nd (mk_nd [2] [0; 0]%float).

(** Wind components of shape [(1,)] next to an axis given at three
    points. *)
Definition example_one_row : value := Nd (mk_nd [1] [10]%float).
Definition example_one_zero : value := Nd (mk_nd [1] [0]%float).
Definition example_cos_3 : value := Nd (mk_nd [3] [1; 1; 1]%float).
Definition example_sin_3 : value := Nd (mk_nd [3] [0; 0; 0]%float).

(** Axis by axis, an operand shape [p] padded to the rank of the result [t]
    agrees with it or has length one. *)
Definition fits (p t : list nat) : Prop :=
  Forall2 (fun d e => d = e \/ d = 1) p t.

(** [np.isinf(v).any()]. *)
Definition np_isinf_any (v : value) : bool :=
  existsb is_infinity (data (as_array v)).

Definition sf_is_nan (x : spec_float) : bool :=
  match x with S754_nan => true | _ => false end.

(** [x] is a NaN or carries the sign bit [s]. *)
Definition sf_signed (s : bool) (x : spec_float) : bool :=
  match x with
  | S754_nan => true
  | S754_zero t | S754_infinity t | S754_finite t _ _ => Bool.eqb s t
  end.

(* ================================================================== *)
(** * What is known of [pow]                                           *)
(* ================================================================== *)


(** What a call of [pow] with the exponent 2 is known to give: a NaN
    exactly for a NaN, never a negative number, zero for a zero and
    [+inf] for an infinity (C99, 7.12.7.4 and F.9.4.4).  The correctly
    rounded square is one such function. *)
Record squaring (sq : float -> float) : Prop := {
  sq_nan : forall x, is_nan (sq x) = is_nan x;
  sq_sign : forall x, sf_signed false (Prim2SF (sq x)) = true;
  sq_zero : forall x, (x =? 0)%float = true -> sq x = 0%float;
  sq_inf : forall x, is_infinity x = true -> sq x = infinity
}.

(** The same for the exponent 0.5, on a base that is not negative: a NaN
    exactly for a NaN, [+0] for [+0] and [+inf] for [+inf].  The correctly
    rounded square root is one such function. *)
Record rooting (rt : float -> float) : Prop := {
  rt_nan : forall x, sf_signed false (Prim2SF x) = true ->
                     is_nan (rt x) = is_nan x;
  rt_zero : rt 0%float = 0%float;
  rt_inf : rt infinity = infinity
}.

(** The special values of [pow] at the two exponents the module uses. *)
Definition c99_pow (pow : float -> float -> float) : Prop :=
  squaring (fun x => pow x 2%float) /\ rooting (fun x => pow x 0.5%float).

(** A square does not depend on the sign of its base. *)
Definition pow_even (pow : float -> float -> float) : Prop :=
  forall x, pow (- x)%float 2%float = pow x 2%float.

(** A [pow] that is correctly rounded at the two exponents the module
    uses: one to evaluate the module with on concrete inputs. *)
Definition rounded_pow : Libm :=
  fun x y =>
    if (y =? 2)%float then (x * x)%float
    else if (y =? 0.5)%float then sqrt x
    else nan.

(* ================================================================== *)
(** * Notions used in the properties                                   *)
(* ================================================================== *)

(** The number a finite double stands for (0 for the others). *)
Definition exact (x : float) : QArith_base.Q :=
  match Prim2SF x with
  | S754_finite s m e =>
      QArith_base.Qmult (QArith_base.inject_Z (cond_Zopp s (Z.pos m)))
        (QArith_base.Qpower (QArith_base.inject_Z 2) e)
  | _ => QArith_base.inject_Z 0
  end.


(** A [np.float64] scalar: a NumPy value of shape [()]. *)
Definition np_float64 (x : float) : value := Nd (mk_nd [] [x]).

(** An array of no dimension, as [np.where] returns on a mask of shape
    [()].  A NumPy value is kept as its shape and its elements, so this is
    the value [np_float64 x]: the arithmetic of the module turns both into
    [np.float64] scalars. *)
Definition np_array_0d (x : float) : value := Nd (mk_nd [] [x]).

(** Python's unary minus. *)
Definition py_neg (v : value) : value :=
  match v with
  | PyFloat x => PyFloat (- x)%float
  | Nd a => Nd (map_nd PrimFloat.opp a)
  end.

(** A double that is not a non-zero finite number: a zero, an infinity or
    a NaN. *)
Definition degenerate (x : float) : bool :=
  (x =? 0)%float || is_nan x || is_infinity x.

Definition sf_finite (x : spec_float) : bool :=
  match x with S754_finite _ _ _ => true | _ => false end.

(** [x'] is [x] with the other sign, or both are the same zero or NaN: how
    a difference changes when its operands are exchanged. *)
Definition mirror (x x' : float) : Prop :=
  x' = (- x)%float \/ (x' = x /\ (x =? 0)%float || is_nan x = true).

(** What [mirror] says on the specification side. *)
Definition sf_mirror (x x' : spec_float) : Prop :=
  x' = SFopp x \/
  (x' = x /\ match x with S754_zero _ | S754_nan => True | _ => False end).

Definition opposite (y y' : float) : Prop := y' = (- y)%float.

Definition same_nan (z z' : float) : Prop := is_nan z' = is_nan z.

(** Two values of one kind and one shape whose elements are related one by
    one. *)
Definition related (R : float -> float -> Prop) (v v' : value) : Prop :=
  is_array v = is_array v' /\ shape_of v = shape_of v' /\
  Forall2 R (data (as_array v)) (data (as_array v')).

(** Two outcomes that are the same exception, or two results that are
    related. *)
Definition both {A : Type} (R : A -> A -> Prop) (r r' : exn + A) : Prop :=
  match r, r' with
  | inr x, inr x' => R x x'
  | inl e, inl e' => e = e'
  | _, _ => False
  end.

(* ================================================================== *)
(** * Facts about binary64 comparison and NaN                          *)
(* ================================================================== *)

Module FloatFacts.

Local Open Scope float_scope.

Lemma SFcompare_refl x : sf_is_nan x = false -> SFcompare x x = Some Eq.
Proof.
  destruct x as [s|s| |s m e]; simpl; try discriminate; intros _;
    try (destruct s; reflexivity).
  destruct s; rewrite Z.compare_refl;
    change (Pos.compare_cont Eq m m) with (Pos.compare m m);
    now rewrite Pos.compare_refl.
Qed.

Lemma is_nan_spec x : is_nan x = sf_is_nan (Prim2SF x).
Proof.
  unfold is_nan. rewrite eqb_spec. unfold SFeqb.
  destruct (sf_is_nan (Prim2SF x)) eqn:E.
  - destruct (Prim2SF x); try discriminate. reflexivity.
  - now rewrite SFcompare_refl.
Qed.

Lemma is_nan_eq x : is_nan x = true -> x = nan.
Proof.
  rewrite is_nan_spec. intros H. apply Prim2SF_inj.
  destruct (Prim2SF x); try discriminate. reflexivity.
Qed.

Ltac sf_cases :=
  repeat match goal with
  | x : spec_float |- _ => destruct x as [[|]|[|]| |[|] ? ?]
  end; simpl in *; try discriminate; try reflexivity.

Ltac cmp_cases :=
  repeat match goal with
  | |- context [Z.compare ?a ?b] => destruct (Z.compare_spec a b)
  | H : context [Z.compare ?a ?b] |- _ => destruct (Z.compare_spec a b)
  | |- context [Pos.compare_cont Eq ?a ?b] =>
      change (Pos.compare_cont Eq a b) with (Pos.compare a b);
      destruct (Pos.compare_spec a b)
  | H : context [Pos.compare_cont Eq ?a ?b] |- _ =>
      change (Pos.compare_cont Eq a b) with (Pos.compare a b) in H;
      destruct (Pos.compare_spec a b)
  end; simpl in *; try discriminate; try reflexivity; try lia.

Lemma SFleb_trans x y z :
  SFleb x y = true -> SFleb y z = true -> SFleb x z = true.
Proof. unfold SFleb. sf_cases; intros; cmp_cases. Qed.


Lemma SFleb_false_ltb x y :
  sf_is_nan x = false -> sf_is_nan y = false ->
  SFleb x y = false -> SFltb y x = true.
Proof. unfold SFleb, SFltb. sf_cases; intros; cmp_cases. Qed.


Lemma SFltb_leb x y : SFltb x y = true -> SFleb x y = true.
Proof. unfold SFleb, SFltb. sf_cases; intros; cmp_cases. Qed.

Lemma SFleb_not_nan x y :
  SFleb x y = true -> sf_is_nan x = false /\ sf_is_nan y = false.
Proof. unfold SFleb. sf_cases; intros; auto. Qed.

(** The same facts on primitive floats. *)

Lemma leb_trans a b c :
  (a <=? b) = true -> (b <=? c) = true -> (a <=? c) = true.
Proof. rewrite !leb_spec. apply SFleb_trans. Qed.


Lemma leb_false_ltb a b :
  is_nan a = false -> is_nan b = false -> (a <=? b) = false -> (b <? a) = true.
Proof. rewrite !is_nan_spec, leb_spec, ltb_spec. apply SFleb_false_ltb. Qed.


Lemma ltb_leb a b : (a <? b) = true -> (a <=? b) = true.
Proof. rewrite leb_spec, ltb_spec. apply SFltb_leb. Qed.

Lemma leb_refl a : is_nan a = false -> (a <=? a) = true.
Proof.
  rewrite is_nan_spec, leb_spec. intros H. unfold SFleb.
  now rewrite SFcompare_refl.
Qed.

Lemma leb_not_nan a b :
  (a <=? b) = true -> is_nan a = false /\ is_nan b = false.
Proof. rewrite !is_nan_spec, leb_spec. apply SFleb_not_nan. Qed.

Lemma leb_total a b :
  is_nan a = false -> is_nan b = false -> (a <=? b) = false -> (b <=? a) = true.
Proof. intros. now apply ltb_leb, leb_false_ltb. Qed.


End FloatFacts.

(** Rounding, infinities and the propagation of NaN. *)
Module FloatArith.

Import FloatFacts.
Local Open Scope float_scope.

Lemma iter_pos_invariant {A : Type} (P : A -> Prop) (f : A -> A) :
  (forall x, P x -> P (f x)) -> forall p x, P x -> P (iter_pos f p x).
Proof.
  intros Hf. induction p as [p IH|p IH|]; intros x Hx; simpl; auto.
Qed.

Lemma shr_1_nonneg mrs : (0 <= shr_m mrs)%Z -> (0 <= shr_m (shr_1 mrs))%Z.
Proof.
  destruct mrs as [m r s]. simpl. intros H.
  destruct m as [|[p|p|]|p]; simpl; lia.
Qed.

Lemma shr_fexp_nonneg m e l :
  (0 <= m)%Z -> (0 <= shr_m (fst (shr_fexp prec emax m e l)))%Z.
Proof.
  intros H. unfold shr_fexp, shr.
  assert (H0 : (0 <= shr_m (shr_record_of_loc m l))%Z).
  { destruct l as [|[ | | ]]; exact H. }
  destruct (_ - e)%Z; simpl; try assumption.
  now apply (iter_pos_invariant (fun r => (0 <= shr_m r)%Z) shr_1 shr_1_nonneg).
Qed.

Lemma round_nearest_even_nonneg m l :
  (0 <= m)%Z -> (0 <= round_nearest_even m l)%Z.
Proof.
  intros H. destruct l as [|[ | | ]]; simpl; try lia.
  destruct (Z.even m); lia.
Qed.

(** Rounding a non-negative mantissa never makes a NaN. *)
Lemma binary_round_aux_not_nan s m e l :
  (0 <= m)%Z -> sf_is_nan (binary_round_aux prec emax s m e l) = false.
Proof.
  intros H. unfold binary_round_aux.
  pose proof (shr_fexp_nonneg m e l H) as H1.
  destruct (shr_fexp prec emax m e l) as [mrs' e']. simpl in H1.
  pose proof (shr_fexp_nonneg _ e' loc_Exact
    (round_nearest_even_nonneg _ (loc_of_shr_record mrs') H1)) as H2.
  destruct (shr_fexp prec emax _ e' loc_Exact) as [mrs'' e'']. simpl in H2.
  destruct (shr_m mrs'') as [|p|p]; [reflexivity| |lia].
  now destruct (_ <=? _)%Z.
Qed.

Lemma binary_normalize_not_nan m e sz :
  sf_is_nan (binary_normalize prec emax m e sz) = false.
Proof.
  unfold binary_normalize, binary_round.
  destruct m as [|p|p]; [reflexivity| |];
    destruct (shl_align _ _ _); apply binary_round_aux_not_nan; lia.
Qed.



Lemma is_infinity_cases x :
  is_infinity x = true -> x = infinity \/ x = neg_infinity.
Proof.
  unfold is_infinity. rewrite eqb_spec, abs_spec. intros H.
  destruct (Prim2SF x) as [s|s| |s m e] eqn:E; try discriminate.
  destruct s; [right|left]; apply Prim2SF_inj; rewrite E; reflexivity.
Qed.

Lemma add_infinity_l z : is_nan (infinity + z) = false -> infinity + z = infinity.
Proof.
  rewrite is_nan_spec, add_spec. intros H. apply Prim2SF_inj. rewrite add_spec.
  change (Prim2SF infinity) with (S754_infinity false) in *.
  destruct (Prim2SF z) as [s|[|]| |s m e]; try discriminate; reflexivity.
Qed.

Lemma add_infinity_r z : is_nan (z + infinity) = false -> z + infinity = infinity.
Proof.
  rewrite is_nan_spec, add_spec. intros H. apply Prim2SF_inj. rewrite add_spec.
  change (Prim2SF infinity) with (S754_infinity false) in *.
  destruct (Prim2SF z) as [s|[|]| |s m e]; try discriminate; reflexivity.
Qed.

Lemma leb_infinity_r x : is_nan x = false -> (x <=? infinity) = true.
Proof.
  rewrite is_nan_spec, leb_spec.
  change (Prim2SF infinity) with (S754_infinity false).
  destruct (Prim2SF x) as [s|[|]| |[|] m e]; try discriminate; reflexivity.
Qed.

Lemma leb_infinity_l x : (infinity <=? x) = true -> x = infinity.
Proof.
  rewrite leb_spec. change (Prim2SF infinity) with (S754_infinity false).
  intros H. apply Prim2SF_inj.
  destruct (Prim2SF x) as [s|[|]| |[|] m e]; try discriminate; reflexivity.
Qed.

Lemma leb_nan_l x y : is_nan x = true -> (x <=? y) = false.
Proof.
  intros H. destruct (x <=? y) eqn:E; [|reflexivity].
  apply leb_not_nan in E. destruct E. congruence.
Qed.

Lemma leb_nan_r x y : is_nan y = true -> (x <=? y) = false.
Proof.
  intros H. destruct (x <=? y) eqn:E; [|reflexivity].
  apply leb_not_nan in E. destruct E. congruence.
Qed.

(** The sign a result carries: [sf_signed s r] says that [r] is a NaN or
    has the sign bit [s]. *)
Lemma binary_round_aux_signed s m e l :
  sf_signed s (binary_round_aux prec emax s m e l) = true.
Proof.
  unfold binary_round_aux.
  destruct (shr_fexp prec emax m e l) as [mrs' e'].
  destruct (shr_fexp prec emax _ e' loc_Exact) as [mrs'' e''].
  destruct (shr_m mrs'') as [|p|p]; simpl; try apply eqb_reflx.
  - destruct (_ <=? _)%Z; simpl; apply eqb_reflx.
  - reflexivity.
Qed.

Lemma mul_self_signed x : sf_signed false (Prim2SF (x * x)) = true.
Proof.
  rewrite mul_spec. unfold SF64mul, SFmul.
  destruct (Prim2SF x) as [[|]|[|]| |[|] m e]; try reflexivity;
    apply (binary_round_aux_signed false).
Qed.

Lemma add_signed x y :
  sf_signed false (Prim2SF x) = true -> sf_signed false (Prim2SF y) = true ->
  sf_signed false (Prim2SF (x + y)) = true.
Proof.
  rewrite add_spec. unfold SF64add, SFadd.
  destruct (Prim2SF x) as [[|]|[|]| |[|] mx ex];
    destruct (Prim2SF y) as [[|]|[|]| |[|] my ey];
    try discriminate; try reflexivity.
  intros _ _. unfold binary_normalize, cond_Zopp.
  destruct (shl_align mx ex (Z.min ex ey)) as [m1 e1].
  destruct (shl_align my ey (Z.min ex ey)) as [m2 e2]. simpl fst.
  change (Z.pos m1 + Z.pos m2)%Z with (Z.pos (m1 + m2)).
  unfold binary_round. destruct (shl_align _ _ _).
  apply (binary_round_aux_signed false).
Qed.

Lemma sqrt_core_nonneg m e :
  (0 <= fst (fst (SFsqrt_core_binary prec emax m e)))%Z.
Proof.
  unfold SFsqrt_core_binary.
  set (m' := match (e - 2 * _)%Z with Z0 => m | Zpos _ => _ | Zneg _ => _ end).
  pose proof (Z.sqrtrem_sqrt m') as H.
  destruct (Z.sqrtrem m') as [q r]. simpl in *. subst q. apply Z.sqrt_nonneg.
Qed.

Lemma mul_self_not_nan x : is_nan x = false -> is_nan (x * x) = false.
Proof.
  rewrite !is_nan_spec, mul_spec. unfold SF64mul, SFmul.
  destruct (Prim2SF x) as [s|s| |s m e]; try reflexivity; try discriminate.
  intros _. apply binary_round_aux_not_nan. lia.
Qed.

Lemma add_not_nan x y :
  sf_signed false (Prim2SF x) = true -> sf_signed false (Prim2SF y) = true ->
  is_nan x = false -> is_nan y = false -> is_nan (x + y) = false.
Proof.
  rewrite !is_nan_spec, add_spec. unfold SF64add, SFadd.
  destruct (Prim2SF x) as [[|]|[|]| |[|] mx ex];
    destruct (Prim2SF y) as [[|]|[|]| |[|] my ey];
    try discriminate; try reflexivity.
  intros _ _ _ _. apply binary_normalize_not_nan.
Qed.

Lemma sqrt_not_nan x :
  sf_signed false (Prim2SF x) = true -> is_nan x = false ->
  is_nan (sqrt x) = false.
Proof.
  rewrite !is_nan_spec, sqrt_spec. unfold SF64sqrt, SFsqrt.
  destruct (Prim2SF x) as [s|[|]| |[|] m e]; try discriminate; try reflexivity.
  intros _ _. pose proof (sqrt_core_nonneg (Z.pos m) e) as H.
  destruct (SFsqrt_core_binary prec emax (Z.pos m) e) as [[mz ez] lz].
  now apply binary_round_aux_not_nan.
Qed.

Lemma mul_nan_l x y : is_nan x = true -> is_nan (x * y) = true.
Proof.
  rewrite !is_nan_spec, mul_spec. unfold SF64mul, SFmul.
  destruct (Prim2SF x); try discriminate. now destruct (Prim2SF y).
Qed.

Lemma sub_nan_l x y : is_nan x = true -> is_nan (x - y) = true.
Proof.
  rewrite !is_nan_spec, sub_spec. unfold SF64sub, SFsub.
  destruct (Prim2SF x); try discriminate. now destruct (Prim2SF y).
Qed.

Lemma sub_nan_r x y : is_nan y = true -> is_nan (x - y) = true.
Proof.
  rewrite !is_nan_spec, sub_spec. unfold SF64sub, SFsub.
  destruct (Prim2SF y); try discriminate. now destruct (Prim2SF x).
Qed.

End FloatArith.

(** Zeros and finite numbers. *)
Module FloatZero.
Import FloatFacts FloatArith.
Local Open Scope float_scope.

Lemma eqb_zero_spec x :
  (x =? 0) = match Prim2SF x with S754_zero _ => true | _ => false end.
Proof.
  rewrite eqb_spec. change (Prim2SF 0) with (S754_zero false).
  now destruct (Prim2SF x) as [[|]|[|]| |[|] m e].
Qed.

Lemma is_finite_spec x :
  is_finite x =
  match Prim2SF x with S754_zero _ | S754_finite _ _ _ => true | _ => false end.
Proof.
  unfold is_finite, is_infinity. rewrite is_nan_spec, eqb_spec, abs_spec.
  change (Prim2SF infinity) with (S754_infinity false).
  now destruct (Prim2SF x) as [[|]|[|]| |[|] m e].
Qed.

Lemma zero_not_nan x : (x =? 0) = true -> is_nan x = false.
Proof. rewrite eqb_zero_spec, is_nan_spec. now destruct (Prim2SF x). Qed.

(** The difference of a finite number and itself is zero. *)
Lemma sub_self_zero x : is_finite x = true -> (x - x =? 0) = true.
Proof.
  rewrite is_finite_spec, eqb_zero_spec, sub_spec. unfold SF64sub, SFsub.
  destruct (Prim2SF x) as [[|]|[|]| |s m e]; try discriminate; try reflexivity.
  intros _. cbv zeta. now rewrite Z.sub_diag.
Qed.

Lemma div_zero x dz :
  (x =? 0) = true -> (dz =? 0) = false -> is_nan dz = false ->
  (x / dz =? 0) = true.
Proof.
  rewrite !eqb_zero_spec, is_nan_spec, div_spec. unfold SF64div, SFdiv.
  destruct (Prim2SF x); try discriminate.
  now destruct (Prim2SF dz).
Qed.

Lemma mul_zero_finite x c :
  (x =? 0) = true -> is_finite c = true -> (x * c =? 0) = true.
Proof.
  rewrite !eqb_zero_spec, is_finite_spec, mul_spec. unfold SF64mul, SFmul.
  destruct (Prim2SF x); try discriminate.
  now destruct (Prim2SF c).
Qed.

Lemma sub_zero x y : (x =? 0) = true -> (y =? 0) = true -> (x - y =? 0) = true.
Proof.
  rewrite !eqb_zero_spec, sub_spec. unfold SF64sub, SFsub.
  destruct (Prim2SF x) as [[|]|[|]| |s m e]; try discriminate;
    now destruct (Prim2SF y) as [[|]|[|]| |s' m' e'].
Qed.

End FloatZero.

(** Divisors and gradients that are a zero, an infinity or a NaN; NaN
    through division and through the magnitude. *)
Module FloatDegenerate.
Import FloatFacts FloatArith.
Local Open Scope float_scope.

Lemma degenerate_spec x : degenerate x = negb (sf_finite (Prim2SF x)).
Proof.
  unfold degenerate, is_infinity. rewrite is_nan_spec, !eqb_spec, abs_spec.
  change (Prim2SF 0) with (S754_zero false).
  change (Prim2SF infinity) with (S754_infinity false).
  now destruct (Prim2SF x) as [[|]|[|]| |[|] m e].
Qed.

Lemma div_degenerate x y : degenerate y = true -> degenerate (x / y) = true.
Proof.
  rewrite !degenerate_spec, div_spec. unfold SF64div, SFdiv.
  destruct (Prim2SF y) as [sy|sy| |sy my ey]; try discriminate; intros _;
    now destruct (Prim2SF x).
Qed.

Lemma closest_degenerate m : degenerate m = true -> closest m = 2e-3.
Proof.
  rewrite degenerate_spec. intros H.
  assert (C : m = 0 \/ m = -0 \/ m = infinity \/ m = neg_infinity \/ m = nan).
  { destruct (Prim2SF m) as [[|]|[|]| |s mm e] eqn:E; try discriminate;
      [right; left|left|do 3 right; left|do 2 right; left|do 4 right];
      apply Prim2SF_inj; rewrite E; reflexivity. }
  destruct C as [->|[->|[->|[->| ->]]]]; reflexivity.
Qed.

Lemma div_nan_l x y : is_nan x = true -> is_nan (x / y) = true.
Proof.
  rewrite !is_nan_spec, div_spec. unfold SF64div, SFdiv.
  destruct (Prim2SF x); try discriminate. reflexivity.
Qed.

Lemma div_nan_r x y : is_nan y = true -> is_nan (x / y) = true.
Proof.
  rewrite !is_nan_spec, div_spec. unfold SF64div, SFdiv.
  destruct (Prim2SF y); try discriminate. now destruct (Prim2SF x).
Qed.

Lemma mul_nan_r x y : is_nan y = true -> is_nan (x * y) = true.
Proof.
  rewrite !is_nan_spec, mul_spec. unfold SF64mul, SFmul.
  destruct (Prim2SF y); try discriminate. now destruct (Prim2SF x).
Qed.

End FloatDegenerate.

(** Sign symmetry of rounding: exchanging the operands of a difference, or
    negating one operand of a quotient or a product, changes the sign of the
    result and nothing else. *)
Module FloatMirror.
Import FloatFacts FloatArith.
Local Open Scope float_scope.

Lemma binary_round_aux_opp s m e l :
  binary_round_aux prec emax (negb s) m e l =
  SFopp (binary_round_aux prec emax s m e l).
Proof.
  unfold binary_round_aux.
  destruct (shr_fexp prec emax m e l) as [mrs' e'].
  destruct (shr_fexp prec emax _ e' loc_Exact) as [mrs'' e''].
  destruct (shr_m mrs'') as [|p|p]; try reflexivity.
  now destruct (_ <=? _)%Z.
Qed.

Lemma binary_round_opp s m e :
  binary_round prec emax (negb s) m e = SFopp (binary_round prec emax s m e).
Proof.
  unfold binary_round. destruct (shl_align _ _ _).
  apply binary_round_aux_opp.
Qed.

Lemma mirror_spec x x' : mirror x x' <-> sf_mirror (Prim2SF x) (Prim2SF x').
Proof.
  unfold mirror, sf_mirror. rewrite FloatZero.eqb_zero_spec, is_nan_spec.
  split; intros [H|[H Z]].
  - left. subst. apply opp_spec.
  - right. subst. split; [reflexivity|]. now destruct (Prim2SF x).
  - left. apply Prim2SF_inj. now rewrite opp_spec.
  - right. split; [now apply Prim2SF_inj|]. now destruct (Prim2SF x).
Qed.

Lemma sub_mirror a b : mirror (a - b) (b - a).
Proof.
  apply mirror_spec. rewrite !sub_spec. unfold SF64sub, SFsub, sf_mirror.
  destruct (Prim2SF a) as [[|]|[|]| |sa ma ea];
    destruct (Prim2SF b) as [[|]|[|]| |sb mb eb];
    try (left; reflexivity); try (right; split; [reflexivity|exact I]).
  - left. simpl. now rewrite negb_involutive.
  - left. simpl. now rewrite negb_involutive.
  - cbv zeta. rewrite (Z.min_comm eb ea).
    set (x := cond_Zopp sa _). set (y := cond_Zopp sb _).
    replace (y - x)%Z with (- (x - y))%Z by lia.
    destruct (x - y)%Z as [|p|p]; simpl.
    + right. split; [reflexivity|exact I].
    + left. apply (binary_round_opp false).
    + left. rewrite <- (binary_round_opp true). reflexivity.
Qed.

Lemma xorb_negb_l a b : xorb (negb a) b = negb (xorb a b).
Proof. now destruct a, b. Qed.

Lemma xorb_negb_r a b : xorb a (negb b) = negb (xorb a b).
Proof. now destruct a, b. Qed.

Lemma SFdiv_opp_l x y :
  SFdiv prec emax (SFopp x) y = SFopp (SFdiv prec emax x y).
Proof.
  destruct x as [sx|sx| |sx mx ex], y as [sy|sy| |sy my ey]; simpl;
    rewrite ?xorb_negb_l; try reflexivity.
  destruct (SFdiv_core_binary _ _ _ _ _ _) as [[mz ez] lz].
  apply binary_round_aux_opp.
Qed.

Lemma SFdiv_opp_r x y :
  SFdiv prec emax x (SFopp y) = SFopp (SFdiv prec emax x y).
Proof.
  destruct x as [sx|sx| |sx mx ex], y as [sy|sy| |sy my ey]; simpl;
    rewrite ?xorb_negb_r; try reflexivity.
  destruct (SFdiv_core_binary _ _ _ _ _ _) as [[mz ez] lz].
  apply binary_round_aux_opp.
Qed.

Lemma SFmul_opp_l x y :
  SFmul prec emax (SFopp x) y = SFopp (SFmul prec emax x y).
Proof.
  destruct x as [sx|sx| |sx mx ex], y as [sy|sy| |sy my ey]; simpl;
    rewrite ?xorb_negb_l; try reflexivity.
  apply binary_round_aux_opp.
Qed.

Lemma div_mirror x x' dz : mirror x x' -> mirror (x / dz) (x' / dz).
Proof.
  rewrite !mirror_spec, !div_spec. unfold SF64div.
  intros [->|[-> Z]]; [left; apply SFdiv_opp_l|right].
  split; [reflexivity|].
  destruct (Prim2SF x); try contradiction; now destruct (Prim2SF dz).
Qed.

Lemma div_opp_mirror x dz : mirror (x / dz) (x / - dz).
Proof.
  rewrite mirror_spec, !div_spec, opp_spec. left. apply SFdiv_opp_r.
Qed.

Lemma mul_mirror x x' c : mirror x x' -> mirror (x * c) (x' * c).
Proof.
  rewrite !mirror_spec, !mul_spec. unfold SF64mul.
  intros [->|[-> Z]]; [left; apply SFmul_opp_l|right].
  split; [reflexivity|].
  destruct (Prim2SF x); try contradiction; now destruct (Prim2SF c).
Qed.

Lemma mirror_nan : mirror nan nan.
Proof. right. now split. Qed.

Lemma mirror_refl_zero x : (x =? 0) = true -> mirror x x.
Proof. intros H. right. split; [reflexivity|]. now rewrite H. Qed.

(** The difference of two mirrored pairs is a NaN on both sides or on
    none. *)
Lemma sub_mirror_nan p p' q q' :
  mirror p p' -> mirror q q' -> is_nan (p' - q') = is_nan (p - q).
Proof.
  rewrite !mirror_spec, !is_nan_spec, !sub_spec. unfold SF64sub, sf_mirror.
  assert (N : forall x y sx mx ex sy my ey,
    x = S754_finite sx mx ex -> y = S754_finite sy my ey ->
    sf_is_nan (SFsub prec emax x y) = false).
  { intros x y sx mx ex sy my ey -> ->. apply binary_normalize_not_nan. }
  intros [->|[-> Zp]] [->|[-> Zq]];
    destruct (Prim2SF p) as [[|]|[|]| |sp mp ep] eqn:Ep;
    destruct (Prim2SF q) as [[|]|[|]| |sq mq eq] eqn:Eq;
    try contradiction; try reflexivity;
    cbn [SFopp]; erewrite !N; reflexivity.
Qed.

Lemma abs_mirror x x' : mirror x x' -> abs x' = abs x.
Proof.
  rewrite mirror_spec. intros H. apply Prim2SF_inj. rewrite !abs_spec.
  destruct H as [->|[-> _]]; [|reflexivity]. now destruct (Prim2SF x).
Qed.

Lemma mul_self_abs x x' : abs x' = abs x -> x' * x' = x * x.
Proof.
  intros H. apply (f_equal Prim2SF) in H. rewrite !abs_spec in H.
  apply Prim2SF_inj. rewrite !mul_spec. unfold SF64mul, SFmul.
  destruct (Prim2SF x) as [[|]|[|]| |[|] m e];
    destruct (Prim2SF x') as [[|]|[|]| |[|] m' e'];
    try discriminate; try reflexivity; injection H as -> ->; reflexivity.
Qed.

Lemma is_infinity_abs x x' : abs x' = abs x -> is_infinity x' = is_infinity x.
Proof. unfold is_infinity. now intros ->. Qed.

Lemma eqb_zero_opp x : (- x =? 0) = (x =? 0).
Proof.
  rewrite !FloatZero.eqb_zero_spec, opp_spec. now destruct (Prim2SF x).
Qed.

Lemma SFmul_opp_r x y :
  SFmul prec emax x (SFopp y) = SFopp (SFmul prec emax x y).
Proof.
  destruct x as [sx|sx| |sx mx ex], y as [sy|sy| |sy my ey]; simpl;
    rewrite ?xorb_negb_r; try reflexivity.
  apply binary_round_aux_opp.
Qed.

Lemma mul_opp_mirror x c : mirror (x * c) (x * - c).
Proof.
  rewrite mirror_spec, !mul_spec, opp_spec. left.
  apply SFmul_opp_r.
Qed.

End FloatMirror.

(** The magnitude [rt (sq1 x + sq2 y)] of two gradients, for any squares
    and any root with the special values of C99: the correctly rounded ones
    of the array path and those of [pow]. *)
Module FloatMagnitude.

Import FloatFacts FloatArith.
Local Open Scope float_scope.

Lemma add_nan_l x y : is_nan x = true -> is_nan (x + y) = true.
Proof.
  rewrite !is_nan_spec, add_spec. unfold SF64add, SFadd.
  destruct (Prim2SF x); try discriminate. now destruct (Prim2SF y).
Qed.

Lemma add_nan_r x y : is_nan y = true -> is_nan (x + y) = true.
Proof.
  rewrite !is_nan_spec, add_spec. unfold SF64add, SFadd.
  destruct (Prim2SF y); try discriminate. now destruct (Prim2SF x).
Qed.

Lemma nan_signed x : is_nan x = true -> sf_signed false (Prim2SF x) = true.
Proof. rewrite is_nan_spec. now destruct (Prim2SF x). Qed.

(** The correctly rounded square and square root have these values. *)
Lemma squaring_mul : squaring (fun x => x * x).
Proof.
  split.
  - intros x. destruct (is_nan x) eqn:E.
    + now apply mul_nan_l.
    + now apply mul_self_not_nan.
  - apply mul_self_signed.
  - intros x. rewrite FloatZero.eqb_zero_spec. intros H. apply Prim2SF_inj.
    rewrite mul_spec. now destruct (Prim2SF x) as [[|]|[|]| |s m e].
  - intros x H. apply is_infinity_cases in H. now destruct H; subst.
Qed.

Lemma rooting_sqrt : rooting sqrt.
Proof.
  split; [|reflexivity|reflexivity].
  intros x S. destruct (is_nan x) eqn:E.
  - apply is_nan_eq in E. now subst.
  - now apply sqrt_not_nan.
Qed.

Section Magnitude.

Variables sq1 sq2 rt : float -> float.
Hypothesis S1 : squaring sq1.
Hypothesis S2 : squaring sq2.
Hypothesis R : rooting rt.

Lemma sum_signed x y : sf_signed false (Prim2SF (sq1 x + sq2 y)) = true.
Proof. apply add_signed; [apply (sq_sign _ S1)|apply (sq_sign _ S2)]. Qed.

(** A sum of two squares is never below zero: the base of [** 0.5] on
    lines 90 and 155 is not negative. *)
Lemma sum_of_squares_not_negative x y : (sq1 x + sq2 y <? 0) = false.
Proof.
  pose proof (sum_signed x y) as H.
  rewrite ltb_spec. change (Prim2SF 0) with (S754_zero false).
  destruct (Prim2SF (sq1 x + sq2 y)) as [[|]|[|]| |[|] m e];
    try discriminate; reflexivity.
Qed.

(** The magnitude of two gradients that are not NaN is not a NaN. *)
Lemma magnitude_not_nan x y :
  is_nan x = false -> is_nan y = false ->
  is_nan (rt (sq1 x + sq2 y)) = false.
Proof.
  intros Hx Hy. rewrite (rt_nan _ R) by apply sum_signed.
  apply add_not_nan.
  - apply (sq_sign _ S1).
  - apply (sq_sign _ S2).
  - now rewrite (sq_nan _ S1).
  - now rewrite (sq_nan _ S2).
Qed.

(** The magnitude at a position where a gradient is infinite. *)
Lemma magnitude_infinite x y :
  is_infinity x || is_infinity y = true ->
  is_nan (rt (sq1 x + sq2 y)) = false ->
  rt (sq1 x + sq2 y) = infinity.
Proof.
  intros Hxy Hn. rewrite (rt_nan _ R) in Hn by apply sum_signed.
  assert (E : sq1 x + sq2 y = infinity).
  { apply orb_true_iff in Hxy. destruct Hxy as [H|H].
    - rewrite (sq_inf _ S1 x H) in *. now apply add_infinity_l.
    - rewrite (sq_inf _ S2 y H) in *. now apply add_infinity_r. }
  rewrite E. apply (rt_inf _ R).
Qed.

(** A NaN gradient gives a NaN magnitude. *)
Lemma magnitude_nan_l x y :
  is_nan x = true -> is_nan (rt (sq1 x + sq2 y)) = true.
Proof.
  intros H. rewrite (rt_nan _ R) by apply sum_signed.
  apply add_nan_l. now rewrite (sq_nan _ S1).
Qed.

Lemma magnitude_nan_r x y :
  is_nan y = true -> is_nan (rt (sq1 x + sq2 y)) = true.
Proof.
  intros H. rewrite (rt_nan _ R) by apply sum_signed.
  apply add_nan_r. now rewrite (sq_nan _ S2).
Qed.

(** Two zero gradients give the magnitude [+0]. *)
Lemma magnitude_zero x y :
  (x =? 0) = true -> (y =? 0) = true -> rt (sq1 x + sq2 y) = 0.
Proof.
  intros Hx Hy. rewrite (sq_zero _ S1 x Hx), (sq_zero _ S2 y Hy).
  change (0 + 0) with 0. apply (rt_zero _ R).
Qed.

Lemma square_degenerate sq x :
  squaring sq -> degenerate x = true ->
  sq x = 0 \/ sq x = infinity \/ is_nan (sq x) = true.
Proof.
  intros S H. unfold degenerate in H.
  apply orb_true_iff in H. destruct H as [H|H];
    [apply orb_true_iff in H; destruct H as [H|H]|].
  - left. now apply (sq_zero _ S).
  - right. right. now rewrite (sq_nan _ S).
  - right. left. now apply (sq_inf _ S).
Qed.

(** Two gradients that are a zero, an infinity or a NaN give such a
    magnitude. *)
Lemma magnitude_degenerate x y :
  degenerate x = true -> degenerate y = true ->
  degenerate (rt (sq1 x + sq2 y)) = true.
Proof.
  intros Hx Hy.
  assert (N : forall w, is_nan w = true -> degenerate (rt w) = true).
  { intros w H. unfold degenerate.
    rewrite (rt_nan _ R) by now apply nan_signed.
    rewrite H. now rewrite orb_true_r. }
  destruct (square_degenerate sq1 x S1 Hx) as [E1|[E1|E1]];
    destruct (square_degenerate sq2 y S2 Hy) as [E2|[E2|E2]];
    try (apply N; now apply add_nan_l);
    try (apply N; now apply add_nan_r);
    rewrite E1, E2.
  - change (0 + 0) with 0. now rewrite (rt_zero _ R).
  - change (0 + infinity) with infinity. now rewrite (rt_inf _ R).
  - change (infinity + 0) with infinity. now rewrite (rt_inf _ R).
  - change (infinity + infinity) with infinity. now rewrite (rt_inf _ R).
Qed.

End Magnitude.

End FloatMagnitude.

(* ================================================================== *)
(** * The power functions                                              *)
(* ================================================================== *)

(** From here on [pow] is any function.  The two properties of it that some
    of the results below need are named where they are used: [c99] in the
    results on NaN, infinities and zeros, [even] in those on the
    orientation. *)
Section Properties.

Context {libm : Libm}.

Hypothesis c99 : c99_pow libm_pow.
Hypothesis even : pow_even libm_pow.

Lemma power_2_squaring sh : squaring (power_2 sh).
Proof.
  destruct sh; [apply c99|apply FloatMagnitude.squaring_mul].
Qed.

Lemma power_half_rooting sh : rooting (power_half sh).
Proof.
  destruct sh; [apply c99|apply FloatMagnitude.rooting_sqrt].
Qed.

Lemma power_2_nan sh : power_2 sh nan = nan.
Proof.
  apply FloatFacts.is_nan_eq. now rewrite (sq_nan _ (power_2_squaring sh)).
Qed.

Lemma power_half_nan sh : power_half sh nan = nan.
Proof.
  apply FloatFacts.is_nan_eq.
  now rewrite (rt_nan _ (power_half_rooting sh)).
Qed.

Lemma power_2_even sh x : power_2 sh (- x) = power_2 sh x.
Proof.
  destruct sh; [apply even|]. simpl.
  apply FloatMirror.mul_self_abs. apply Prim2SF_inj.
  rewrite !abs_spec, opp_spec. now destruct (Prim2SF x).
Qed.

(** The magnitude computed with the powers of any three shapes. *)
Section Powers.

Variables s1 s2 s3 : list nat.

Let mag (x y : float) : float :=
  power_half s3 (power_2 s1 x + power_2 s2 y)%float.

Lemma powers_not_negative x y :
  (power_2 s1 x + power_2 s2 y <? 0)%float = false.
Proof.
  apply FloatMagnitude.sum_of_squares_not_negative; apply power_2_squaring.
Qed.

Lemma powers_not_nan x y :
  is_nan x = false -> is_nan y = false -> is_nan (mag x y) = false.
Proof.
  apply FloatMagnitude.magnitude_not_nan;
    first [apply power_2_squaring|apply power_half_rooting].
Qed.

Lemma powers_infinite x y :
  is_infinity x || is_infinity y = true -> is_nan (mag x y) = false ->
  mag x y = infinity.
Proof.
  apply FloatMagnitude.magnitude_infinite;
    first [apply power_2_squaring|apply power_half_rooting].
Qed.

Lemma powers_nan_l x y : is_nan x = true -> is_nan (mag x y) = true.
Proof.
  apply FloatMagnitude.magnitude_nan_l;
    first [apply power_2_squaring|apply power_half_rooting].
Qed.

Lemma powers_nan_r x y : is_nan y = true -> is_nan (mag x y) = true.
Proof.
  apply FloatMagnitude.magnitude_nan_r;
    first [apply power_2_squaring|apply power_half_rooting].
Qed.

Lemma powers_zero x y :
  (x =? 0)%float = true -> (y =? 0)%float = true -> mag x y = 0%float.
Proof.
  apply FloatMagnitude.magnitude_zero;
    first [apply power_2_squaring|apply power_half_rooting].
Qed.

Lemma powers_degenerate x y :
  degenerate x = true -> degenerate y = true -> degenerate (mag x y) = true.
Proof.
  apply FloatMagnitude.magnitude_degenerate;
    first [apply power_2_squaring|apply power_half_rooting].
Qed.

End Powers.

(* ================================================================== *)
(** * Computations that print nothing                                  *)
(* ================================================================== *)

Lemma silent_ret {A : Type} (a : A) : silent (ret a).
Proof. intros out. reflexivity. Qed.

Lemma silent_raise {A : Type} (e : exn) : silent (@raise A e).
Proof. intros out. reflexivity. Qed.

Lemma silent_bind {A B : Type} (m : Py A) (k : A -> Py B) :
  silent m -> (forall a, silent (k a)) -> silent (bind m k).
Proof.
  intros Hm Hk out. unfold result, run, bind.
  rewrite (Hm out), (Hm []). destruct (result m) as [e|a]; [reflexivity|].
  rewrite (Hk a out), (Hk a []). reflexivity.
Qed.

Lemma bind_silent {A B : Type} (m : Py A) (k : A -> Py B) out :
  silent m ->
  bind m k out =
  match result m with inl e => (inl e, out) | inr a => k a out end.
Proof. intros Hm. unfold bind. rewrite (Hm out). reflexivity. Qed.

Lemma result_bind {A B : Type} (m : Py A) (k : A -> Py B) :
  silent m ->
  result (bind m k) =
  match result m with inl e => inl e | inr a => result (k a) end.
Proof.
  intros Hm. unfold result at 1. unfold run. rewrite bind_silent by assumption.
  destruct (result m); reflexivity.
Qed.

Lemma result_ret {A : Type} (a : A) : result (ret a) = inr a.
Proof. reflexivity. Qed.

Create HintDb silent.
#[local] Hint Resolve silent_ret silent_raise silent_bind : silent.

Lemma silent_ufunc2 f a b : silent (ufunc2 f a b).
Proof. unfold ufunc2. destruct broadcast_shapes; auto with silent. Qed.
#[local] Hint Resolve silent_ufunc2 : silent.

Lemma silent_binop py np a b :
  (forall x y, silent (py x y)) -> silent (binop py np a b).
Proof. intros H. destruct a, b; simpl; auto with silent. Qed.

Lemma silent_py_add a b : silent (py_add a b).
Proof. apply silent_binop; auto with silent. Qed.

Lemma silent_py_sub a b : silent (py_sub a b).
Proof. apply silent_binop; auto with silent. Qed.

Lemma silent_py_mul a b : silent (py_mul a b).
Proof. apply silent_binop; auto with silent. Qed.

Lemma silent_py_truediv a b : silent (py_truediv a b).
Proof.
  apply silent_binop. intros x y. destruct (y =? 0)%float; auto with silent.
Qed.

Lemma silent_py_pow_2 a : silent (py_pow_2 a).
Proof.
  destruct a; simpl; auto with silent. unfold float_pow_2.
  destruct (overflow _ _); auto with silent.
Qed.

Lemma silent_py_pow_half a : silent (py_pow_half a).
Proof.
  destruct a; simpl; auto with silent. unfold float_pow_half.
  destruct (overflow _ _); auto with silent.
Qed.

Lemma silent_reduce f xs : silent (reduce f xs).
Proof. destruct xs; simpl; auto with silent. Qed.

Lemma silent_np_max v : silent (np_max v).
Proof. apply silent_reduce. Qed.

Lemma silent_np_min a : silent (np_min a).
Proof. apply silent_reduce. Qed.

Lemma silent_np_argmin a : silent (np_argmin a).
Proof. unfold np_argmin. destruct (data a); auto with silent. Qed.

Lemma silent_getitem xs i : silent (getitem xs i).
Proof. unfold getitem. destruct nth_error; auto with silent. Qed.

Lemma silent_get_shape v : silent (get_shape v).
Proof. destruct v; simpl; auto with silent. Qed.

Lemma silent_np_where mask x y : silent (np_where mask x y).
Proof. unfold np_where. destruct broadcast_shapes; auto with silent. Qed.

#[local] Hint Resolve silent_py_add silent_py_sub silent_py_mul
  silent_py_truediv silent_py_pow_2 silent_py_pow_half silent_np_max
  silent_np_min silent_np_argmin silent_getitem silent_get_shape
  silent_np_where : silent.

Lemma silent_gradient top btm dz : silent (gradient top btm dz).
Proof. unfold gradient. auto with silent. Qed.

Lemma silent_magnitude du dv : silent (magnitude du dv).
Proof. unfold magnitude. auto 10 with silent. Qed.

Lemma silent_normal_gradient du dv c s : silent (normal_gradient du dv c s).
Proof. unfold normal_gradient. auto 10 with silent. Qed.

Lemma silent_select_shear m : silent (select_shear m).
Proof. unfold select_shear. auto with silent. Qed.

#[local] Hint Resolve silent_gradient silent_magnitude silent_normal_gradient
  silent_select_shear : silent.

(* ================================================================== *)
(** * The arg-min scan                                                 *)
(* ================================================================== *)

Section Argmin.

Import FloatFacts.
Local Open Scope float_scope.

(** Nothing changes while every element is at least the running minimum. *)
Lemma argmin_from_keep ys : forall mp m i,
  Forall (fun y => (mp <=? y) = true) ys -> argmin_from mp m i ys = m.
Proof.
  induction ys as [|y ys IH]; intros mp m i H; [reflexivity|].
  inversion H; subst. simpl. rewrite H2. simpl. now apply IH.
Qed.

(** What follows a scanned prefix is ignored when each later element is
    matched by the running minimum or by an element of the prefix. *)
Lemma argmin_from_app xs : forall mp m i ys,
  is_nan mp = false ->
  (forall y, In y ys ->
     (mp <=? y) = true \/
     exists x, In x xs /\ ((x <=? y) = true \/ is_nan x = true)) ->
  argmin_from mp m i (xs ++ ys) = argmin_from mp m i xs.
Proof.
  induction xs as [|x xs IH]; intros mp m i ys Hmp H.
  - simpl. apply argmin_from_keep. apply Forall_forall. intros y Hy.
    destruct (H y Hy) as [?|[x [[] _]]]. assumption.
  - simpl. destruct (mp <=? x) eqn:Hle; simpl.
    + apply IH; [assumption|]. intros y Hy.
      destruct (H y Hy) as [?|[x0 [[->|Hin] Hx0]]]; auto.
      * destruct Hx0 as [Hx0|Hx0].
        -- left. eapply leb_trans; eauto.
        -- apply leb_not_nan in Hle. destruct Hle. congruence.
      * right. eauto.
    + destruct (is_nan x) eqn:Hx; [reflexivity|].
      apply IH; [assumption|]. intros y Hy.
      destruct (H y Hy) as [Hy'|[x0 [[->|Hin] Hx0]]].
      * left. eapply leb_trans; [|exact Hy']. now apply leb_total.
      * destruct Hx0 as [Hx0|Hx0]; [auto|congruence].
      * right. eauto.
Qed.

Lemma argmin_from_range xs : forall mp m i,
  argmin_from mp m i xs = m \/
  (i <= argmin_from mp m i xs < i + length xs)%nat.
Proof.
  induction xs as [|x xs IH]; intros mp m i; [now left|].
  simpl. destruct (negb (mp <=? x)).
  - destruct (is_nan x); [right; lia|].
    destruct (IH x i (S i)) as [->|?]; right; lia.
  - destruct (IH mp m (S i)) as [->|?]; [now left|right; lia].
Qed.

Lemma argmin_lt xs : xs <> [] -> (argmin xs < length xs)%nat.
Proof.
  destruct xs as [|x xs]; [congruence|]. intros _. simpl.
  destruct (is_nan x); [lia|].
  destruct (argmin_from_range xs x 0%nat 1%nat) as [->|?]; lia.
Qed.

(** The flattened arg-min of identical rows is the arg-min of one row. *)
Lemma argmin_rows d : argmin (d ++ d ++ d) = argmin d.
Proof.
  destruct d as [|x xs]; [reflexivity|]. simpl.
  destruct (is_nan x) eqn:Hx; [reflexivity|].
  apply argmin_from_app; [assumption|].
  intros y Hy.
  assert (Hin : In y (x :: xs)).
  { change (In y ((x :: xs) ++ (x :: xs))) in Hy.
    apply in_app_or in Hy. destruct Hy; assumption. }
  destruct Hin as [<-|Hin].
  - left. now apply leb_refl.
  - right. exists y. split; [assumption|].
    destruct (is_nan y) eqn:E; [now right|left; now apply leb_refl].
Qed.

End Argmin.

(** The three rows the loop of lines 98-99 and 163-164 collects. *)
Lemma shear_distance_rows (m : float) :
  fold_left
    (fun acc (shear : float) => acc ++ [abs_distance shear_options m])
    shear_options [] =
  [abs_distance shear_options m; abs_distance shear_options m;
   abs_distance shear_options m].
Proof. reflexivity. Qed.

Lemma closest_In (m : float) : In (closest m) shear_options.
Proof.
  unfold closest. apply nth_In.
  assert (H := argmin_lt (abs_distance shear_options m)).
  simpl length in *. apply H. discriminate.
Qed.

Lemma getitem_closest (m : float) :
  getitem shear_options (argmin (abs_distance shear_options m)) = ret (closest m).
Proof.
  unfold getitem, closest.
  assert (H : argmin (abs_distance shear_options m) < length shear_options).
  { apply (argmin_lt (abs_distance shear_options m)). discriminate. }
  destruct (nth_error shear_options _) eqn:E.
  - now rewrite (nth_error_nth _ _ _ E).
  - apply nth_error_None in E. lia.
Qed.

Lemma bind_ret {A B : Type} (a : A) (k : A -> Py B) : bind (ret a) k = k a.
Proof. reflexivity. Qed.

Lemma select_shear_single_closest (m : float) :
  select_shear_single m = ret (closest m).
Proof.
  unfold select_shear_single.
  change (np_argmin (mk_nd [3] (abs_distance shear_options m)))
    with (ret (A := nat) (argmin (abs_distance shear_options m))).
  rewrite bind_ret. apply getitem_closest.
Qed.

Lemma select_shear_closest (m : float) : select_shear m = ret (closest m).
Proof.
  unfold select_shear. rewrite shear_distance_rows.
  change (np_argmin (np_array_2d [abs_distance shear_options m;
             abs_distance shear_options m; abs_distance shear_options m]))
    with (ret (A := nat)
            (argmin (abs_distance shear_options m ++
                     abs_distance shear_options m ++
                     abs_distance shear_options m ++ []))).
  rewrite app_nil_r, argmin_rows, bind_ret. apply getitem_closest.
Qed.

(* ================================================================== *)
(** * Shapes                                                           *)
(* ================================================================== *)

Ltac eqb_cases :=
  repeat match goal with
  | |- context [?a =? ?b] => destruct (Nat.eqb_spec a b); cbv iota; subst
  | H : context [?a =? ?b] |- _ => destruct (Nat.eqb_spec a b); cbv iota in H; subst
  end.

Lemma broadcast_dim_refl d : broadcast_dim d d = Some d.
Proof. unfold broadcast_dim. now rewrite Nat.eqb_refl. Qed.

Lemma broadcast_dim_comm d e : broadcast_dim d e = broadcast_dim e d.
Proof. unfold broadcast_dim. eqb_cases; congruence. Qed.

Lemma broadcast_dim_assoc d e f :
  match broadcast_dim d e with Some x => broadcast_dim x f | None => None end =
  match broadcast_dim e f with Some y => broadcast_dim d y | None => None end.
Proof.
  unfold broadcast_dim.
  destruct (Nat.eqb_spec d e), (Nat.eqb_spec e f), (Nat.eqb_spec d 1),
    (Nat.eqb_spec e 1), (Nat.eqb_spec f 1); subst; cbv iota;
    eqb_cases; try reflexivity; try congruence; try lia.
Qed.

Lemma broadcast_dim_zero d e x :
  broadcast_dim d e = Some x -> (x = 0 <-> d = 0 \/ e = 0).
Proof. unfold broadcast_dim. eqb_cases; intros [= <-]; lia. Qed.

Lemma broadcast_rev_nil_r s : broadcast_rev s [] = Some s.
Proof. now destruct s. Qed.

Lemma broadcast_rev_refl s : broadcast_rev s s = Some s.
Proof.
  induction s as [|d s IH]; [reflexivity|].
  simpl. now rewrite broadcast_dim_refl, IH.
Qed.

Lemma broadcast_rev_comm a : forall b, broadcast_rev a b = broadcast_rev b a.
Proof.
  induction a as [|d a IH]; intros [|e b]; try reflexivity.
  simpl. now rewrite broadcast_dim_comm, IH.
Qed.

Lemma broadcast_rev_assoc a : forall b c,
  match broadcast_rev a b with Some x => broadcast_rev x c | None => None end =
  match broadcast_rev b c with Some y => broadcast_rev a y | None => None end.
Proof.
  induction a as [|d a IH]; intros b c.
  - simpl. now destruct (broadcast_rev b c).
  - destruct b as [|e b]; [reflexivity|].
    destruct c as [|f c].
    + rewrite !broadcast_rev_nil_r.
      destruct (broadcast_rev (d :: a) (e :: b)); [apply broadcast_rev_nil_r|reflexivity].
    + simpl. specialize (IH b c). pose proof (broadcast_dim_assoc d e f) as Hd.
      destruct (broadcast_dim d e) as [de|], (broadcast_dim e f) as [ef|],
        (broadcast_rev a b) as [ab|], (broadcast_rev b c) as [bc|]; simpl;
        try rewrite Hd; try rewrite <- Hd; try rewrite IH; try rewrite <- IH;
        try reflexivity;
        repeat match goal with
        | |- context [match ?o with Some _ => _ | None => _ end] => destruct o
        end; reflexivity.
Qed.

Lemma broadcast_shapes_refl s : broadcast_shapes s s = Some s.
Proof.
  unfold broadcast_shapes. rewrite broadcast_rev_refl. simpl.
  now rewrite rev_involutive.
Qed.

Lemma broadcast_shapes_nil_r s : broadcast_shapes s [] = Some s.
Proof.
  unfold broadcast_shapes. simpl. rewrite broadcast_rev_nil_r. simpl.
  now rewrite rev_involutive.
Qed.

Lemma broadcast_shapes_nil_l s : broadcast_shapes [] s = Some s.
Proof. unfold broadcast_shapes. simpl. now rewrite rev_involutive. Qed.

Lemma broadcast_opt_comm x y : broadcast_opt x y = broadcast_opt y x.
Proof.
  destruct x as [a|], y as [b|]; try reflexivity.
  simpl. unfold broadcast_shapes. now rewrite broadcast_rev_comm.
Qed.

Lemma broadcast_opt_assoc x y z :
  broadcast_opt (broadcast_opt x y) z = broadcast_opt x (broadcast_opt y z).
Proof.
  destruct x as [a|], y as [b|], z as [c|]; try reflexivity.
  - unfold broadcast_opt, broadcast_shapes.
    pose proof (broadcast_rev_assoc (rev a) (rev b) (rev c)) as H.
    destruct (broadcast_rev (rev a) (rev b)) as [ab|],
      (broadcast_rev (rev b) (rev c)) as [bc|]; cbn [option_map];
      rewrite ?rev_involutive; first [now rewrite H | now rewrite <- H | reflexivity].
  - unfold broadcast_opt. now destruct (broadcast_shapes a b).
Qed.

Lemma size_app a b : size (a ++ b) = size a * size b.
Proof.
  induction a as [|d a IH]; simpl; [lia|]. fold (size (a ++ b)) (size a).
  rewrite IH. lia.
Qed.

Lemma size_rev s : size (rev s) = size s.
Proof.
  induction s as [|d s IH]; [reflexivity|].
  simpl rev. rewrite size_app, IH. simpl. fold (size s). lia.
Qed.

Lemma broadcast_rev_zero a : forall b s,
  broadcast_rev a b = Some s -> (size s = 0 <-> size a = 0 \/ size b = 0).
Proof.
  induction a as [|d a IH]; intros b s H.
  - simpl in H. injection H as <-. simpl. lia.
  - destruct b as [|e b].
    + simpl in H. injection H as <-. simpl. lia.
    + simpl in H.
      destruct (broadcast_dim d e) as [x|] eqn:Hx; [|discriminate].
      destruct (broadcast_rev a b) as [r|] eqn:Hr; [|discriminate].
      injection H as <-. apply broadcast_dim_zero in Hx. apply IH in Hr.
      simpl. fold (size r) (size a) (size b).
      rewrite !Nat.eq_mul_0. tauto.
Qed.

Lemma broadcast_shapes_zero a b s :
  broadcast_shapes a b = Some s -> (size s = 0 <-> size a = 0 \/ size b = 0).
Proof.
  unfold broadcast_shapes. intros H.
  destruct (broadcast_rev (rev a) (rev b)) as [r|] eqn:Hr; [|discriminate].
  injection H as <-. apply broadcast_rev_zero in Hr.
  now rewrite !size_rev in *.
Qed.

Lemma pad_same sh : pad (length sh) sh = sh.
Proof. unfold pad. now rewrite Nat.sub_diag. Qed.

Lemma dot_strides_lt sh k : size sh <> 0 -> dot (unravel sh k) (strides sh) < size sh.
Proof.
  induction sh as [|d r IH]; intros H; [unfold dot; simpl; lia|].
  simpl in H. fold (size r) in H.
  assert (Hd : d <> 0) by (intros ->; now apply H).
  assert (Hr : size r <> 0) by (intros E; apply H; rewrite E; lia).
  specialize (IH Hr). unfold dot in *. simpl. fold (size r).
  pose proof (Nat.mod_upper_bound (k / size r) d Hd) as Hm.
  destruct (d =? 1); nia.
Qed.

Lemma offset_same_lt sh k : size sh <> 0 -> offset sh sh k < size sh.
Proof. intros H. unfold offset. rewrite pad_same. now apply dot_strides_lt. Qed.

Lemma combine_map {A B C : Type} (f : A -> B) (g : A -> C) l :
  combine (map f l) (map g l) = map (fun k => (f k, g k)) l.
Proof. induction l; simpl; congruence. Qed.

Lemma length_broadcast_to {A : Type} (d : A) a sh :
  length (broadcast_to d a sh) = size sh.
Proof. unfold broadcast_to. now rewrite length_map, length_seq. Qed.

Lemma Forall2_rev {A B : Type} (R : A -> B -> Prop) l1 l2 :
  Forall2 R l1 l2 -> Forall2 R (rev l1) (rev l2).
Proof.
  induction 1 as [|x y l1 l2 Hxy H IH]; [constructor|].
  simpl. apply Forall2_app; [assumption|]. now repeat constructor.
Qed.

Lemma fits_ones t : fits (repeat 1 (length t)) t.
Proof. induction t as [|e t IH]; simpl; constructor; auto. Qed.

Lemma fits_refl t : fits t t.
Proof. induction t as [|e t IH]; constructor; auto. Qed.

Lemma broadcast_dim_fits d e x :
  broadcast_dim d e = Some x -> (d = x \/ d = 1) /\ (e = x \/ e = 1).
Proof. unfold broadcast_dim. eqb_cases; intros [= <-]; auto. Qed.

Lemma broadcast_rev_fits a : forall b r,
  broadcast_rev a b = Some r ->
  fits (a ++ repeat 1 (length r - length a)) r /\
  fits (b ++ repeat 1 (length r - length b)) r.
Proof.
  induction a as [|d a IH]; intros b r H.
  - simpl in H. injection H as <-. simpl.
    rewrite ?Nat.sub_0_r, ?Nat.sub_diag, ?app_nil_r.
    split; [apply fits_ones|apply fits_refl].
  - destruct b as [|e b].
    + simpl in H. injection H as <-. rewrite Nat.sub_diag, app_nil_r.
      simpl app. rewrite ?Nat.sub_0_r.
      split; [apply fits_refl|apply (fits_ones (d :: a))].
    + simpl in H.
      destruct (broadcast_dim d e) as [x|] eqn:Hx; [|discriminate].
      destruct (broadcast_rev a b) as [r'|] eqn:Hr; [|discriminate].
      injection H as <-. apply broadcast_dim_fits in Hx. apply IH in Hr.
      destruct Hx, Hr. simpl. split; constructor; assumption.
Qed.

(** The padded shape of each operand fits the broadcast shape. *)
Lemma broadcast_shapes_fits a b t :
  broadcast_shapes a b = Some t ->
  fits (pad (length t) a) t /\ fits (pad (length t) b) t.
Proof.
  unfold broadcast_shapes. intros H.
  destruct (broadcast_rev (rev a) (rev b)) as [r|] eqn:Hr; [|discriminate].
  injection H as <-. apply broadcast_rev_fits in Hr. destruct Hr as [H1 H2].
  apply Forall2_rev in H1, H2.
  rewrite rev_app_distr, rev_repeat, rev_involutive, !length_rev in H1, H2.
  unfold pad. rewrite length_rev. now split.
Qed.

Lemma size_pad n s : size (pad n s) = size s.
Proof.
  unfold pad. rewrite size_app.
  assert (H : forall k, size (repeat 1 k) = 1).
  { induction k as [|k IH]; simpl; [reflexivity|]. fold (size (repeat 1 k)).
    rewrite IH. reflexivity. }
  rewrite H. lia.
Qed.

Lemma unravel_add t : forall q k, unravel t (q * size t + k) = unravel t k.
Proof.
  induction t as [|e t IH]; intros q k; [reflexivity|].
  simpl. fold (size t). f_equal.
  - destruct (Nat.eq_dec (size t) 0) as [Z|Z].
    + now rewrite Z.
    + replace (q * (e * size t) + k) with ((q * e) * size t + k) by lia.
      rewrite Nat.div_add_l by assumption.
      rewrite Nat.add_comm. apply Nat.Div0.mod_add.
  - replace (q * (e * size t) + k) with ((q * e) * size t + k) by lia.
    apply IH.
Qed.

(** Every flat position of the operand is the offset of some position of
    the result. *)
Lemma dot_strides_onto p t :
  fits p t -> size t <> 0 -> forall j, j < size p ->
  exists k, k < size t /\ dot (unravel t k) (strides p) = j.
Proof.
  induction 1 as [|d e p t Hde Hfit IH]; intros Hz j Hj.
  - exists 0. simpl in *. split; [lia|]. unfold dot. simpl. lia.
  - simpl in Hz, Hj. fold (size t) in Hz. fold (size p) in Hj.
    assert (He : e <> 0) by (intros ->; now apply Hz).
    assert (Ht : size t <> 0) by (intros E; apply Hz; rewrite E; lia).
    assert (Hp : size p <> 0) by (intros E; rewrite E in Hj; lia).
    destruct (IH Ht (j mod size p)) as (k1 & Hk1 & E1).
    { now apply Nat.mod_upper_bound. }
    simpl unravel. simpl strides. fold (size t) (size p).
    destruct (Nat.eqb_spec d 1) as [D|D].
    + exists k1. split; [simpl; fold (size t); nia|].
      unfold dot in *. simpl. rewrite E1.
      subst d. rewrite Nat.mul_1_l in Hj.
      rewrite (Nat.mod_small j (size p)) by assumption. lia.
    + assert (d = e) by (destruct Hde; congruence). subst e.
      exists (j / size p * size t + k1).
      assert (Hq : j / size p < d).
      { apply Nat.Div0.div_lt_upper_bound. lia. }
      split; [simpl; fold (size t); nia|].
      unfold dot in *. simpl. rewrite unravel_add, E1.
      rewrite Nat.div_add_l by assumption.
      rewrite (Nat.div_small k1) by assumption. rewrite Nat.add_0_r.
      rewrite (Nat.mod_small (j / size p) d) by assumption.
      pose proof (Nat.div_mod j (size p) Hp). lia.
Qed.

Lemma offset_onto s s' t j :
  (broadcast_shapes s s' = Some t \/ broadcast_shapes s' s = Some t) ->
  size t <> 0 -> j < size s ->
  exists k, k < size t /\ offset s t k = j.
Proof.
  intros H Hz Hj. unfold offset.
  apply dot_strides_onto; [|assumption|now rewrite size_pad].
  destruct H as [H|H]; apply broadcast_shapes_fits in H; tauto.
Qed.

(** The offset read in an operand lies inside it. *)
Lemma dot_strides_in_range p t :
  fits p t -> size t <> 0 -> forall k, dot (unravel t k) (strides p) < size p.
Proof.
  induction 1 as [|d e p t Hde Hfit IH]; intros Hz k.
  - unfold dot. simpl. lia.
  - simpl in Hz. fold (size t) in Hz.
    assert (He : e <> 0) by (intros ->; now apply Hz).
    assert (Ht : size t <> 0) by (intros E; apply Hz; rewrite E; lia).
    specialize (IH Ht k). unfold dot in *. simpl. fold (size t) (size p).
    pose proof (Nat.mod_upper_bound (k / size t) e He) as Hm.
    destruct (Nat.eqb_spec d 1) as [D|D].
    + subst d. lia.
    + assert (d = e) by (destruct Hde; congruence). subst e. nia.
Qed.

Lemma offset_in_range s s' t k :
  (broadcast_shapes s s' = Some t \/ broadcast_shapes s' s = Some t) ->
  size t <> 0 -> offset s t k < size s.
Proof.
  intros H Hz. unfold offset. rewrite <- (size_pad (length t) s).
  apply dot_strides_in_range; [|assumption].
  destruct H as [H|H]; apply broadcast_shapes_fits in H; tauto.
Qed.

(** Under the all-true mask every element is replaced (lines 113-114 and
    178-179). *)
Lemma np_where_full sh c a :
  shape a = sh -> np_where (np_full sh true) c (Nd a) = ret (np_full sh c).
Proof.
  intros Hs. unfold np_where. simpl. rewrite Hs, broadcast_shapes_refl.
  f_equal. unfold np_full. f_equal.
  unfold broadcast_to. rewrite combine_map, map_map. simpl.
  transitivity (map (fun _ : nat => c) (seq 0 (size sh))).
  - apply map_ext_in. intros k Hk.
    destruct (Nat.eq_dec (size sh) 0) as [E|E].
    + rewrite E in Hk. destruct Hk.
    + rewrite nth_repeat_lt; [reflexivity|]. now apply offset_same_lt.
  - now rewrite map_const, length_seq.
Qed.

Lemma fold_minimum_repeat c n : fold_left np_minimum (repeat c n) c = c.
Proof.
  induction n as [|n IH]; [reflexivity|]. simpl.
  replace (np_minimum c c) with c; [assumption|].
  unfold np_minimum. now destruct (_ || _).
Qed.

Lemma np_min_full sh c : size sh <> 0 -> np_min (np_full sh c) = ret c.
Proof.
  intros H. unfold np_min, np_full. simpl.
  destruct (size sh) as [|n]; [congruence|].
  simpl. now rewrite fold_minimum_repeat.
Qed.

(* ================================================================== *)
(** * The functions, step by step                                      *)
(* ================================================================== *)

Lemma bind_assoc {A B C : Type} (m : Py A) (f : A -> Py B) (g : B -> Py C) out :
  bind (bind m f) g out = bind m (fun x => bind (f x) g) out.
Proof. unfold bind. destruct (m out) as [[e|a] out']; reflexivity. Qed.

(** Lines 95-105 and 160-170 inside a function: whatever follows receives
    the closest candidate. *)
Lemma select_then {B : Type} (shear_max : float) (k : float -> Py B) out :
  bind
    (np_argmin
       (np_array_2d
          (fold_left
             (fun acc (shear : float) =>
                acc ++ [abs_distance shear_options shear_max])
             shear_options [])))
    (fun index_min => bind (getitem shear_options index_min) k) out =
  k (closest shear_max) out.
Proof.
  transitivity (bind (select_shear shear_max) k out).
  - unfold select_shear. cbv zeta. symmetry. apply bind_assoc.
  - now rewrite select_shear_closest.
Qed.

Lemma result_gradient top btm dz :
  result (gradient top btm dz) =
  match result (py_sub top btm) with
  | inl e => inl e
  | inr d => result (py_truediv d (PyFloat dz))
  end.
Proof. unfold gradient. now rewrite result_bind by auto with silent. Qed.

Lemma ufunc2_inv f a b r :
  result (ufunc2 f a b) = inr r ->
  broadcast_shapes (shape a) (shape b) = Some (shape r) /\
  length (data r) = size (shape r).
Proof.
  unfold ufunc2. destruct (broadcast_shapes (shape a) (shape b)) as [sh|];
    [|discriminate].
  intros [= <-]. simpl. split; [reflexivity|].
  now rewrite length_map, length_combine, !length_broadcast_to, Nat.min_id.
Qed.

Lemma binop_inv py np a b v :
  result (binop py np a b) = inr v ->
  well_formed v /\
  broadcast_shapes (shape_of a) (shape_of b) = Some (shape_of v) /\
  is_array v = is_array a || is_array b.
Proof.
  assert (G : forall a b, is_array a || is_array b = true ->
    result (r <- ufunc2 np (as_array a) (as_array b) ;; ret (Nd r)) = inr v ->
    well_formed v /\
    broadcast_shapes (shape_of a) (shape_of b) = Some (shape_of v) /\
    is_array v = is_array a || is_array b).
  { intros a' b' Hab. rewrite result_bind by auto with silent.
    destruct (result (ufunc2 np (as_array a') (as_array b'))) as [e|r] eqn:E;
      [discriminate|].
    intros [= <-]. apply ufunc2_inv in E. destruct E as [E1 E2].
    unfold well_formed, shape_of. simpl. rewrite Hab. auto. }
  destruct a as [x|a], b as [y|b];
    [| apply (G (PyFloat x) (Nd b)); reflexivity
     | apply (G (Nd a) (PyFloat y)); reflexivity
     | apply (G (Nd a) (Nd b)); reflexivity].
  simpl binop. unfold result, run, bind. destruct (py x y []) as [[e|r] o]; [discriminate|].
  intros [= <-]. unfold well_formed, shape_of. simpl. auto.
Qed.

Lemma py_pow_2_inv a v :
  result (py_pow_2 a) = inr v ->
  shape_of v = shape_of a /\ is_array v = is_array a /\
  (well_formed a -> well_formed v).
Proof.
  destruct a as [x|a]; simpl.
  - unfold float_pow_2. destruct (overflow _ _); [discriminate|].
    intros [= <-]. auto.
  - intros [= <-]. unfold well_formed, shape_of. simpl.
    now rewrite length_map.
Qed.

Lemma py_pow_half_inv a v :
  result (py_pow_half a) = inr v ->
  shape_of v = shape_of a /\ is_array v = is_array a /\
  (well_formed a -> well_formed v).
Proof.
  destruct a as [x|a]; simpl.
  - unfold float_pow_half. destruct (overflow _ _); [discriminate|].
    intros [= <-]. auto.
  - intros [= <-]. unfold well_formed, shape_of. simpl.
    now rewrite length_map.
Qed.

Lemma gradient_inv top btm dz g :
  result (gradient top btm dz) = inr g ->
  well_formed g /\
  broadcast_shapes (shape_of top) (shape_of btm) = Some (shape_of g) /\
  is_array g = is_array top || is_array btm.
Proof.
  rewrite result_gradient.
  destruct (result (py_sub top btm)) as [e|d] eqn:E; [discriminate|].
  intros H. apply binop_inv in E, H.
  destruct E as (_ & E & Ea), H as (W & H & Ha).
  change (shape_of (PyFloat dz)) with (@nil nat) in H.
  rewrite broadcast_shapes_nil_r in H. injection H as H.
  rewrite <- H, Ha, Ea. simpl. rewrite orb_false_r. auto.
Qed.

Lemma result_magnitude du_dz dv_dz :
  result (magnitude du_dz dv_dz) =
  match result (py_pow_2 du_dz) with
  | inl e => inl e
  | inr du2 =>
      match result (py_pow_2 dv_dz) with
      | inl e => inl e
      | inr dv2 =>
          match result (py_add du2 dv2) with
          | inl e => inl e
          | inr sq => result (py_pow_half sq)
          end
      end
  end.
Proof.
  unfold magnitude. rewrite result_bind by auto with silent.
  destruct (result (py_pow_2 du_dz)); [reflexivity|].
  rewrite result_bind by auto with silent.
  destruct (result (py_pow_2 dv_dz)); [reflexivity|].
  now rewrite result_bind by auto with silent.
Qed.

Lemma magnitude_inv du_dz dv_dz ds_dz :
  result (magnitude du_dz dv_dz) = inr ds_dz ->
  well_formed ds_dz /\
  broadcast_shapes (shape_of du_dz) (shape_of dv_dz) = Some (shape_of ds_dz) /\
  is_array ds_dz = is_array du_dz || is_array dv_dz.
Proof.
  rewrite result_magnitude.
  destruct (result (py_pow_2 du_dz)) as [e|du2] eqn:E1; [discriminate|].
  destruct (result (py_pow_2 dv_dz)) as [e|dv2] eqn:E2; [discriminate|].
  destruct (result (py_add du2 dv2)) as [e|sq] eqn:E3; [discriminate|].
  intros E4. apply py_pow_2_inv in E1, E2. apply binop_inv in E3.
  apply py_pow_half_inv in E4.
  destruct E1 as (S1 & A1 & _), E2 as (S2 & A2 & _), E3 as (W3 & S3 & A3),
    E4 as (S4 & A4 & W4).
  rewrite S4, A4, A3, <- S1, <- S2, <- A1, <- A2. auto.
Qed.

Lemma result_normal_gradient du_dz dv_dz cos_a sin_a :
  result (normal_gradient du_dz dv_dz cos_a sin_a) =
  match result (py_mul dv_dz cos_a) with
  | inl e => inl e
  | inr dv_cos =>
      match result (py_mul du_dz sin_a) with
      | inl e => inl e
      | inr du_sin => result (py_sub dv_cos du_sin)
      end
  end.
Proof.
  unfold normal_gradient. rewrite result_bind by auto with silent.
  destruct (result (py_mul dv_dz cos_a)); [reflexivity|].
  now rewrite result_bind by auto with silent.
Qed.

Lemma normal_gradient_inv du_dz dv_dz cos_a sin_a dsn_dz :
  result (normal_gradient du_dz dv_dz cos_a sin_a) = inr dsn_dz ->
  well_formed dsn_dz /\
  broadcast_opt (broadcast_shapes (shape_of dv_dz) (shape_of cos_a))
    (broadcast_shapes (shape_of du_dz) (shape_of sin_a)) =
  Some (shape_of dsn_dz) /\
  is_array dsn_dz =
  (is_array dv_dz || is_array cos_a) || (is_array du_dz || is_array sin_a).
Proof.
  rewrite result_normal_gradient.
  destruct (result (py_mul dv_dz cos_a)) as [e|dv_cos] eqn:E1; [discriminate|].
  destruct (result (py_mul du_dz sin_a)) as [e|du_sin] eqn:E2; [discriminate|].
  intros E3. apply binop_inv in E1, E2, E3.
  destruct E1 as (_ & S1 & A1), E2 as (_ & S2 & A2), E3 as (W3 & S3 & A3).
  rewrite S1, S2, A3, A1, A2. auto.
Qed.

Lemma np_max_nonempty a m : result (np_max (Nd a)) = inr m -> data a <> [].
Proof. unfold np_max. simpl. destruct (data a); [discriminate|congruence]. Qed.

Lemma well_formed_size a :
  well_formed (Nd a) -> data a <> [] -> size (shape a) <> 0.
Proof.
  unfold well_formed, shape_of. simpl. intros <- H E.
  apply length_zero_iff_nil in E. contradiction.
Qed.

(** Lines 178-186 once the bucket is known. *)
Lemma fill_total a c (nan_present : bool) out :
  size (shape a) <> 0 ->
  (sh <- get_shape (Nd a) ;;
   ds_dz <- np_where (np_full sh true) c (Nd a) ;;
   min_shear <- np_min ds_dz ;;
   (if negb (c =? 2e-3)%float || nan_present
    then print (Shear min_shear) else ret tt) ;;;
   ret (Nd ds_dz)) out =
  (inr (Nd (np_full (shape a) c)),
   out ++ if negb (c =? 2e-3)%float || nan_present then [Shear c] else []).
Proof.
  intros H. simpl get_shape. rewrite bind_ret.
  rewrite np_where_full by reflexivity. rewrite bind_ret.
  rewrite np_min_full by assumption. rewrite bind_ret.
  destruct (negb (c =? 2e-3)%float || nan_present).
  - reflexivity.
  - unfold bind, ret. now rewrite app_nil_r.
Qed.

(** Lines 113-120 once the bucket is known. *)
Lemma fill_normal a c (nan_present : bool) out :
  size (shape a) <> 0 ->
  (sh <- get_shape (Nd a) ;;
   dsn_dz <- np_where (np_full sh true) (- c)%float (Nd a) ;;
   min_shear <- np_min dsn_dz ;;
   (if negb (c =? 2e-3)%float || nan_present
    then print (NORMAL_shear min_shear) else ret tt) ;;;
   ret (Nd dsn_dz)) out =
  (inr (Nd (np_full (shape a) (- c)%float)),
   out ++ if negb (c =? 2e-3)%float || nan_present
          then [NORMAL_shear (- c)%float] else []).
Proof.
  intros H. simpl get_shape. rewrite bind_ret.
  rewrite np_where_full by reflexivity. rewrite bind_ret.
  rewrite np_min_full by assumption. rewrite bind_ret.
  destruct (negb (c =? 2e-3)%float || nan_present).
  - reflexivity.
  - unfold bind, ret. now rewrite app_nil_r.
Qed.

(** One statement of a function body: the bound computation prints
    nothing, so its result decides how both sides go on. *)
Tactic Notation "py_step" "as" ident(x) ident(E) :=
  rewrite bind_silent by auto with silent;
  match goal with
  | |- match result ?m with _ => _ end = _ =>
      destruct (result m) as [?|x] eqn:E; [reflexivity|]
  end.

(** [wind_shear] in one equation: the magnitude array, its maximum, the
    bucket, the filled array and the line printed. *)
Lemma wind_shear_unfold ut ub vt vb dz out :
  wind_shear ut ub vt vb dz out =
  match result (ds_dz_of ut ub vt vb dz) with
  | inl e => (inl e, out)
  | inr ds_dz =>
      match result (np_max ds_dz) with
      | inl e => (inl e, out)
      | inr shear_max =>
          let nan_present := np_isnan_any ds_dz in
          let c := chosen nan_present shear_max in
          match ds_dz with
          | PyFloat _ => (inl AttributeError, out)
          | Nd a =>
              (inr (Nd (np_full (shape a) c)),
               out ++ if negb (c =? 2e-3)%float || nan_present
                      then [Shear c] else [])
          end
      end
  end.
Proof.
  unfold ds_dz_of, wind_shear.
  rewrite result_bind by auto with silent. rewrite result_gradient.
  py_step as du Edu. py_step as du_dz Edu_dz.
  rewrite result_bind by auto with silent. rewrite result_gradient.
  py_step as dv Edv. py_step as dv_dz Edv_dz.
  rewrite result_magnitude.
  py_step as du2 E1. py_step as dv2 E2. py_step as sq E3.
  py_step as ds_dz E4.
  assert (W : well_formed ds_dz).
  { apply (magnitude_inv du_dz dv_dz). rewrite result_magnitude, E1, E2, E3.
    exact E4. }
  py_step as shear_max Em. cbv zeta. rewrite select_then.
  destruct ds_dz as [x|a].
  - destruct (np_isnan_any (PyFloat x)); reflexivity.
  - pose proof (well_formed_size a W (np_max_nonempty _ _ Em)) as Hs.
    unfold chosen. destruct (np_isnan_any (Nd a)); rewrite bind_ret;
      cbn [fst snd]; now rewrite fill_total.
Qed.

(** [wind_shear_normal] in one equation.  The signed array is filled; the
    magnitude array only chooses the bucket. *)
Lemma wind_shear_normal_unfold ut ub vt vb cos_a sin_a dz out :
  wind_shear_normal ut ub vt vb cos_a sin_a dz out =
  match result (gradient ut ub dz) with
  | inl e => (inl e, out)
  | inr du_dz =>
  match result (gradient vt vb dz) with
  | inl e => (inl e, out)
  | inr dv_dz =>
  match result (normal_gradient du_dz dv_dz cos_a sin_a) with
  | inl e => (inl e, out)
  | inr dsn_dz =>
  match result (magnitude du_dz dv_dz) with
  | inl e => (inl e, out)
  | inr ds_dz =>
  match result (np_max ds_dz) with
  | inl e => (inl e, out)
  | inr shear_max =>
      let nan_present := np_isnan_any dsn_dz in
      let c := chosen nan_present shear_max in
      let out := out ++ if nan_present then [Removed_NaN] else [] in
      match dsn_dz with
      | PyFloat _ => (inl AttributeError, out)
      | Nd a =>
          if size (shape a) =? 0 then (inl ValueError, out)
          else
            (inr (Nd (np_full (shape a) (- c)%float)),
             out ++ if negb (c =? 2e-3)%float || nan_present
                    then [NORMAL_shear (- c)%float] else [])
      end
  end end end end end.
Proof.
  unfold wind_shear_normal.
  rewrite !result_gradient.
  py_step as du Edu. py_step as du_dz Edu_dz.
  py_step as dv Edv. py_step as dv_dz Edv_dz.
  rewrite result_normal_gradient.
  py_step as dv_cos Ec. py_step as du_sin Es. py_step as dsn_dz En.
  assert (W : well_formed dsn_dz) by (now apply binop_inv in En).
  rewrite result_magnitude.
  py_step as du2 E1. py_step as dv2 E2. py_step as sq E3.
  py_step as ds_dz E4.
  py_step as shear_max Em. cbv zeta. rewrite select_then.
  assert (P : forall (b : bool) x y (k : float * bool -> Py value),
    bind (if b then print Removed_NaN ;;; ret (x, true) else ret (y, false)) k out =
    k (if b then x else y, b) (out ++ if b then [Removed_NaN] else [])).
  { intros [|] x y k; [reflexivity|]. rewrite bind_ret. now rewrite app_nil_r. }
  rewrite P. cbn [fst snd]. fold (chosen (np_isnan_any dsn_dz) shear_max).
  destruct dsn_dz as [x|a]; [reflexivity|].
  destruct (Nat.eqb_spec (size (shape a)) 0) as [Z|Z].
  - simpl get_shape. rewrite bind_ret.
    rewrite np_where_full by reflexivity. rewrite bind_ret.
    unfold np_min, np_full. simpl data. rewrite Z. reflexivity.
  - now rewrite fill_normal.
Qed.

(* ================================================================== *)
(** * Maximum and closest candidate                                    *)
(* ================================================================== *)

Section Extremes.

Import FloatFacts FloatArith.
Local Open Scope float_scope.

Lemma np_maximum_nan_l a b : is_nan a = true -> np_maximum a b = a.
Proof. unfold np_maximum. intros ->. now rewrite orb_true_r. Qed.

Lemma fold_maximum_nan xs : forall a,
  is_nan a = true -> fold_left np_maximum xs a = a.
Proof.
  induction xs as [|x xs IH]; intros a Ha; [reflexivity|].
  simpl. rewrite np_maximum_nan_l by assumption. now apply IH.
Qed.

(** A NaN anywhere makes the maximum a NaN. *)
Lemma fold_maximum_has_nan xs : forall a,
  existsb is_nan (a :: xs) = true -> is_nan (fold_left np_maximum xs a) = true.
Proof.
  induction xs as [|x xs IH]; intros a H.
  - simpl in *. now rewrite orb_false_r in H.
  - simpl fold_left. apply IH. simpl in *.
    destruct (is_nan a) eqn:Ha.
    + now rewrite np_maximum_nan_l, Ha.
    + simpl in H. unfold np_maximum. rewrite Ha, orb_false_r.
      destruct (is_nan x) eqn:Hx.
      * now rewrite leb_nan_l, Hx.
      * simpl in H. rewrite H. now rewrite orb_true_r.
Qed.

(** Without a NaN the reduction returns an element above all others. *)
Lemma fold_maximum_max xs : forall a,
  existsb is_nan (a :: xs) = false ->
  let m := fold_left np_maximum xs a in
  In m (a :: xs) /\ is_nan m = false /\
  Forall (fun x => (x <=? m) = true) (a :: xs).
Proof.
  induction xs as [|x xs IH]; intros a H.
  - simpl in *. rewrite orb_false_r in H. repeat split; auto.
    constructor; [now apply leb_refl|constructor].
  - simpl in H. apply orb_false_iff in H. destruct H as [Ha H].
    apply orb_false_iff in H. destruct H as [Hx H].
    assert (Hm : is_nan (np_maximum a x) = false).
    { unfold np_maximum. now destruct (_ || _). }
    destruct (IH (np_maximum a x)) as (I1 & I2 & I3).
    { simpl. now rewrite Hm, H. }
    simpl fold_left. cbv zeta. split; [|split; [assumption|]].
    + destruct I1 as [I1|I1]; [|simpl; auto].
      rewrite <- I1. unfold np_maximum. destruct (_ || _); simpl; auto.
    + inversion I3 as [|? ? J1 J2]; subst.
      assert (Ja : (a <=? np_maximum a x) = true /\ (x <=? np_maximum a x) = true).
      { unfold np_maximum. rewrite Ha, orb_false_r.
        destruct (x <=? a) eqn:E.
        - split; [now apply leb_refl|assumption].
        - split; [now apply leb_total|now apply leb_refl]. }
      destruct Ja as [Ja Jx].
      constructor; [eapply leb_trans; eauto|].
      constructor; [eapply leb_trans; eauto|assumption].
Qed.

Lemma np_max_has_nan a m :
  result (np_max (Nd a)) = inr m -> np_isnan_any (Nd a) = true ->
  is_nan m = true.
Proof.
  unfold np_max, np_isnan_any. simpl. destruct (data a) as [|x xs]; [discriminate|].
  intros [= <-] H. now apply fold_maximum_has_nan.
Qed.

Lemma np_max_is_max v m :
  result (np_max v) = inr m -> np_isnan_any v = false ->
  In m (data (as_array v)) /\ is_nan m = false /\
  Forall (fun x => (x <=? m) = true) (data (as_array v)).
Proof.
  unfold np_max, np_isnan_any. destruct (data (as_array v)) as [|x xs];
    [discriminate|].
  intros [= <-] H. now apply fold_maximum_max.
Qed.





End Extremes.

(* ================================================================== *)
(** * What a call returns                                              *)
(* ================================================================== *)

Lemma result_ds_dz_of ut ub vt vb dz :
  result (ds_dz_of ut ub vt vb dz) =
  match result (gradient ut ub dz) with
  | inl e => inl e
  | inr du_dz =>
      match result (gradient vt vb dz) with
      | inl e => inl e
      | inr dv_dz => result (magnitude du_dz dv_dz)
      end
  end.
Proof.
  unfold ds_dz_of. rewrite result_bind by auto with silent.
  destruct (result (gradient ut ub dz)); [reflexivity|].
  now rewrite result_bind by auto with silent.
Qed.

Lemma result_dsn_dz_of ut ub vt vb cos_a sin_a dz :
  result (dsn_dz_of ut ub vt vb cos_a sin_a dz) =
  match result (gradient ut ub dz) with
  | inl e => inl e
  | inr du_dz =>
      match result (gradient vt vb dz) with
      | inl e => inl e
      | inr dv_dz => result (normal_gradient du_dz dv_dz cos_a sin_a)
      end
  end.
Proof.
  unfold dsn_dz_of. rewrite result_bind by auto with silent.
  destruct (result (gradient ut ub dz)); [reflexivity|].
  now rewrite result_bind by auto with silent.
Qed.

Lemma chosen_In nan_present m : In (chosen nan_present m) shear_options.
Proof. destruct nan_present; [now left|apply closest_In]. Qed.

Lemma np_isnan_any_nonempty a : np_isnan_any (Nd a) = true -> data a <> [].
Proof. unfold np_isnan_any. simpl. now destruct (data a). Qed.

Lemma np_max_total v : data (as_array v) <> [] -> exists m, result (np_max v) = inr m.
Proof.
  unfold np_max. destruct (data (as_array v)) as [|x xs]; [congruence|].
  intros _. now eexists.
Qed.

(** What [wind_shear] gives, read off its equation. *)
Lemma wind_shear_result ut ub vt vb dz a m :
  result (ds_dz_of ut ub vt vb dz) = inr (Nd a) ->
  result (np_max (Nd a)) = inr m ->
  let c := chosen (np_isnan_any (Nd a)) m in
  run (wind_shear ut ub vt vb dz) =
  (inr (Nd (np_full (shape a) c)),
   if negb (c =? 2e-3)%float || np_isnan_any (Nd a) then [Shear c] else []).
Proof.
  intros E1 E2. unfold run. rewrite wind_shear_unfold, E1, E2. reflexivity.
Qed.

Lemma wind_shear_returns ut ub vt vb dz v :
  result (wind_shear ut ub vt vb dz) = inr v ->
  exists a m,
    result (ds_dz_of ut ub vt vb dz) = inr (Nd a) /\
    result (np_max (Nd a)) = inr m /\
    v = Nd (np_full (shape a) (chosen (np_isnan_any (Nd a)) m)).
Proof.
  unfold result at 1. unfold run. rewrite wind_shear_unfold.
  destruct (result (ds_dz_of ut ub vt vb dz)) as [e|ds]; [discriminate|].
  destruct (result (np_max ds)) as [e|m] eqn:Em; [discriminate|].
  destruct ds as [x|a]; [discriminate|].
  intros [= <-]. now exists a, m.
Qed.

(** What [wind_shear_normal] gives, read off its equation. *)
Lemma wind_shear_normal_result ut ub vt vb cos_a sin_a dz a ds m :
  result (dsn_dz_of ut ub vt vb cos_a sin_a dz) = inr (Nd a) ->
  result (ds_dz_of ut ub vt vb dz) = inr ds ->
  result (np_max ds) = inr m ->
  data a <> [] ->
  let nan_present := np_isnan_any (Nd a) in
  let c := chosen nan_present m in
  run (wind_shear_normal ut ub vt vb cos_a sin_a dz) =
  (inr (Nd (np_full (shape a) (- c)%float)),
   (if nan_present then [Removed_NaN] else []) ++
   (if negb (c =? 2e-3)%float || nan_present
    then [NORMAL_shear (- c)%float] else [])).
Proof.
  rewrite result_dsn_dz_of, result_ds_dz_of. intros E1 E2 E3 Hne.
  unfold run. rewrite wind_shear_normal_unfold.
  destruct (result (gradient ut ub dz)) as [e|du]; [discriminate|].
  destruct (result (gradient vt vb dz)) as [e|dv]; [discriminate|].
  rewrite E1, E2, E3. cbv zeta.
  assert (W : well_formed (Nd a)) by now apply normal_gradient_inv in E1.
  pose proof (well_formed_size a W Hne) as Hs.
  apply Nat.eqb_neq in Hs. rewrite Hs. reflexivity.
Qed.

Lemma wind_shear_normal_returns ut ub vt vb cos_a sin_a dz v :
  result (wind_shear_normal ut ub vt vb cos_a sin_a dz) = inr v ->
  exists a ds m,
    result (dsn_dz_of ut ub vt vb cos_a sin_a dz) = inr (Nd a) /\
    result (ds_dz_of ut ub vt vb dz) = inr ds /\
    result (np_max ds) = inr m /\
    data a <> [] /\
    v = Nd (np_full (shape a) (- chosen (np_isnan_any (Nd a)) m)%float).
Proof.
  unfold result at 1. unfold run. rewrite wind_shear_normal_unfold.
  rewrite result_dsn_dz_of, result_ds_dz_of.
  destruct (result (gradient ut ub dz)) as [e|du]; [discriminate|].
  destruct (result (gradient vt vb dz)) as [e|dv]; [discriminate|].
  destruct (result (normal_gradient du dv cos_a sin_a)) as [e|dsn] eqn:E1;
    [discriminate|].
  destruct (result (magnitude du dv)) as [e|ds]; [discriminate|].
  destruct (result (np_max ds)) as [e|m] eqn:E3; [discriminate|].
  cbv zeta. destruct dsn as [x|a]; [discriminate|].
  destruct (Nat.eqb_spec (size (shape a)) 0) as [Z|Z]; [discriminate|].
  intros [= <-]. exists a, ds, m.
  split; [reflexivity|]. split; [reflexivity|]. split; [exact E3|].
  split; [|reflexivity].
  apply normal_gradient_inv in E1. destruct E1 as (W & _).
  unfold well_formed, shape_of in W. simpl in W. intros E.
  rewrite E in W. simpl in W. congruence.
Qed.

Lemma shear_options_positive c : In c shear_options -> (0 <? c)%float = true.
Proof. intros [<-|[<-|[<-|[]]]]; reflexivity. Qed.

(** A non-empty signed array comes with a non-empty magnitude array, so the
    maximum of line 93 exists. *)
Lemma normal_max_total du dv cos_a sin_a a ds :
  result (normal_gradient du dv cos_a sin_a) = inr (Nd a) ->
  data a <> [] ->
  result (magnitude du dv) = inr ds ->
  exists m, result (np_max ds) = inr m.
Proof.
  intros E1 Hne E2. apply np_max_total.
  destruct ds as [x|b]; [discriminate|]. simpl.
  apply normal_gradient_inv in E1. destruct E1 as (Wa & Sa & _).
  apply magnitude_inv in E2. destruct E2 as (Wb & Sb & _).
  pose proof (well_formed_size a Wa Hne) as Ha.
  change (shape_of (Nd a)) with (shape a) in Sa.
  change (shape_of (Nd b)) with (shape b) in Sb.
  destruct (broadcast_shapes (shape_of dv) (shape_of cos_a)) as [s1|] eqn:B1;
    [|discriminate].
  destruct (broadcast_shapes (shape_of du) (shape_of sin_a)) as [s2|] eqn:B2;
    [|discriminate].
  simpl in Sa.
  apply broadcast_shapes_zero in Sa, Sb, B1, B2.
  assert (Hb : size (shape b) <> 0) by tauto.
  intros E. unfold well_formed, shape_of in Wb. simpl in Wb.
  rewrite E in Wb. simpl in Wb. congruence.
Qed.

Lemma broadcast_opt_nil_l x : broadcast_opt (Some []) x = x.
Proof. destruct x as [s|]; [apply broadcast_shapes_nil_l|reflexivity]. Qed.

Lemma broadcast_all_4 a b c d :
  broadcast_all [a; b; c; d] =
  broadcast_opt (broadcast_shapes a b) (broadcast_shapes c d).
Proof.
  unfold broadcast_all. cbn [fold_left]. rewrite broadcast_opt_nil_l.
  change (broadcast_shapes a b) with (broadcast_opt (Some a) (Some b)).
  change (broadcast_shapes c d) with (broadcast_opt (Some c) (Some d)).
  now rewrite !broadcast_opt_assoc.
Qed.

Lemma broadcast_all_6 a b c d e f :
  broadcast_all [a; b; c; d; e; f] =
  broadcast_opt
    (broadcast_opt (broadcast_shapes c d) (Some e))
    (broadcast_opt (broadcast_shapes a b) (Some f)).
Proof.
  unfold broadcast_all. cbn [fold_left]. rewrite broadcast_opt_nil_l.
  change (broadcast_shapes a b) with (broadcast_opt (Some a) (Some b)).
  change (broadcast_shapes c d) with (broadcast_opt (Some c) (Some d)).
  set (ab := broadcast_opt (Some a) (Some b)).
  set (cd := broadcast_opt (Some c) (Some d)).
  rewrite (broadcast_opt_comm (broadcast_opt cd (Some e))).
  rewrite (broadcast_opt_assoc ab (Some f)).
  rewrite (broadcast_opt_comm (Some f)).
  rewrite <- (broadcast_opt_assoc ab).
  rewrite <- (broadcast_opt_assoc ab cd).
  unfold cd. now rewrite <- (broadcast_opt_assoc ab (Some c)).
Qed.

Lemma binop_array py np a b s :
  is_array a || is_array b = true ->
  broadcast_shapes (shape_of a) (shape_of b) = Some s ->
  exists r, result (binop py np a b) = inr (Nd r) /\ shape r = s.
Proof.
  intros Ha H. unfold shape_of in H.
  destruct a as [x|a], b as [y|b]; [discriminate Ha| | |];
    unfold result, run, binop, bind, ufunc2; rewrite H;
    eexists; split; reflexivity.
Qed.

Lemma py_sub_array a b s :
  is_array a || is_array b = true ->
  broadcast_shapes (shape_of a) (shape_of b) = Some s ->
  exists r, result (py_sub a b) = inr (Nd r) /\ shape r = s.
Proof. apply binop_array. Qed.

Lemma py_add_array a b s :
  is_array a || is_array b = true ->
  broadcast_shapes (shape_of a) (shape_of b) = Some s ->
  exists r, result (py_add a b) = inr (Nd r) /\ shape r = s.
Proof. apply binop_array. Qed.

Lemma py_mul_array a b s :
  is_array a || is_array b = true ->
  broadcast_shapes (shape_of a) (shape_of b) = Some s ->
  exists r, result (py_mul a b) = inr (Nd r) /\ shape r = s.
Proof. apply binop_array. Qed.

Lemma py_truediv_array a b s :
  is_array a || is_array b = true ->
  broadcast_shapes (shape_of a) (shape_of b) = Some s ->
  exists r, result (py_truediv a b) = inr (Nd r) /\ shape r = s.
Proof. apply binop_array. Qed.

Lemma gradient_array top btm dz s :
  is_array top || is_array btm = true ->
  broadcast_shapes (shape_of top) (shape_of btm) = Some s ->
  exists r, result (gradient top btm dz) = inr (Nd r) /\ shape r = s.
Proof.
  intros Ha Hs. rewrite result_gradient.
  destruct (py_sub_array top btm s Ha Hs) as (d & -> & <-).
  apply py_truediv_array; [reflexivity|]. apply broadcast_shapes_nil_r.
Qed.

Lemma magnitude_array a b s :
  broadcast_shapes (shape a) (shape b) = Some s ->
  exists r, result (magnitude (Nd a) (Nd b)) = inr (Nd r) /\ shape r = s.
Proof.
  intros Hs. rewrite result_magnitude. simpl py_pow_2. rewrite !result_ret.
  destruct (py_add_array (Nd (map_nd (power_2 (shape a)) a))
              (Nd (map_nd (power_2 (shape b)) b)) s eq_refl Hs)
    as (q & -> & <-).
  simpl. eexists. split; reflexivity.
Qed.

Lemma normal_gradient_array a b cos_a sin_a s :
  broadcast_opt (broadcast_shapes (shape b) (shape_of cos_a))
    (broadcast_shapes (shape a) (shape_of sin_a)) = Some s ->
  exists r,
    result (normal_gradient (Nd a) (Nd b) cos_a sin_a) = inr (Nd r) /\
    shape r = s.
Proof.
  intros Hs. rewrite result_normal_gradient.
  destruct (broadcast_shapes (shape b) (shape_of cos_a)) as [s1|] eqn:B1;
    [|discriminate].
  destruct (broadcast_shapes (shape a) (shape_of sin_a)) as [s2|] eqn:B2;
    [|discriminate].
  destruct (py_mul_array (Nd b) cos_a s1 eq_refl B1) as (p & -> & <-).
  destruct (py_mul_array (Nd a) sin_a s2 eq_refl B2) as (q & -> & <-).
  apply py_sub_array; [reflexivity|exact Hs].
Qed.

Lemma well_formed_nonempty a :
  well_formed (Nd a) -> size (shape a) <> 0 -> data a <> [].
Proof.
  unfold well_formed, shape_of. simpl. intros W H E. rewrite E in W.
  simpl in W. congruence.
Qed.

Lemma broadcast_opt_swap x y c n :
  broadcast_opt (broadcast_opt y c) (broadcast_opt x n) =
  broadcast_opt (broadcast_opt x y) (broadcast_opt c n).
Proof.
  rewrite (broadcast_opt_comm (broadcast_opt y c)).
  rewrite (broadcast_opt_assoc x n).
  rewrite <- (broadcast_opt_assoc n y c).
  rewrite (broadcast_opt_comm n y).
  rewrite (broadcast_opt_assoc y n c).
  rewrite <- (broadcast_opt_assoc x y).
  now rewrite (broadcast_opt_comm n c).
Qed.

Lemma wind_shear_shape ut ub vt vb dz a :
  result (ds_dz_of ut ub vt vb dz) = inr (Nd a) ->
  broadcast_all (map shape_of [ut; ub; vt; vb]) = Some (shape a).
Proof.
  rewrite result_ds_dz_of.
  destruct (result (gradient ut ub dz)) as [e|du] eqn:E1; [discriminate|].
  destruct (result (gradient vt vb dz)) as [e|dv] eqn:E2; [discriminate|].
  intros E3. apply gradient_inv in E1, E2. apply magnitude_inv in E3.
  destruct E1 as (_ & S1 & _), E2 as (_ & S2 & _), E3 as (_ & S3 & _).
  simpl map. now rewrite broadcast_all_4, S1, S2.
Qed.

Lemma wind_shear_normal_shape ut ub vt vb cos_a sin_a dz a :
  result (dsn_dz_of ut ub vt vb cos_a sin_a dz) = inr (Nd a) ->
  broadcast_all (map shape_of [ut; ub; vt; vb; cos_a; sin_a]) = Some (shape a).
Proof.
  rewrite result_dsn_dz_of.
  destruct (result (gradient ut ub dz)) as [e|du] eqn:E1; [discriminate|].
  destruct (result (gradient vt vb dz)) as [e|dv] eqn:E2; [discriminate|].
  intros E3. apply gradient_inv in E1, E2. apply normal_gradient_inv in E3.
  destruct E1 as (_ & S1 & _), E2 as (_ & S2 & _), E3 as (_ & S3 & _).
  simpl map. now rewrite broadcast_all_6, S1, S2.
Qed.

(** With NumPy arrays for the wind components [wind_shear] returns as soon
    as the shapes broadcast to a non-empty one. *)
Lemma wind_shear_total ut ub vt vb dz s :
  forallb is_array [ut; ub; vt; vb] = true ->
  broadcast_all (map shape_of [ut; ub; vt; vb]) = Some s ->
  size s <> 0 ->
  exists r, result (wind_shear ut ub vt vb dz) = inr (Nd r) /\ shape r = s.
Proof.
  intros Ha Hs Hz. simpl in Ha. rewrite andb_true_r in Ha.
  apply andb_prop in Ha. destruct Ha as [A1 Ha].
  apply andb_prop in Ha. destruct Ha as [A2 Ha].
  apply andb_prop in Ha. destruct Ha as [A3 A4].
  simpl map in Hs. rewrite broadcast_all_4 in Hs.
  destruct (broadcast_shapes (shape_of ut) (shape_of ub)) as [s1|] eqn:B1;
    [|discriminate].
  destruct (broadcast_shapes (shape_of vt) (shape_of vb)) as [s2|] eqn:B2;
    [|discriminate].
  simpl in Hs.
  destruct (gradient_array ut ub dz s1) as (du & E1 & <-);
    [now rewrite A1|assumption|].
  destruct (gradient_array vt vb dz s2) as (dv & E2 & <-);
    [now rewrite A3|assumption|].
  destruct (magnitude_array du dv s Hs) as (ds & E3 & <-).
  assert (E : result (ds_dz_of ut ub vt vb dz) = inr (Nd ds)).
  { now rewrite result_ds_dz_of, E1, E2. }
  assert (W : well_formed (Nd ds)) by now apply magnitude_inv in E3.
  destruct (np_max_total (Nd ds) (well_formed_nonempty ds W Hz)) as [m Em].
  exists (np_full (shape ds) (chosen (np_isnan_any (Nd ds)) m)).
  split; [|reflexivity].
  unfold result at 1. now rewrite (wind_shear_result _ _ _ _ _ ds m E Em).
Qed.

Lemma wind_shear_normal_total ut ub vt vb cos_a sin_a dz s :
  forallb is_array [ut; ub; vt; vb] = true ->
  broadcast_all (map shape_of [ut; ub; vt; vb; cos_a; sin_a]) = Some s ->
  size s <> 0 ->
  exists r,
    result (wind_shear_normal ut ub vt vb cos_a sin_a dz) = inr (Nd r) /\
    shape r = s.
Proof.
  intros Ha Hs Hz. simpl in Ha. rewrite andb_true_r in Ha.
  apply andb_prop in Ha. destruct Ha as [A1 Ha].
  apply andb_prop in Ha. destruct Ha as [A2 Ha].
  apply andb_prop in Ha. destruct Ha as [A3 A4].
  simpl map in Hs. rewrite broadcast_all_6 in Hs.
  destruct (broadcast_shapes (shape_of ut) (shape_of ub)) as [s1|] eqn:B1;
    [|now destruct (broadcast_opt _ (Some (shape_of cos_a)))].
  destruct (broadcast_shapes (shape_of vt) (shape_of vb)) as [s2|] eqn:B2;
    [|discriminate].
  destruct (gradient_array ut ub dz s1) as (du & E1 & <-);
    [now rewrite A1|assumption|].
  destruct (gradient_array vt vb dz s2) as (dv & E2 & <-);
    [now rewrite A3|assumption|].
  destruct (normal_gradient_array du dv cos_a sin_a s Hs) as (dsn & E3 & <-).
  assert (B3 : exists s3, broadcast_shapes (shape du) (shape dv) = Some s3).
  { rewrite broadcast_opt_swap in Hs.
    change (broadcast_opt (Some (shape du)) (Some (shape dv)))
      with (broadcast_shapes (shape du) (shape dv)) in Hs.
    destruct (broadcast_shapes (shape du) (shape dv)) as [s3|];
      [now exists s3|discriminate]. }
  destruct B3 as [s3 B3].
  destruct (magnitude_array du dv s3 B3) as (ds & E4 & _).
  assert (W : well_formed (Nd dsn)) by now apply normal_gradient_inv in E3.
  pose proof (well_formed_nonempty dsn W Hz) as Hne.
  destruct (normal_max_total _ _ _ _ _ _ E3 Hne E4) as [m Em].
  exists (np_full (shape dsn) (- chosen (np_isnan_any (Nd dsn)) m)%float).
  split; [|reflexivity].
  unfold result at 1.
  rewrite (wind_shear_normal_result _ _ _ _ _ _ _ dsn (Nd ds) m); auto.
  - now rewrite result_dsn_dz_of, E1, E2.
  - now rewrite result_ds_dz_of, E1, E2.
Qed.

(** With arrays for the wind components, the magnitude array exists as
    soon as the signed array does. *)
Lemma magnitude_exists ut ub vt vb cos_a sin_a dz dsn :
  forallb is_array [ut; ub; vt; vb] = true ->
  result (dsn_dz_of ut ub vt vb cos_a sin_a dz) = inr dsn ->
  exists ds, result (ds_dz_of ut ub vt vb dz) = inr ds.
Proof.
  intros Ha. simpl in Ha. rewrite andb_true_r in Ha.
  apply andb_prop in Ha. destruct Ha as [A1 Ha].
  apply andb_prop in Ha. destruct Ha as [A2 Ha].
  apply andb_prop in Ha. destruct Ha as [A3 A4].
  rewrite result_dsn_dz_of, result_ds_dz_of.
  destruct (result (gradient ut ub dz)) as [e|du] eqn:E1; [discriminate|].
  destruct (result (gradient vt vb dz)) as [e|dv] eqn:E2; [discriminate|].
  intros E3. apply gradient_inv in E1, E2. apply normal_gradient_inv in E3.
  destruct E1 as (_ & _ & B1), E2 as (_ & _ & B2), E3 as (_ & S & _).
  rewrite A1 in B1. rewrite A3 in B2.
  destruct du as [x|a]; [discriminate|]. destruct dv as [y|b]; [discriminate|].
  change (broadcast_shapes (shape_of (Nd b)) (shape_of cos_a)) with
    (broadcast_opt (Some (shape b)) (Some (shape_of cos_a))) in S.
  change (broadcast_shapes (shape_of (Nd a)) (shape_of sin_a)) with
    (broadcast_opt (Some (shape a)) (Some (shape_of sin_a))) in S.
  rewrite broadcast_opt_swap in S.
  change (broadcast_opt (Some (shape a)) (Some (shape b)))
    with (broadcast_shapes (shape a) (shape b)) in S.
  destruct (broadcast_shapes (shape a) (shape b)) as [s3|] eqn:B3;
    [|discriminate].
  destruct (magnitude_array a b s3 B3) as (ds & E & _). now exists (Nd ds).
Qed.

(** The ufunc branch of a binary operator, with what it prints: nothing. *)
Lemma binop_array_run py np a b s out :
  is_array a || is_array b = true ->
  broadcast_shapes (shape_of a) (shape_of b) = Some s ->
  exists r, binop py np a b out = (inr (Nd r), out) /\ shape r = s.
Proof.
  intros Ha H. unfold shape_of in H.
  destruct a as [x|a], b as [y|b]; [discriminate Ha| | |];
    unfold binop, bind, ufunc2; rewrite H;
    eexists; split; reflexivity.
Qed.

Lemma map_nd_full {A B : Type} (f : A -> B) sh x :
  map_nd f (np_full sh x) = np_full sh (f x).
Proof. unfold map_nd, np_full. simpl. now rewrite map_repeat. Qed.

Lemma closest_nan_or_infinite m :
  is_nan m = true \/ is_infinity m = true -> closest m = 2e-3%float.
Proof.
  intros [H|H].
  - apply FloatFacts.is_nan_eq in H. now subst.
  - apply FloatArith.is_infinity_cases in H. destruct H; now subst.
Qed.

Lemma binop_mismatch py np a b :
  is_array a || is_array b = true ->
  broadcast_shapes (shape_of a) (shape_of b) = None ->
  result (binop py np a b) = inl ValueError.
Proof.
  intros Ha H. unfold shape_of in H.
  destruct a as [x|a], b as [y|b]; [discriminate Ha| | |];
    unfold result, run, binop, bind, ufunc2; now rewrite H.
Qed.

Lemma py_mul_scalar v c :
  exists w,
    result (py_mul v (PyFloat c)) = inr w /\
    shape_of w = shape_of v /\ is_array w = is_array v.
Proof.
  destruct v as [x|a].
  - eexists. split; [reflexivity|]. split; reflexivity.
  - destruct (py_mul_array (Nd a) (PyFloat c) (shape a) eq_refl
                (broadcast_shapes_nil_r (shape a))) as (r & E & S).
    exists (Nd r). split; [assumption|]. split; [exact S|reflexivity].
Qed.

Lemma py_sub_raises a b e :
  result (py_sub a b) = inl e ->
  is_array a = true /\ is_array b = true /\
  broadcast_shapes (shape_of a) (shape_of b) = None /\ e = ValueError.
Proof.
  destruct (broadcast_shapes (shape_of a) (shape_of b)) as [s|] eqn:B.
  - destruct a as [x|a], b as [y|b]; [discriminate| | |];
      intros H;
      match type of H with
      | result (py_sub ?u ?v) = _ =>
          destruct (py_sub_array u v s eq_refl B) as (r & E & _)
      end; congruence.
  - destruct a as [x|a], b as [y|b];
      try (exfalso; unfold shape_of in B; simpl as_array in B;
           simpl shape in B;
           rewrite ?broadcast_shapes_nil_l, ?broadcast_shapes_nil_r in B;
           discriminate B).
    intros H. unfold py_sub in H.
    rewrite (binop_mismatch _ _ (Nd a) (Nd b) eq_refl B) in H.
    injection H as <-. auto.
Qed.

(** With plain floats for [cos_a] and [sin_a] the signed array fails to
    broadcast exactly when the magnitude array does. *)
Lemma normal_gradient_raises du dv c s e :
  result (normal_gradient du dv (PyFloat c) (PyFloat s)) = inl e ->
  result (magnitude du dv) = inl e.
Proof.
  rewrite result_normal_gradient, result_magnitude.
  destruct (py_mul_scalar dv c) as (p & -> & Sp & Ap).
  destruct (py_mul_scalar du s) as (q & -> & Sq & Aq).
  intros H. apply py_sub_raises in H. destruct H as (A1 & A2 & B & ->).
  rewrite Sp, Sq in B. rewrite Ap in A1. rewrite Aq in A2.
  destruct du as [x|a], dv as [y|b]; try discriminate.
  simpl py_pow_2. rewrite !result_ret. unfold py_add.
  rewrite binop_mismatch; [reflexivity|reflexivity|].
  change (broadcast_shapes (shape a) (shape b) = None).
  change (broadcast_shapes (shape b) (shape a) = None) in B.
  rewrite <- B.
  apply (broadcast_opt_comm (Some (shape a)) (Some (shape b))).
Qed.

Lemma normal_gradient_like_magnitude du dv c s dsn ds :
  result (normal_gradient du dv (PyFloat c) (PyFloat s)) = inr dsn ->
  result (magnitude du dv) = inr ds ->
  shape_of dsn = shape_of ds /\ is_array dsn = is_array ds.
Proof.
  intros E1 E2. apply normal_gradient_inv in E1. apply magnitude_inv in E2.
  destruct E1 as (_ & S1 & A1), E2 as (_ & S2 & A2).
  change (shape_of (PyFloat c)) with (@nil nat) in S1.
  change (shape_of (PyFloat s)) with (@nil nat) in S1.
  rewrite !broadcast_shapes_nil_r in S1. cbn [broadcast_opt] in S1.
  assert (C : broadcast_shapes (shape_of dv) (shape_of du) =
              broadcast_shapes (shape_of du) (shape_of dv)).
  { apply (broadcast_opt_comm (Some (shape_of dv)) (Some (shape_of du))). }
  rewrite C, S2 in S1. injection S1 as S1. split; [now symmetry|].
  rewrite A1, A2. simpl. rewrite !orb_false_r. apply orb_comm.
Qed.

(* ================================================================== *)
(** * Elements of the magnitude array                                  *)
(* ================================================================== *)

Lemma nth_map_seq {A : Type} (h : nat -> A) n k d :
  k < n -> nth k (map h (seq 0 n)) d = h k.
Proof.
  intros H. rewrite (nth_indep _ d (h 0)) by now rewrite length_map, length_seq.
  rewrite map_nth. now rewrite seq_nth.
Qed.

Lemma ufunc2_nth f a b r k :
  result (ufunc2 f a b) = inr r -> k < size (shape r) ->
  nth k (data r) nan =
  f (nth (offset (shape a) (shape r) k) (data a) nan)
    (nth (offset (shape b) (shape r) k) (data b) nan).
Proof.
  unfold ufunc2. destruct (broadcast_shapes (shape a) (shape b)) as [sh|];
    [|discriminate].
  intros [= <-] Hk. simpl in *. unfold broadcast_to.
  rewrite combine_map, map_map. now rewrite nth_map_seq.
Qed.

Lemma binop_nth py np a b r k :
  result (binop py np a b) = inr (Nd r) -> k < size (shape r) ->
  nth k (data r) nan = np (element_at a (shape r) k) (element_at b (shape r) k).
Proof.
  assert (G : forall a b,
    result (q <- ufunc2 np (as_array a) (as_array b) ;; ret (Nd q)) = inr (Nd r) ->
    k < size (shape r) ->
    nth k (data r) nan = np (element_at a (shape r) k) (element_at b (shape r) k)).
  { intros a' b'. rewrite result_bind by auto with silent.
    destruct (result (ufunc2 np (as_array a') (as_array b'))) as [e|q] eqn:E;
      [discriminate|].
    intros [= <-] Hk. now apply ufunc2_nth. }
  destruct a as [x|a], b as [y|b];
    [| apply (G (PyFloat x) (Nd b)) | apply (G (Nd a) (PyFloat y))
     | apply (G (Nd a) (Nd b))].
  simpl binop. unfold result, run, bind.
  destruct (py x y []) as [[e|z] o]; discriminate.
Qed.

Lemma nth_map_default {A B : Type} (f : A -> B) l d d' k :
  f d = d' -> nth k (map f l) d' = f (nth k l d).
Proof. intros <-. apply map_nth. Qed.

Lemma py_pow_2_element v w sh k :
  result (py_pow_2 v) = inr w ->
  element_at w sh k = power_2 (shape_of v) (element_at v sh k) /\
  shape_of w = shape_of v.
Proof.
  destruct v as [x|a]; simpl.
  - unfold float_pow_2. destruct (overflow _ _); [discriminate|].
    intros [= <-]. split; [|reflexivity]. unfold element_at. simpl.
    destruct (offset [] sh k) as [|[|n]]; try reflexivity;
      symmetry; apply (power_2_nan []).
  - intros [= <-]. split; [|reflexivity]. unfold element_at, shape_of. simpl.
    apply nth_map_default, power_2_nan.
Qed.

(** Each element of [ds_dz] is the square root of the sum of the squares of
    the two gradients it is computed from (lines 90 and 155), each power
    taken the way the shape of its operand has it. *)
Lemma magnitude_nth du dv a k :
  result (magnitude du dv) = inr (Nd a) -> k < size (shape a) ->
  nth k (data a) nan =
  power_half (shape a)
    (power_2 (shape_of du) (element_at du (shape a) k) +
     power_2 (shape_of dv) (element_at dv (shape a) k))%float.
Proof.
  rewrite result_magnitude.
  destruct (result (py_pow_2 du)) as [e|du2] eqn:E1; [discriminate|].
  destruct (result (py_pow_2 dv)) as [e|dv2] eqn:E2; [discriminate|].
  destruct (result (py_add du2 dv2)) as [e|sq] eqn:E3; [discriminate|].
  destruct sq as [x|q];
    [simpl; unfold float_pow_half; destruct (overflow _ _); discriminate|].
  simpl. intros [= <-] Hk. simpl in *.
  rewrite (nth_map_default _ _ nan) by apply power_half_nan. f_equal.
  unfold py_add in E3. rewrite (binop_nth _ _ _ _ _ _ E3 Hk).
  destruct (py_pow_2_element du du2 (shape q) k E1) as [-> _].
  destruct (py_pow_2_element dv dv2 (shape q) k E2) as [-> _].
  reflexivity.
Qed.

(* ================================================================== *)
(** * NaN and infinity from the gradients to the arrays               *)
(* ================================================================== *)

Lemma existsb_false {A : Type} (f : A -> bool) l :
  (forall x, In x l -> f x = false) -> existsb f l = false.
Proof.
  intros H. destruct (existsb f l) eqn:E; [|reflexivity].
  apply existsb_exists in E. destruct E as (x & Hx & Fx).
  rewrite (H x Hx) in Fx. discriminate.
Qed.

Lemma element_at_In v s' t k :
  well_formed v ->
  (broadcast_shapes (shape_of v) s' = Some t \/
   broadcast_shapes s' (shape_of v) = Some t) ->
  size t <> 0 ->
  In (element_at v t k) (data (as_array v)).
Proof.
  intros W H Hz. unfold element_at. apply nth_In. rewrite W.
  now apply (offset_in_range _ s').
Qed.

(** Gradients without a NaN give a magnitude array without a NaN. *)
Lemma magnitude_no_nan du dv a :
  result (magnitude du dv) = inr (Nd a) ->
  well_formed du -> well_formed dv ->
  np_isnan_any du = false -> np_isnan_any dv = false ->
  np_isnan_any (Nd a) = false.
Proof.
  intros E Wu Wv Nu Nv. pose proof (magnitude_inv _ _ _ E) as (Wa & S & _).
  change (shape_of (Nd a)) with (shape a) in S.
  unfold well_formed, shape_of in Wa. simpl in Wa.
  apply existsb_false. intros x Hx. simpl in Hx.
  apply (In_nth _ _ nan) in Hx. destruct Hx as (k & Hk & <-).
  rewrite Wa in Hk.
  assert (Hz : size (shape a) <> 0) by lia.
  rewrite (magnitude_nth du dv a k E Hk).
  apply powers_not_nan.
  - unfold np_isnan_any in Nu. rewrite <- Bool.not_true_iff_false in *.
    intros C. apply Nu. apply existsb_exists.
    exists (element_at du (shape a) k). split; [|assumption].
    apply (element_at_In du (shape_of dv)); auto.
  - unfold np_isnan_any in Nv. rewrite <- Bool.not_true_iff_false in *.
    intros C. apply Nv. apply existsb_exists.
    exists (element_at dv (shape a) k). split; [|assumption].
    apply (element_at_In dv (shape_of du)); auto.
Qed.

(** The magnitude of two plain floats: three calls of [pow], each of which
    may overflow. *)
Lemma magnitude_plain x y :
  result (magnitude (PyFloat x) (PyFloat y)) =
  let sq := (libm_pow x 2 + libm_pow y 2)%float in
  if overflow x (libm_pow x 2) then inl OverflowError
  else if overflow y (libm_pow y 2) then inl OverflowError
  else if overflow sq (libm_pow sq 0.5) then inl OverflowError
  else inr (PyFloat (libm_pow sq 0.5)).
Proof.
  unfold magnitude, result, run, py_pow_2, py_add, py_pow_half, binop, bind,
    ret, raise, float_pow_2, float_pow_half.
  destruct (overflow x _); [reflexivity|].
  destruct (overflow y _); [reflexivity|]. simpl.
  now destruct (overflow _ _).
Qed.


(** An infinite element of a gradient is read at some position of the
    magnitude array. *)
Lemma infinite_position du dv t :
  well_formed du -> well_formed dv ->
  broadcast_shapes (shape_of du) (shape_of dv) = Some t ->
  size t <> 0 ->
  np_isinf_any du || np_isinf_any dv = true ->
  exists k, k < size t /\
    is_infinity (element_at du t k) || is_infinity (element_at dv t k) = true.
Proof.
  intros Wu Wv S Hz H. apply orb_true_iff in H.
  destruct H as [H|H]; apply existsb_exists in H; destruct H as (x & Hx & Ix);
    apply (In_nth _ _ nan) in Hx; destruct Hx as (j & Hj & <-).
  - rewrite Wu in Hj.
    destruct (offset_onto (shape_of du) (shape_of dv) t j) as (k & Hk & E);
      auto.
    exists k. split; [assumption|]. unfold element_at.
    unfold shape_of in E. now rewrite E, Ix.
  - rewrite Wv in Hj.
    destruct (offset_onto (shape_of dv) (shape_of du) t j) as (k & Hk & E);
      auto.
    exists k. split; [assumption|]. unfold element_at.
    unfold shape_of in E. rewrite E, Ix. apply orb_true_r.
Qed.

(** An element of the result of an operator that never raises on plain
    floats, whether the result is a plain float or an array. *)
Lemma binop_nth_value np a b v k :
  result (binop (fun x y => ret (np x y)) np a b) = inr v ->
  k < size (shape_of v) ->
  nth k (data (as_array v)) nan =
  np (element_at a (shape_of v) k) (element_at b (shape_of v) k).
Proof.
  destruct v as [z|r].
  - intros E Hk. pose proof (binop_inv _ _ _ _ _ E) as (_ & _ & A).
    destruct a as [x|a], b as [y|b]; try discriminate A.
    injection E as <-. unfold shape_of in Hk. simpl in Hk.
    assert (k = 0) by lia. subst k. reflexivity.
  - apply binop_nth.
Qed.

(** A NaN in an operand shows in the product and in the difference. *)
Lemma operand_nan_shows np a b v :
  (forall x y, is_nan x = true -> is_nan (np x y) = true) ->
  result (binop (fun x y => ret (np x y)) np a b) = inr v ->
  well_formed a -> size (shape_of v) <> 0 ->
  np_isnan_any a = true -> np_isnan_any v = true.
Proof.
  intros Hnp E Wa Hz Ha.
  pose proof (binop_inv _ _ _ _ _ E) as (Wv & S & _).
  unfold np_isnan_any in *. apply existsb_exists in Ha.
  destruct Ha as (x & Hx & Nx). apply (In_nth _ _ nan) in Hx.
  destruct Hx as (j & Hj & <-). rewrite Wa in Hj.
  destruct (offset_onto (shape_of a) (shape_of b) (shape_of v) j)
    as (k & Hk & Ek); auto.
  apply existsb_exists. exists (nth k (data (as_array v)) nan). split.
  - apply nth_In. now rewrite Wv.
  - rewrite (binop_nth_value _ _ _ _ _ E Hk). apply Hnp.
    unfold element_at, shape_of in *. now rewrite Ek.
Qed.

Lemma operand_nan_shows_r np a b v :
  (forall x y, is_nan y = true -> is_nan (np x y) = true) ->
  result (binop (fun x y => ret (np x y)) np a b) = inr v ->
  well_formed b -> size (shape_of v) <> 0 ->
  np_isnan_any b = true -> np_isnan_any v = true.
Proof.
  intros Hnp E Wb Hz Hb.
  pose proof (binop_inv _ _ _ _ _ E) as (Wv & S & _).
  unfold np_isnan_any in *. apply existsb_exists in Hb.
  destruct Hb as (x & Hx & Nx). apply (In_nth _ _ nan) in Hx.
  destruct Hx as (j & Hj & <-). rewrite Wb in Hj.
  destruct (offset_onto (shape_of b) (shape_of a) (shape_of v) j)
    as (k & Hk & Ek); auto.
  apply existsb_exists. exists (nth k (data (as_array v)) nan). split.
  - apply nth_In. now rewrite Wv.
  - rewrite (binop_nth_value _ _ _ _ _ E Hk). apply Hnp.
    unfold element_at, shape_of in *. now rewrite Ek.
Qed.


(** An infinite gradient somewhere, and no NaN in the magnitude array: its
    maximum is infinite. *)
Lemma infinite_maximum du dv a k :
  result (magnitude du dv) = inr (Nd a) ->
  np_isnan_any (Nd a) = false ->
  k < size (shape a) ->
  is_infinity (element_at du (shape a) k) ||
  is_infinity (element_at dv (shape a) k) = true ->
  result (np_max (Nd a)) = inr infinity.
Proof.
  intros E Hn Hk Hi.
  assert (W : well_formed (Nd a)) by now apply magnitude_inv in E.
  unfold well_formed, shape_of in W. simpl in W.
  assert (Hl : k < length (data a)) by now rewrite W.
  pose proof (magnitude_nth du dv a k E Hk) as Hx.
  assert (Hnk : is_nan (nth k (data a) nan) = false)
    by now apply existsb_nth.
  rewrite Hx in Hnk.
  rewrite (powers_infinite _ _ _ _ _ Hi Hnk) in Hx.
  destruct (np_max_total (Nd a)) as [m Em].
  { simpl. intros E0. rewrite E0 in Hl. simpl in Hl. lia. }
  destruct (np_max_is_max _ _ Em Hn) as (_ & _ & F).
  rewrite Forall_forall in F. specialize (F infinity).
  rewrite Em. f_equal. apply FloatArith.leb_infinity_l. apply F.
  rewrite <- Hx. now apply nth_In.
Qed.

Lemma shear_options_finite x : In x shear_options -> is_finite x = true.
Proof. intros [<-|[<-|[<-|[]]]]; reflexivity. Qed.

(* ================================================================== *)
(** * Exceptions of the operators                                      *)
(* ================================================================== *)

(** An operator with a NumPy operand raises only when the shapes do not
    broadcast, and then [ValueError]. *)
Lemma binop_array_raises py np a b e :
  is_array a || is_array b = true ->
  result (binop py np a b) = inl e ->
  e = ValueError /\ broadcast_shapes (shape_of a) (shape_of b) = None.
Proof.
  intros Ha H.
  destruct (broadcast_shapes (shape_of a) (shape_of b)) as [s|] eqn:B.
  - destruct (binop_array py np a b s Ha B) as (r & E & _). congruence.
  - rewrite (binop_mismatch py np a b Ha B) in H. injection H as <-. auto.
Qed.

Lemma gradient_array_raises top btm dz e :
  is_array top || is_array btm = true ->
  result (gradient top btm dz) = inl e ->
  e = ValueError /\ broadcast_shapes (shape_of top) (shape_of btm) = None.
Proof.
  intros Ha. rewrite result_gradient.
  destruct (result (py_sub top btm)) as [e'|d] eqn:E.
  - intros [= <-]. now apply (binop_array_raises _ _ _ _ _ Ha E).
  - intros H. apply binop_inv in E. destruct E as (_ & _ & A).
    rewrite Ha in A. apply binop_array_raises in H; [|now rewrite A].
    destruct H as [_ H]. change (shape_of (PyFloat dz)) with (@nil nat) in H.
    rewrite broadcast_shapes_nil_r in H. discriminate.
Qed.

Lemma magnitude_array_raises a b e :
  result (magnitude (Nd a) (Nd b)) = inl e ->
  e = ValueError /\ broadcast_shapes (shape a) (shape b) = None.
Proof.
  rewrite result_magnitude. simpl py_pow_2. rewrite !result_ret.
  destruct (result (py_add _ _)) as [e'|sq] eqn:E.
  - intros [= <-]. apply binop_array_raises in E; [exact E|reflexivity].
  - apply binop_inv in E. destruct E as (_ & _ & A).
    destruct sq as [x|q]; [discriminate|]. discriminate.
Qed.

Lemma normal_gradient_array_raises a b cos_a sin_a e :
  result (normal_gradient (Nd a) (Nd b) cos_a sin_a) = inl e ->
  e = ValueError /\
  broadcast_opt (broadcast_shapes (shape b) (shape_of cos_a))
    (broadcast_shapes (shape a) (shape_of sin_a)) = None.
Proof.
  rewrite result_normal_gradient.
  destruct (result (py_mul (Nd b) cos_a)) as [e1|p] eqn:E1.
  { intros [= <-]. apply binop_array_raises in E1; [|reflexivity].
    destruct E1 as [-> B]. change (shape_of (Nd b)) with (shape b) in B.
    now rewrite B. }
  destruct (result (py_mul (Nd a) sin_a)) as [e2|q] eqn:E2.
  { intros [= <-]. apply binop_array_raises in E2; [|reflexivity].
    destruct E2 as [-> B]. change (shape_of (Nd a)) with (shape a) in B.
    rewrite B. split; [reflexivity|].
    destruct (broadcast_shapes (shape b) (shape_of cos_a)); reflexivity. }
  intros E3. apply binop_inv in E1, E2.
  destruct E1 as (_ & S1 & A1), E2 as (_ & S2 & A2).
  apply binop_array_raises in E3; [|now rewrite A1].
  destruct E3 as [-> B]. split; [reflexivity|].
  change (shape_of (Nd b)) with (shape b) in S1.
  change (shape_of (Nd a)) with (shape a) in S2.
  now rewrite S1, S2.
Qed.

Lemma all_arrays ut ub vt vb :
  forallb is_array [ut; ub; vt; vb] = true ->
  exists a b c d, ut = Nd a /\ ub = Nd b /\ vt = Nd c /\ vb = Nd d.
Proof.
  destruct ut as [x|a], ub as [y|b], vt as [z|c], vb as [w|d];
    try discriminate. intros _. now exists a, b, c, d.
Qed.

(** With arrays for the wind components, the only exception of
    [wind_shear] is [ValueError]. *)
Lemma wind_shear_array_exn ut ub vt vb dz e :
  forallb is_array [ut; ub; vt; vb] = true ->
  result (wind_shear ut ub vt vb dz) = inl e -> e = ValueError.
Proof.
  intros Ha. destruct (all_arrays _ _ _ _ Ha) as (a & b & c & d & -> & -> & -> & ->).
  unfold result at 1. unfold run. rewrite wind_shear_unfold, result_ds_dz_of.
  destruct (result (gradient (Nd a) (Nd b) dz)) as [e1|du] eqn:E1.
  { intros [= <-]. now apply gradient_array_raises in E1. }
  destruct (result (gradient (Nd c) (Nd d) dz)) as [e2|dv] eqn:E2.
  { intros [= <-]. now apply gradient_array_raises in E2. }
  pose proof (gradient_inv _ _ _ _ E1) as (_ & _ & A1).
  pose proof (gradient_inv _ _ _ _ E2) as (_ & _ & A2).
  destruct du as [x|du]; [discriminate|]. destruct dv as [y|dv]; [discriminate|].
  destruct (result (magnitude (Nd du) (Nd dv))) as [e3|ds] eqn:E3.
  { intros [= <-]. now apply magnitude_array_raises in E3. }
  pose proof (magnitude_inv _ _ _ E3) as (_ & _ & A3).
  destruct ds as [z|ds]; [discriminate|].
  unfold np_max, reduce. simpl. destruct (data ds); [now intros [= <-]|].
  discriminate.
Qed.

Lemma wind_shear_normal_array_exn ut ub vt vb cos_a sin_a dz e :
  forallb is_array [ut; ub; vt; vb] = true ->
  result (wind_shear_normal ut ub vt vb cos_a sin_a dz) = inl e ->
  e = ValueError.
Proof.
  intros Ha. destruct (all_arrays _ _ _ _ Ha) as (a & b & c & d & -> & -> & -> & ->).
  unfold result at 1. unfold run. rewrite wind_shear_normal_unfold.
  destruct (result (gradient (Nd a) (Nd b) dz)) as [e1|du] eqn:E1.
  { intros [= <-]. now apply gradient_array_raises in E1. }
  destruct (result (gradient (Nd c) (Nd d) dz)) as [e2|dv] eqn:E2.
  { intros [= <-]. now apply gradient_array_raises in E2. }
  pose proof (gradient_inv _ _ _ _ E1) as (_ & _ & A1).
  pose proof (gradient_inv _ _ _ _ E2) as (_ & _ & A2).
  destruct du as [x|du]; [discriminate|]. destruct dv as [y|dv]; [discriminate|].
  destruct (result (normal_gradient (Nd du) (Nd dv) cos_a sin_a))
    as [e3|dsn] eqn:E3.
  { intros [= <-]. now apply normal_gradient_array_raises in E3. }
  destruct (result (magnitude (Nd du) (Nd dv))) as [e4|ds] eqn:E4.
  { intros [= <-]. now apply magnitude_array_raises in E4. }
  pose proof (normal_gradient_inv _ _ _ _ _ E3) as (_ & _ & A3).
  destruct dsn as [z|dsn]; [discriminate|].
  destruct (result (np_max ds)) as [e5|m] eqn:E5.
  { intros [= <-]. unfold np_max, reduce in E5.
    destruct (data (as_array ds)); [now injection E5 as <-|discriminate]. }
  cbv zeta. destruct (size (shape dsn) =? 0); [now intros [= <-]|discriminate].
Qed.

Lemma binop_mismatch_run py np a b out :
  is_array a || is_array b = true ->
  broadcast_shapes (shape_of a) (shape_of b) = None ->
  binop py np a b out = (inl ValueError, out).
Proof.
  intros Ha H. unfold shape_of in H.
  destruct a as [x|a], b as [y|b]; [discriminate Ha| | |];
    unfold binop, bind, ufunc2; now rewrite H.
Qed.

Lemma gradient_plain a b dz :
  result (gradient (PyFloat a) (PyFloat b) dz) =
  if (dz =? 0)%float then inl ZeroDivisionError
  else inr (PyFloat ((a - b) / dz)%float).
Proof.
  unfold gradient, result, run, py_sub, py_truediv, binop, bind, ret, raise.
  now destruct (dz =? 0)%float.
Qed.

Lemma eqb_lowest c :
  In c shear_options -> (c =? 2e-3)%float = true -> c = 2e-3%float.
Proof. intros [<-|[<-|[<-|[]]]]; try reflexivity; discriminate. Qed.

(* ================================================================== *)
(** * Special values of [dz] and of the wind components                *)
(* ================================================================== *)

(** Every element of a gradient is some number divided by [dz]. *)
Lemma gradient_elements top btm dz g x :
  result (gradient top btm dz) = inr g ->
  In x (data (as_array g)) -> exists e, x = (e / dz)%float.
Proof.
  rewrite result_gradient.
  destruct (result (py_sub top btm)) as [e|d] eqn:E1; [discriminate|].
  intros E2 Hx. pose proof (binop_inv _ _ _ _ _ E2) as (W & S & A).
  destruct g as [z|r].
  - destruct d as [y|d]; [|discriminate A].
    unfold py_truediv, binop, result, run, bind, ret, raise in E2.
    destruct (dz =? 0)%float; [discriminate|]. injection E2 as <-.
    destruct Hx as [<-|[]]. now exists y.
  - simpl in Hx. apply (In_nth _ _ nan) in Hx. destruct Hx as (k & Hk & <-).
    unfold well_formed, shape_of in W. simpl in W. rewrite W in Hk.
    unfold py_truediv in E2. rewrite (binop_nth _ _ _ _ _ _ E2 Hk).
    exists (element_at d (shape r) k). f_equal.
    assert (Hz : size (shape r) <> 0) by lia.
    pose proof (element_at_In (PyFloat dz) (shape_of d) (shape r) k eq_refl
                  (or_intror S) Hz) as H.
    now destruct H as [<-|[]].
Qed.

Lemma gradient_degenerate top btm dz g :
  degenerate dz = true ->
  result (gradient top btm dz) = inr g ->
  Forall (fun x => degenerate x = true) (data (as_array g)).
Proof.
  intros Hd E. apply Forall_forall. intros x Hx.
  destruct (gradient_elements _ _ _ _ _ E Hx) as [e ->].
  now apply FloatDegenerate.div_degenerate.
Qed.

Lemma magnitude_all_degenerate du dv ds :
  result (magnitude du dv) = inr ds ->
  well_formed du -> well_formed dv ->
  Forall (fun x => degenerate x = true) (data (as_array du)) ->
  Forall (fun x => degenerate x = true) (data (as_array dv)) ->
  Forall (fun x => degenerate x = true) (data (as_array ds)).
Proof.
  intros E Wu Wv Fu Fv. pose proof (magnitude_inv _ _ _ E) as (W & S & A).
  rewrite Forall_forall in *.
  destruct ds as [z|a].
  - destruct du as [x|a], dv as [y|b]; try discriminate A.
    rewrite magnitude_plain in E. cbv zeta in E.
    destruct (overflow x _); [discriminate|].
    destruct (overflow y _); [discriminate|].
    destruct (overflow _ _); [discriminate|].
    injection E as <-. intros w [<-|[]].
    apply (powers_degenerate [] [] []); [apply Fu|apply Fv]; now left.
  - intros x Hx. simpl in Hx. apply (In_nth _ _ nan) in Hx.
    destruct Hx as (k & Hk & <-).
    unfold well_formed, shape_of in W. simpl in W. rewrite W in Hk.
    assert (Hz : size (shape a) <> 0) by lia.
    rewrite (magnitude_nth du dv a k E Hk).
    apply powers_degenerate.
    + apply Fu. apply (element_at_In du (shape_of dv)); auto.
    + apply Fv. apply (element_at_In dv (shape_of du)); auto.
Qed.

Lemma np_max_degenerate v m :
  result (np_max v) = inr m ->
  Forall (fun x => degenerate x = true) (data (as_array v)) ->
  degenerate m = true.
Proof.
  intros E F. destruct (np_isnan_any v) eqn:N.
  - change (np_isnan_any v) with (np_isnan_any (Nd (as_array v))) in N.
    change (np_max v) with (np_max (Nd (as_array v))) in E.
    pose proof (np_max_has_nan _ _ E N) as H.
    unfold degenerate. rewrite H. now rewrite orb_true_r.
  - destruct (np_max_is_max _ _ E N) as (H & _).
    rewrite Forall_forall in F. now apply F.
Qed.

(** With a degenerate [dz] the bucket is the lowest one, whatever the NaN
    check says. *)
Lemma degenerate_chosen ut ub vt vb dz ds m (nan_present : bool) :
  degenerate dz = true ->
  result (ds_dz_of ut ub vt vb dz) = inr ds ->
  result (np_max ds) = inr m ->
  chosen nan_present m = 2e-3%float.
Proof.
  intros Hd E Em. destruct nan_present; [reflexivity|]. unfold chosen.
  apply FloatDegenerate.closest_degenerate. apply (np_max_degenerate ds); [assumption|].
  rewrite result_ds_dz_of in E.
  destruct (result (gradient ut ub dz)) as [e|du] eqn:E1; [discriminate|].
  destruct (result (gradient vt vb dz)) as [e|dv] eqn:E2; [discriminate|].
  pose proof (gradient_inv _ _ _ _ E1) as (Wu & _).
  pose proof (gradient_inv _ _ _ _ E2) as (Wv & _).
  apply (magnitude_all_degenerate du dv); auto;
    eapply gradient_degenerate; eauto.
Qed.

(** A NaN in an operand of an operator shows in an array it returns. *)
Lemma operand_nan_array py np a b r :
  (forall x y, is_nan x = true -> is_nan (np x y) = true) ->
  result (binop py np a b) = inr (Nd r) ->
  well_formed a -> size (shape r) <> 0 ->
  np_isnan_any a = true -> np_isnan_any (Nd r) = true.
Proof.
  intros Hnp E Wa Hz Ha.
  pose proof (binop_inv _ _ _ _ _ E) as (Wv & S & _).
  change (shape_of (Nd r)) with (shape r) in S.
  unfold well_formed, shape_of in Wv. simpl in Wv.
  unfold np_isnan_any in *. apply existsb_exists in Ha.
  destruct Ha as (x & Hx & Nx). apply (In_nth _ _ nan) in Hx.
  destruct Hx as (j & Hj & <-). rewrite Wa in Hj.
  destruct (offset_onto (shape_of a) (shape_of b) (shape r) j)
    as (k & Hk & Ek); auto.
  apply existsb_exists. exists (nth k (data r) nan). split.
  - apply nth_In. simpl. now rewrite Wv.
  - rewrite (binop_nth _ _ _ _ _ _ E Hk). apply Hnp.
    unfold element_at, shape_of in *. now rewrite Ek.
Qed.

(** A NaN among the two wind components or in [dz] shows in the gradient. *)
Lemma gradient_nan top btm dz g :
  result (gradient top btm dz) = inr g ->
  well_formed top -> well_formed btm -> size (shape_of g) <> 0 ->
  np_isnan_any top || np_isnan_any btm || is_nan dz = true ->
  np_isnan_any g = true.
Proof.
  intros E Wt Wb Hz H.
  pose proof (gradient_inv _ _ _ _ E) as (Wg & Sg & _).
  destruct (is_nan dz) eqn:Nz.
  { unfold np_isnan_any. unfold well_formed in Wg.
    destruct (data (as_array g)) as [|x xs] eqn:D; [simpl in Wg; lia|].
    destruct (gradient_elements _ _ _ _ x E) as [e ->];
      [rewrite D; now left|].
    simpl. now rewrite FloatDegenerate.div_nan_r. }
  rewrite orb_false_r in H. rewrite result_gradient in E.
  destruct (result (py_sub top btm)) as [e|d] eqn:E1; [discriminate|].
  pose proof (binop_inv _ _ _ _ _ E1) as (Wd & Sd & _).
  pose proof (binop_inv _ _ _ _ _ E) as (_ & S2 & A2).
  change (shape_of (PyFloat dz)) with (@nil nat) in S2.
  rewrite broadcast_shapes_nil_r in S2. injection S2 as S2.
  assert (Nd' : np_isnan_any d = true).
  { apply orb_true_iff in H. destruct H as [H|H].
    - apply (operand_nan_shows PrimFloat.sub top btm); auto.
      + apply FloatArith.sub_nan_l.
      + now rewrite S2.
    - apply (operand_nan_shows_r PrimFloat.sub top btm); auto.
      + apply FloatArith.sub_nan_r.
      + now rewrite S2. }
  destruct g as [z|r].
  - destruct d as [y|d]; [|discriminate A2].
    unfold py_truediv, binop, result, run, bind, ret, raise in E.
    destruct (dz =? 0)%float; [discriminate|]. injection E as <-.
    unfold np_isnan_any in *. simpl in *. rewrite orb_false_r in *.
    now apply FloatDegenerate.div_nan_l.
  - unfold py_truediv in E.
    apply (operand_nan_array _ _ _ _ _ FloatDegenerate.div_nan_l E); auto.
Qed.

(** A NaN in a gradient shows in the magnitude. *)
Lemma magnitude_nan du dv ds :
  result (magnitude du dv) = inr ds ->
  well_formed du -> well_formed dv -> size (shape_of ds) <> 0 ->
  np_isnan_any du || np_isnan_any dv = true ->
  np_isnan_any ds = true.
Proof.
  intros E Wu Wv Hz H. pose proof (magnitude_inv _ _ _ E) as (W & S & A).
  destruct ds as [z|a].
  - destruct du as [x|a], dv as [y|b]; try discriminate A.
    rewrite magnitude_plain in E. cbv zeta in E.
    destruct (overflow x _); [discriminate|].
    destruct (overflow y _); [discriminate|].
    destruct (overflow _ _); [discriminate|].
    injection E as <-. unfold np_isnan_any in *. simpl in *.
    rewrite !orb_false_r in *. apply orb_true_iff in H.
    destruct H; [now apply (powers_nan_l [] [] [])
                |now apply (powers_nan_r [] [] [])].
  - change (shape_of (Nd a)) with (shape a) in *.
    unfold well_formed, shape_of in W. simpl in W.
    assert (G : forall k, k < size (shape a) ->
      is_nan (element_at du (shape a) k) ||
      is_nan (element_at dv (shape a) k) = true ->
      np_isnan_any (Nd a) = true).
    { intros k Hk Hn. unfold np_isnan_any. apply existsb_exists.
      exists (nth k (data a) nan). split.
      - apply nth_In. simpl. now rewrite W.
      - rewrite (magnitude_nth du dv a k E Hk). apply orb_true_iff in Hn.
        destruct Hn; [now apply powers_nan_l
                     |now apply powers_nan_r]. }
    apply orb_true_iff in H. unfold np_isnan_any in H.
    destruct H as [H|H]; apply existsb_exists in H;
      destruct H as (x & Hx & Nx); apply (In_nth _ _ nan) in Hx;
      destruct Hx as (j & Hj & <-).
    + rewrite Wu in Hj.
      destruct (offset_onto (shape_of du) (shape_of dv) (shape a) j)
        as (k & Hk & Ek); auto.
      apply (G k Hk). unfold element_at. unfold shape_of in Ek.
      now rewrite Ek, Nx.
    + rewrite Wv in Hj.
      destruct (offset_onto (shape_of dv) (shape_of du) (shape a) j)
        as (k & Hk & Ek); auto.
      apply (G k Hk). unfold element_at. unfold shape_of in Ek.
      rewrite Ek, Nx. apply orb_true_r.
Qed.

(** A NaN in a gradient or in the axis shows in the signed array. *)
Lemma normal_gradient_nan du dv cos_a sin_a b :
  result (normal_gradient du dv cos_a sin_a) = inr (Nd b) ->
  well_formed du -> well_formed dv ->
  well_formed cos_a -> well_formed sin_a ->
  data b <> [] ->
  np_isnan_any du || np_isnan_any dv ||
  np_isnan_any cos_a || np_isnan_any sin_a = true ->
  np_isnan_any (Nd b) = true.
Proof.
  rewrite result_normal_gradient.
  destruct (result (py_mul dv cos_a)) as [e|dvc] eqn:E1; [discriminate|].
  destruct (result (py_mul du sin_a)) as [e|dus] eqn:E2; [discriminate|].
  intros E3 Wu Wv Wc Ws Hne H.
  pose proof (binop_inv _ _ _ _ _ E1) as (W1 & S1 & _).
  pose proof (binop_inv _ _ _ _ _ E2) as (W2 & S2 & _).
  pose proof (binop_inv _ _ _ _ _ E3) as (W3 & S3 & _).
  pose proof (well_formed_size b W3 Hne) as Hz.
  change (shape_of (Nd b)) with (shape b) in S3.
  pose proof (broadcast_shapes_zero _ _ _ S3) as Z3.
  assert (Z1 : size (shape_of dvc) <> 0) by tauto.
  assert (Z2 : size (shape_of dus) <> 0) by tauto.
  assert (L : np_isnan_any dvc = true -> np_isnan_any (Nd b) = true).
  { intros N. apply (operand_nan_shows PrimFloat.sub dvc dus); auto.
    apply FloatArith.sub_nan_l. }
  assert (R : np_isnan_any dus = true -> np_isnan_any (Nd b) = true).
  { intros N. apply (operand_nan_shows_r PrimFloat.sub dvc dus); auto.
    apply FloatArith.sub_nan_r. }
  repeat (apply orb_true_iff in H; destruct H as [H|H]).
  - apply R. apply (operand_nan_shows PrimFloat.mul du sin_a); auto.
    apply FloatArith.mul_nan_l.
  - apply L. apply (operand_nan_shows PrimFloat.mul dv cos_a); auto.
    apply FloatArith.mul_nan_l.
  - apply L. apply (operand_nan_shows_r PrimFloat.mul dv cos_a); auto.
    apply FloatDegenerate.mul_nan_r.
  - apply R. apply (operand_nan_shows_r PrimFloat.mul du sin_a); auto.
    apply FloatDegenerate.mul_nan_r.
Qed.

(** A NaN in a wind component or in [dz] shows in both gradients' shapes
    being non-empty, in one of the gradients. *)
Lemma gradients_nan ut ub vt vb dz du dv t :
  result (gradient ut ub dz) = inr du ->
  result (gradient vt vb dz) = inr dv ->
  Forall well_formed [ut; ub; vt; vb] ->
  broadcast_shapes (shape_of du) (shape_of dv) = Some t -> size t <> 0 ->
  existsb np_isnan_any [ut; ub; vt; vb] || is_nan dz = true ->
  np_isnan_any du || np_isnan_any dv = true.
Proof.
  intros E1 E2 W S Hz H.
  rewrite Forall_forall in W.
  assert (W1 : well_formed ut) by (apply W; simpl; auto).
  assert (W2 : well_formed ub) by (apply W; simpl; auto).
  assert (W3 : well_formed vt) by (apply W; simpl; auto).
  assert (W4 : well_formed vb) by (apply W; simpl; auto).
  pose proof (broadcast_shapes_zero _ _ _ S) as Z.
  simpl existsb in H. rewrite orb_false_r in H.
  destruct (is_nan dz) eqn:Nz.
  - rewrite (gradient_nan _ _ _ _ E1); auto; [tauto|].
    rewrite Nz. apply orb_true_r.
  - rewrite orb_false_r in H.
    destruct (np_isnan_any ut || np_isnan_any ub) eqn:Nu.
    + rewrite (gradient_nan _ _ _ _ E1); auto; [tauto|]. now rewrite Nu.
    + apply orb_false_iff in Nu. destruct Nu as [N1 N2].
      rewrite N1, N2 in H. simpl in H.
      rewrite (gradient_nan _ _ _ _ E2); auto; [apply orb_true_r|tauto|].
      now rewrite H.
Qed.

(** Elements of the result of an operator, from what holds of the elements
    of its operands. *)
Lemma binop_forall (P Q R : float -> Prop) np a b v :
  (forall x y, P x -> Q y -> R (np x y)) ->
  result (binop (fun x y => ret (np x y)) np a b) = inr v ->
  well_formed a -> well_formed b ->
  Forall P (data (as_array a)) -> Forall Q (data (as_array b)) ->
  Forall R (data (as_array v)).
Proof.
  intros H E Wa Wb Fa Fb. pose proof (binop_inv _ _ _ _ _ E) as (Wv & S & _).
  rewrite Forall_forall in *. intros x Hx.
  apply (In_nth _ _ nan) in Hx. destruct Hx as (k & Hk & <-).
  rewrite Wv in Hk. assert (Hz : size (shape_of v) <> 0) by lia.
  rewrite (binop_nth_value _ _ _ _ _ E Hk). apply H.
  - apply Fa. apply (element_at_In a (shape_of b)); auto.
  - apply Fb. apply (element_at_In b (shape_of a)); auto.
Qed.

(** The gradient between two identical finite levels is zero everywhere. *)
Lemma gradient_same_levels u dz :
  well_formed (Nd u) -> forallb is_finite (data u) = true ->
  (dz =? 0)%float = false -> is_nan dz = false ->
  exists r, result (gradient (Nd u) (Nd u) dz) = inr (Nd r) /\
    shape r = shape u /\
    Forall (fun x => (x =? 0)%float = true) (data r).
Proof.
  intros W F Hz Hn.
  destruct (gradient_array (Nd u) (Nd u) dz (shape u) eq_refl
              (broadcast_shapes_refl (shape u))) as (r & E & S).
  exists r. split; [assumption|]. split; [assumption|].
  pose proof (gradient_inv _ _ _ _ E) as (Wr & _).
  unfold well_formed, shape_of in Wr. simpl in Wr.
  rewrite result_gradient in E.
  destruct (result (py_sub (Nd u) (Nd u))) as [e|d] eqn:E1; [discriminate|].
  pose proof (binop_inv _ _ _ _ _ E1) as (Wd & Sd & Ad).
  destruct d as [y|d]; [discriminate|].
  change (shape_of (Nd d)) with (shape d) in *.
  change (shape_of (Nd u)) with (shape u) in *.
  rewrite broadcast_shapes_refl in Sd. injection Sd as Sd.
  assert (Fd : Forall (fun x => (x =? 0)%float = true) (data d)).
  { apply Forall_forall. intros x Hx. apply (In_nth _ _ nan) in Hx.
    destruct Hx as (k & Hk & <-).
    unfold well_formed, shape_of in Wd. simpl in Wd. rewrite Wd in Hk.
    unfold py_sub in E1. rewrite (binop_nth _ _ _ _ _ _ E1 Hk).
    apply FloatZero.sub_self_zero.
    rewrite forallb_forall in F. apply F.
    apply (element_at_In (Nd u) (shape u)); auto; [|lia].
    left. rewrite <- Sd. apply broadcast_shapes_refl. }
  pose proof (binop_inv _ _ _ _ _ E) as (_ & S2 & _).
  apply Forall_forall. intros x Hx. apply (In_nth _ _ nan) in Hx.
  destruct Hx as (k & Hk & <-). rewrite Wr in Hk.
  unfold py_truediv in E. rewrite (binop_nth _ _ _ _ _ _ E Hk).
  assert (Hs : size (shape r) <> 0) by lia.
  pose proof (element_at_In (PyFloat dz) (shape d) (shape r) k eq_refl
                (or_intror S2) Hs) as H.
  destruct H as [<-|[]].
  apply FloatZero.div_zero; auto.
  rewrite Forall_forall in Fd. apply Fd.
  apply (element_at_In (Nd d) []); auto.
Qed.

(** The magnitude of two gradients that are zero everywhere is zero
    everywhere. *)
Lemma magnitude_of_zeros du dv a :
  result (magnitude (Nd du) (Nd dv)) = inr (Nd a) ->
  well_formed (Nd du) -> well_formed (Nd dv) ->
  Forall (fun x => (x =? 0)%float = true) (data du) ->
  Forall (fun x => (x =? 0)%float = true) (data dv) ->
  Forall (fun x => x = 0%float) (data a).
Proof.
  intros E Wu Wv Fu Fv. pose proof (magnitude_inv _ _ _ E) as (W & S & _).
  unfold well_formed, shape_of in W. simpl in W.
  change (shape_of (Nd a)) with (shape a) in S.
  rewrite Forall_forall in *. intros x Hx.
  apply (In_nth _ _ nan) in Hx. destruct Hx as (k & Hk & <-).
  rewrite W in Hk. assert (Hz : size (shape a) <> 0) by lia.
  rewrite (magnitude_nth _ _ a k E Hk).
  apply powers_zero.
  - apply Fu. apply (element_at_In (Nd du) (shape dv)); auto.
  - apply Fv. apply (element_at_In (Nd dv) (shape du)); auto.
Qed.

Lemma all_zero_no_nan l :
  Forall (fun x => (x =? 0)%float = true) l -> existsb is_nan l = false.
Proof.
  intros F. apply existsb_false. rewrite Forall_forall in F.
  intros x Hx. apply FloatZero.zero_not_nan. now apply F.
Qed.

(* ================================================================== *)
(** * Symmetries                                                       *)
(* ================================================================== *)

(** Addition of doubles commutes. *)
Lemma float_add_comm x y : (x + y = y + x)%float.
Proof.
  apply Prim2SF_inj. rewrite !add_spec. unfold SF64add, SFadd.
  destruct (Prim2SF x) as [[|]|[|]| |sx mx ex];
    destruct (Prim2SF y) as [[|]|[|]| |sy my ey]; try reflexivity.
  cbv zeta. rewrite (Z.min_comm ey ex). f_equal. apply Z.add_comm.
Qed.

Lemma map_combine_swap {A B C : Type} (f : A -> B -> C) l1 : forall l2,
  map (fun p : A * B => f (fst p) (snd p)) (combine l1 l2) =
  map (fun p : B * A => f (snd p) (fst p)) (combine l2 l1).
Proof.
  induction l1 as [|a l1 IH]; intros [|b l2]; simpl; try reflexivity.
  now rewrite IH.
Qed.

Lemma py_add_comm a b : py_add a b = py_add b a.
Proof.
  assert (G : forall a b : ndarray float,
    ufunc2 PrimFloat.add a b = ufunc2 PrimFloat.add b a).
  { intros p q. unfold ufunc2.
    rewrite (broadcast_opt_comm (Some (shape q)) (Some (shape p))
             : broadcast_shapes (shape q) (shape p) = _).
    cbn [broadcast_opt].
    destruct (broadcast_shapes (shape p) (shape q)) as [sh|]; [|reflexivity].
    do 2 f_equal. rewrite map_combine_swap. apply map_ext.
    intros [u v]. apply float_add_comm. }
  unfold py_add, binop.
  destruct a as [x|a], b as [y|b]; try now rewrite G.
  now rewrite float_add_comm.
Qed.

(** The magnitude does not depend on the order of the two gradients. *)
Lemma magnitude_comm du dv : result (magnitude du dv) = result (magnitude dv du).
Proof.
  rewrite !result_magnitude.
  destruct (result (py_pow_2 du)) as [e1|du2] eqn:E1;
    destruct (result (py_pow_2 dv)) as [e2|dv2] eqn:E2;
    try reflexivity.
  - destruct du as [x|a]; [|discriminate]. destruct dv as [y|b]; [|discriminate].
    simpl in E1, E2. unfold float_pow_2 in E1, E2.
    destruct (overflow x _) in E1; [|discriminate].
    destruct (overflow y _) in E2; [|discriminate].
    unfold result, run, bind, raise in E1, E2. simpl in E1, E2. congruence.
  - now rewrite py_add_comm.
Qed.

Lemma Forall2_nth_default {A : Type} (R : A -> A -> Prop) d l l' :
  R d d -> Forall2 R l l' -> forall j, R (nth j l d) (nth j l' d).
Proof.
  intros Hd F. induction F as [|x y l l' Hxy F IH]; intros [|j]; simpl; auto.
Qed.

Lemma Forall2_map_seq {A : Type} (R : A -> A -> Prop) (f g : nat -> A) n :
  (forall k, R (f k) (g k)) -> forall s, Forall2 R (map f (seq s n)) (map g (seq s n)).
Proof.
  intros H. induction n as [|n IH]; intros s; simpl; constructor; auto.
Qed.

Lemma Forall2_same {A : Type} (R : A -> A -> Prop) l :
  (forall x, R x x) -> Forall2 R l l.
Proof. intros H. induction l; constructor; auto. Qed.

(** A ufunc on operands related element by element. *)
Lemma ufunc2_related (R1 R2 R : float -> float -> Prop) f f' a a' b b' :
  R1 nan nan -> R2 nan nan ->
  (forall x x' y y', R1 x x' -> R2 y y' -> R (f x y) (f' x' y')) ->
  shape a = shape a' -> Forall2 R1 (data a) (data a') ->
  shape b = shape b' -> Forall2 R2 (data b) (data b') ->
  both (fun r r' => shape r = shape r' /\ Forall2 R (data r) (data r'))
    (result (ufunc2 f a b)) (result (ufunc2 f' a' b')).
Proof.
  intros N1 N2 H Sa Fa Sb Fb. unfold ufunc2. rewrite <- Sa, <- Sb.
  destruct (broadcast_shapes (shape a) (shape b)) as [sh|]; [|reflexivity].
  simpl. split; [reflexivity|]. unfold broadcast_to.
  rewrite !combine_map, !map_map, <- Sa, <- Sb.
  apply Forall2_map_seq. intros k. simpl. apply H.
  - now apply Forall2_nth_default.
  - now apply Forall2_nth_default.
Qed.

Lemma ufunc2_swap f a b :
  ufunc2 f b a = ufunc2 (fun x y => f y x) a b.
Proof.
  unfold ufunc2.
  rewrite (broadcast_opt_comm (Some (shape b)) (Some (shape a))
           : broadcast_shapes (shape b) (shape a) = _).
  cbn [broadcast_opt].
  destruct (broadcast_shapes (shape a) (shape b)) as [sh|]; [|reflexivity].
  do 2 f_equal. apply map_combine_swap.
Qed.

Lemma result_lift (m : Py (ndarray float)) :
  result (r <- m ;; ret (Nd r)) =
  match result m with inl e => inl e | inr r => inr (Nd r) end.
Proof.
  unfold result, run, bind, ret. now destruct (m []) as [[e|r] o].
Qed.

(** A binary operator on operands related element by element. *)
Lemma binop_related (R1 R2 R : float -> float -> Prop) py py' np np' a a' b b' :
  R1 nan nan -> R2 nan nan ->
  (forall x x' y y', R1 x x' -> R2 y y' -> R (np x y) (np' x' y')) ->
  (forall x x' y y', R1 x x' -> R2 y y' ->
     both R (result (py x y)) (result (py' x' y'))) ->
  related R1 a a' -> related R2 b b' ->
  both (related R) (result (binop py np a b)) (result (binop py' np' a' b')).
Proof.
  intros N1 N2 Hnp Hpy (Aa & Sa & Fa) (Ab & Sb & Fb).
  assert (G : forall a a' b b',
    shape (as_array a) = shape (as_array a') ->
    Forall2 R1 (data (as_array a)) (data (as_array a')) ->
    shape (as_array b) = shape (as_array b') ->
    Forall2 R2 (data (as_array b)) (data (as_array b')) ->
    both (related R)
      (result (r <- ufunc2 np (as_array a) (as_array b) ;; ret (Nd r)))
      (result (r <- ufunc2 np' (as_array a') (as_array b') ;; ret (Nd r)))).
  { intros u u' w w' Su Fu Sw Fw. rewrite !result_lift.
    pose proof (ufunc2_related R1 R2 R np np' _ _ _ _ N1 N2 Hnp Su Fu Sw Fw)
      as U.
    destruct (result (ufunc2 np (as_array u) (as_array w))) as [e|r],
      (result (ufunc2 np' (as_array u') (as_array w'))) as [e'|r'];
      try exact U.
    destruct U as [U1 U2]. repeat split; assumption. }
  destruct a as [x|a], a' as [x'|a']; try discriminate Aa;
    destruct b as [y|b], b' as [y'|b']; try discriminate Ab;
    [| exact (G (PyFloat x) (PyFloat x') (Nd b) (Nd b') Sa Fa Sb Fb)
     | exact (G (Nd a) (Nd a') (PyFloat y) (PyFloat y') Sa Fa Sb Fb)
     | exact (G (Nd a) (Nd a') (Nd b) (Nd b') Sa Fa Sb Fb)].
  simpl binop. inversion_clear Fa as [|? ? ? ? Rx _].
  inversion_clear Fb as [|? ? ? ? Ry _].
  specialize (Hpy x x' y y' Rx Ry). unfold result, run, bind, ret in *.
  destruct (py x y []) as [[e|z] o], (py' x' y' []) as [[e'|z'] o'];
    simpl in *; try exact Hpy.
  repeat split. now repeat constructor.
Qed.

Lemma related_refl (R : float -> float -> Prop) v :
  (forall x, R x x) -> related R v v.
Proof. intros H. repeat split. now apply Forall2_same. Qed.

Lemma py_sub_swap a b : result (py_sub b a) =
  result (binop (fun x y => ret (y - x)%float) (fun x y => (y - x)%float) a b).
Proof.
  unfold py_sub, binop.
  destruct a as [x|a], b as [y|b]; try reflexivity;
    now rewrite !result_lift, ufunc2_swap.
Qed.

(** Exchanging the two levels mirrors the gradient. *)
Lemma gradient_exchanged top btm dz :
  both (related mirror) (result (gradient top btm dz))
    (result (gradient btm top dz)).
Proof.
  rewrite !result_gradient, (py_sub_swap top btm).
  assert (D : both (related mirror) (result (py_sub top btm))
                (result (binop (fun x y => ret (y - x)%float)
                           (fun x y => (y - x)%float) top btm))).
  { apply (binop_related eq eq mirror); auto;
      try (intros; subst; apply FloatMirror.sub_mirror);
      apply related_refl; reflexivity. }
  revert D.
  destruct (result (py_sub top btm)) as [e|d],
    (result (binop _ (fun x y => (y - x)%float) top btm)) as [e'|d'];
    simpl; intros D; try contradiction; try exact D.
  unfold py_truediv.
  apply (binop_related mirror eq mirror); auto.
  - apply FloatMirror.mirror_nan.
  - intros x x' y y' Hx <-. now apply FloatMirror.div_mirror.
  - intros x x' y y' Hx <-. destruct (y =? 0)%float; [reflexivity|].
    now apply FloatMirror.div_mirror.
  - apply related_refl. reflexivity.
Qed.

(** Negating [dz] mirrors the gradient. *)
Lemma gradient_negated top btm dz :
  both (related mirror) (result (gradient top btm dz))
    (result (gradient top btm (- dz))).
Proof.
  rewrite !result_gradient.
  destruct (result (py_sub top btm)) as [e|d]; [reflexivity|].
  unfold py_truediv.
  apply (binop_related eq (fun y y' => y' = (- y)%float) mirror); auto.
  - intros x x' y y' <- ->. apply FloatMirror.div_opp_mirror.
  - intros x x' y y' <- ->. rewrite FloatMirror.eqb_zero_opp.
    destruct (y =? 0)%float; [reflexivity|]. apply FloatMirror.div_opp_mirror.
  - apply related_refl. reflexivity.
  - repeat split. repeat constructor.
Qed.

(** A square does not see the sign: with an even [pow] also where the square
    is taken by [pow]. *)
Lemma power_2_mirror sh x x' : mirror x x' -> power_2 sh x' = power_2 sh x.
Proof. intros [->|[-> _]]; [apply power_2_even|reflexivity]. Qed.

Lemma float_pow_2_mirror x x' : mirror x x' -> float_pow_2 x' = float_pow_2 x.
Proof.
  intros H. unfold float_pow_2, overflow.
  pose proof (power_2_mirror [] _ _ H) as P. simpl in P. rewrite P.
  apply FloatMirror.abs_mirror in H.
  now rewrite (FloatMirror.is_infinity_abs _ _ H).
Qed.

Lemma py_pow_2_mirrored v v' : related mirror v v' -> py_pow_2 v' = py_pow_2 v.
Proof.
  intros (A & S & F). destruct v as [x|a], v' as [x'|a']; try discriminate A.
  - simpl. inversion_clear F as [|? ? ? ? Rx _].
    now rewrite (float_pow_2_mirror _ _ Rx).
  - simpl in *. unfold shape_of in S. simpl in S. unfold map_nd.
    rewrite <- S. do 3 f_equal.
    induction F as [|x y l l' Hxy F IH]; [reflexivity|]. simpl.
    rewrite IH. f_equal. now apply power_2_mirror.
Qed.

(** The magnitude of mirrored gradients is the same. *)
Lemma magnitude_mirrored du du' dv dv' :
  related mirror du du' -> related mirror dv dv' ->
  result (magnitude du' dv') = result (magnitude du dv).
Proof.
  intros Hu Hv. rewrite !result_magnitude.
  now rewrite (py_pow_2_mirrored _ _ Hu), (py_pow_2_mirrored _ _ Hv).
Qed.

Lemma ds_dz_of_mirrored ut ub vt vb dz ut' ub' vt' vb' dz' :
  both (related mirror) (result (gradient ut ub dz))
    (result (gradient ut' ub' dz')) ->
  both (related mirror) (result (gradient vt vb dz))
    (result (gradient vt' vb' dz')) ->
  result (ds_dz_of ut' ub' vt' vb' dz') = result (ds_dz_of ut ub vt vb dz).
Proof.
  intros Hu Hv. rewrite !result_ds_dz_of.
  destruct (result (gradient ut ub dz)) as [e1|du],
    (result (gradient ut' ub' dz')) as [e1'|du']; try contradiction.
  - simpl in Hu. now subst.
  - destruct (result (gradient vt vb dz)) as [e2|dv],
      (result (gradient vt' vb' dz')) as [e2'|dv']; try contradiction.
    + simpl in Hv. now subst.
    + now apply magnitude_mirrored.
Qed.

Lemma related_same_nan v v' :
  related same_nan v v' -> np_isnan_any v' = np_isnan_any v.
Proof.
  intros (_ & _ & F). unfold np_isnan_any.
  induction F as [|x y l l' Hxy F IH]; [reflexivity|]. simpl.
  now rewrite IH, Hxy.
Qed.

(** The signed array of mirrored gradients has the same shape and holds a
    NaN on both sides or on none. *)
Lemma normal_gradient_mirrored du du' dv dv' cos_a sin_a :
  related mirror du du' -> related mirror dv dv' ->
  both (related same_nan) (result (normal_gradient du dv cos_a sin_a))
    (result (normal_gradient du' dv' cos_a sin_a)).
Proof.
  intros Hu Hv. rewrite !result_normal_gradient.
  assert (P : forall g g', related mirror g g' -> forall c,
    both (related mirror) (result (py_mul g c)) (result (py_mul g' c))).
  { intros g g' Hg c. apply (binop_related mirror eq mirror); auto.
    - apply FloatMirror.mirror_nan.
    - intros x x' y y' Hx <-. now apply FloatMirror.mul_mirror.
    - intros x x' y y' Hx <-. now apply FloatMirror.mul_mirror.
    - apply related_refl. reflexivity. }
  pose proof (P dv dv' Hv cos_a) as P1. pose proof (P du du' Hu sin_a) as P2.
  destruct (result (py_mul dv cos_a)) as [e1|p],
    (result (py_mul dv' cos_a)) as [e1'|p']; try contradiction;
    [exact P1|].
  destruct (result (py_mul du sin_a)) as [e2|q],
    (result (py_mul du' sin_a)) as [e2'|q']; try contradiction;
    [exact P2|].
  apply (binop_related mirror mirror same_nan); auto;
    try apply FloatMirror.mirror_nan;
    intros x x' y y' Hx Hy; now apply FloatMirror.sub_mirror_nan.
Qed.

Lemma wind_shear_normal_mirrored ut ub vt vb dz ut' ub' vt' vb' dz' cos_a sin_a :
  both (related mirror) (result (gradient ut ub dz))
    (result (gradient ut' ub' dz')) ->
  both (related mirror) (result (gradient vt vb dz))
    (result (gradient vt' vb' dz')) ->
  run (wind_shear_normal ut' ub' vt' vb' cos_a sin_a dz') =
  run (wind_shear_normal ut ub vt vb cos_a sin_a dz).
Proof.
  intros Hu Hv. unfold run. rewrite !wind_shear_normal_unfold.
  destruct (result (gradient ut ub dz)) as [e1|du],
    (result (gradient ut' ub' dz')) as [e1'|du']; try contradiction.
  { simpl in Hu. now subst. }
  destruct (result (gradient vt vb dz)) as [e2|dv],
    (result (gradient vt' vb' dz')) as [e2'|dv']; try contradiction.
  { simpl in Hv. now subst. }
  pose proof (normal_gradient_mirrored du du' dv dv' cos_a sin_a Hu Hv) as Hn.
  rewrite (magnitude_mirrored du du' dv dv' Hu Hv).
  destruct (result (normal_gradient du dv cos_a sin_a)) as [e3|dsn],
    (result (normal_gradient du' dv' cos_a sin_a)) as [e3'|dsn'];
    try contradiction.
  { simpl in Hn. now subst. }
  simpl in Hn. pose proof (related_same_nan _ _ Hn) as N.
  destruct Hn as (A & S & _).
  destruct (result (magnitude du dv)) as [e4|ds]; [reflexivity|].
  destruct (result (np_max ds)) as [e5|m]; [reflexivity|].
  cbv zeta. rewrite N.
  destruct dsn as [x|a], dsn' as [x'|a']; try discriminate A; [reflexivity|].
  unfold shape_of in S. simpl in S. now rewrite S.
Qed.

Lemma related_py_neg v : related opposite v (py_neg v).
Proof.
  destruct v as [x|a]; repeat split; simpl.
  - now repeat constructor.
  - induction (data a); constructor; [reflexivity|assumption].
Qed.

(** Reversing the axis mirrors both products, so the signed array holds a
    NaN on both sides or on none. *)
Lemma normal_gradient_reversed du dv cos_a sin_a :
  both (related same_nan) (result (normal_gradient du dv cos_a sin_a))
    (result (normal_gradient du dv (py_neg cos_a) (py_neg sin_a))).
Proof.
  rewrite !result_normal_gradient.
  assert (P : forall g c,
    both (related mirror) (result (py_mul g c)) (result (py_mul g (py_neg c)))).
  { intros g c. apply (binop_related eq opposite mirror); auto.
    - reflexivity.
    - intros x x' y y' <- ->. apply FloatMirror.mul_opp_mirror.
    - intros x x' y y' <- ->. apply FloatMirror.mul_opp_mirror.
    - apply related_refl. reflexivity.
    - apply related_py_neg. }
  pose proof (P dv cos_a) as P1. pose proof (P du sin_a) as P2.
  destruct (result (py_mul dv cos_a)) as [e1|p],
    (result (py_mul dv (py_neg cos_a))) as [e1'|p']; try contradiction;
    [exact P1|].
  destruct (result (py_mul du sin_a)) as [e2|q],
    (result (py_mul du (py_neg sin_a))) as [e2'|q']; try contradiction;
    [exact P2|].
  apply (binop_related mirror mirror same_nan); auto;
    try apply FloatMirror.mirror_nan;
    intros x x' y y' Hx Hy; now apply FloatMirror.sub_mirror_nan.
Qed.

(* ================================================================== *)
(** * Properties of the module                                         *)
(* ================================================================== *)

(** C1.  [wind_shear_enhancement_factor] never returns anything but the
    plain float 1.0, and it does return it, printing nothing, for every
    contrail depth array (zeros included) and every resolution and exponent
    whose shapes broadcast with it: the factor of eq. (39) is computed and
    dropped. *)
Theorem enhancement_factor_is_one
  (npy_pow : float -> float -> float) (float_pow : float -> float -> Py float)
  (contrail_depth : ndarray float)
  (effective_vertical_resolution wind_shear_enhancement_exponent : value) :
  (forall v,
     result (wind_shear_enhancement_factor npy_pow float_pow contrail_depth
               effective_vertical_resolution wind_shear_enhancement_exponent)
     = inr v -> v = PyFloat 1.0) /\
  (broadcast_all
     [shape_of effective_vertical_resolution; shape contrail_depth;
      shape_of wind_shear_enhancement_exponent] <> None ->
   run (wind_shear_enhancement_factor npy_pow float_pow contrail_depth
          effective_vertical_resolution wind_shear_enhancement_exponent)
   = (inr (PyFloat 1.0), [])).
Proof.
  split.
  - intros v. unfold result, run, wind_shear_enhancement_factor, bind.
    destruct (py_truediv _ _ _) as [[e|ratio] o1]; [discriminate|].
    destruct (py_pow _ _ _ _ _) as [[e|p] o2]; [discriminate|].
    destruct (py_add _ _ _) as [[e|s] o3]; [discriminate|].
    destruct (py_mul _ _ _) as [[e|f] o4]; [discriminate|].
    now intros [= <-].
  - intros H. unfold broadcast_all in H. cbn [fold_left] in H.
    rewrite broadcast_opt_nil_l in H. cbn [broadcast_opt] in H.
    destruct (broadcast_shapes (shape_of effective_vertical_resolution)
                (shape contrail_depth)) as [s1|] eqn:B1; [|now elim H].
    destruct (broadcast_shapes s1 (shape_of wind_shear_enhancement_exponent))
      as [s2|] eqn:B2; [clear H|now elim H].
    unfold run, wind_shear_enhancement_factor, bind.
    destruct (binop_array_run
                (fun x y => if (y =? 0)%float then raise ZeroDivisionError
                            else ret (x / y)%float) PrimFloat.div
                effective_vertical_resolution (Nd contrail_depth) s1 [])
      as (ratio & E1 & <-); [apply orb_true_r|exact B1|].
    change (binop _ PrimFloat.div _ _) with
      (py_truediv effective_vertical_resolution (Nd contrail_depth)) in E1.
    rewrite E1.
    destruct (binop_array_run float_pow npy_pow (Nd ratio)
                wind_shear_enhancement_exponent s2 [])
      as (p & E2 & <-); [reflexivity|exact B2|].
    unfold py_pow. rewrite E2.
    destruct (binop_array_run (fun x y => ret (x + y)%float) PrimFloat.add
                (PyFloat 1.0) (Nd p) (shape p) [])
      as (s & E3 & _); [reflexivity|apply broadcast_shapes_nil_l|].
    change (binop _ PrimFloat.add _ _) with (py_add (PyFloat 1.0) (Nd p)) in E3.
    rewrite E3.
    destruct (binop_array_run (fun x y => ret (x * y)%float) PrimFloat.mul
                (PyFloat 0.5) (Nd s) (shape s) [])
      as (f & E4 & _); [reflexivity|apply broadcast_shapes_nil_l|].
    change (binop _ PrimFloat.mul _ _) with (py_mul (PyFloat 0.5) (Nd s)) in E4.
    rewrite E4. reflexivity.
Qed.

(** C2.  Whenever [wind_shear] returns, it returns the magnitude array's
    shape filled with one positive candidate; whenever [wind_shear_normal]
    returns, it returns the signed array's shape filled with the negative of
    one candidate.  In both the candidate is [chosen] from two scalars only:
    the maximum of the magnitude array and whether the governing array holds
    a NaN. *)
Theorem constant_fill ut ub vt vb cos_a sin_a dz :
  (forall v, result (wind_shear ut ub vt vb dz) = inr v ->
     exists a m,
       result (ds_dz_of ut ub vt vb dz) = inr (Nd a) /\
       result (np_max (Nd a)) = inr m /\
       let c := chosen (np_isnan_any (Nd a)) m in
       In c shear_options /\ (0 <? c)%float = true /\
       v = Nd (mk_nd (shape a) (repeat c (size (shape a))))) /\
  (forall v, result (wind_shear_normal ut ub vt vb cos_a sin_a dz) = inr v ->
     exists a ds m,
       result (dsn_dz_of ut ub vt vb cos_a sin_a dz) = inr (Nd a) /\
       result (ds_dz_of ut ub vt vb dz) = inr ds /\
       result (np_max ds) = inr m /\
       let c := chosen (np_isnan_any (Nd a)) m in
       In c shear_options /\ (0 <? c)%float = true /\
       v = Nd (mk_nd (shape a) (repeat (- c)%float (size (shape a))))).
Proof.
  split; intros v H.
  - apply wind_shear_returns in H. destruct H as (a & m & E1 & E2 & ->).
    exists a, m. pose proof (chosen_In (np_isnan_any (Nd a)) m) as Hc.
    repeat split; try assumption. now apply shear_options_positive.
  - apply wind_shear_normal_returns in H.
    destruct H as (a & ds & m & E1 & E2 & E3 & _ & ->).
    exists a, ds, m. pose proof (chosen_In (np_isnan_any (Nd a)) m) as Hc.
    repeat split; try assumption. now apply shear_options_positive.
Qed.


(** C4, as the code has it.  A NaN in the magnitude array [ds_dz] makes
    [wind_shear] return the array filled with 0.002, whatever the maximum
    is, and raise nothing.  A NaN in the signed array [dsn_dz] makes
    [wind_shear_normal] return the array filled with -0.002 provided the
    magnitude of line 90, which comes before the check, raises nothing; it
    raises nothing whenever the wind components are arrays. *)
Theorem nan_forces_lowest_bucket ut ub vt vb cos_a sin_a dz :
  (forall a,
     result (ds_dz_of ut ub vt vb dz) = inr (Nd a) ->
     np_isnan_any (Nd a) = true ->
     run (wind_shear ut ub vt vb dz) =
       (inr (Nd (np_full (shape a) 2e-3%float)), [Shear 2e-3%float])) /\
  (forall a,
     result (dsn_dz_of ut ub vt vb cos_a sin_a dz) = inr (Nd a) ->
     np_isnan_any (Nd a) = true ->
     (exists ds, result (ds_dz_of ut ub vt vb dz) = inr ds) \/
     forallb is_array [ut; ub; vt; vb] = true ->
     run (wind_shear_normal ut ub vt vb cos_a sin_a dz) =
       (inr (Nd (np_full (shape a) (- 2e-3)%float)),
        [Removed_NaN; NORMAL_shear (- 2e-3)%float])).
Proof.
  split.
  - intros a E1 Hn.
    destruct (np_max_total (Nd a) (np_isnan_any_nonempty a Hn)) as [m E2].
    rewrite (wind_shear_result _ _ _ _ _ a m E1 E2). now rewrite Hn.
  - intros a E1 Hn Hds.
    assert (E2 : exists ds, result (ds_dz_of ut ub vt vb dz) = inr ds).
    { destruct Hds as [?|Ha]; [assumption|].
      now apply (magnitude_exists _ _ _ _ cos_a sin_a dz (Nd a)). }
    destruct E2 as [ds E2].
    pose proof (np_isnan_any_nonempty a Hn) as Hne.
    assert (E3 : exists m, result (np_max ds) = inr m).
    { rewrite result_dsn_dz_of in E1. rewrite result_ds_dz_of in E2.
      destruct (result (gradient ut ub dz)) as [e|du]; [discriminate|].
      destruct (result (gradient vt vb dz)) as [e|dv]; [discriminate|].
      eapply normal_max_total; eauto. }
    destruct E3 as [m E3].
    rewrite (wind_shear_normal_result _ _ _ _ _ _ _ a ds m E1 E2 E3 Hne).
    now rewrite Hn.
Qed.

(** C5, as the code has it.  The array [wind_shear] returns has the
    broadcast shape of the four wind components.  The array
    [wind_shear_normal] returns has the shape of [dsn_dz], which is the
    broadcast shape of the four wind components together with [cos_a] and
    [sin_a].  With arrays for the wind components both functions do return
    whenever that shape exists and is not empty. *)
Theorem result_shape ut ub vt vb cos_a sin_a dz :
  (forall v, result (wind_shear ut ub vt vb dz) = inr v ->
     exists r, v = Nd r /\
       broadcast_all (map shape_of [ut; ub; vt; vb]) = Some (shape r)) /\
  (forall v, result (wind_shear_normal ut ub vt vb cos_a sin_a dz) = inr v ->
     exists r, v = Nd r /\
       broadcast_all (map shape_of [ut; ub; vt; vb; cos_a; sin_a]) =
       Some (shape r)) /\
  (forall s,
     forallb is_array [ut; ub; vt; vb] = true ->
     broadcast_all (map shape_of [ut; ub; vt; vb]) = Some s ->
     size s <> 0 ->
     exists r, result (wind_shear ut ub vt vb dz) = inr (Nd r) /\ shape r = s) /\
  (forall s,
     forallb is_array [ut; ub; vt; vb] = true ->
     broadcast_all (map shape_of [ut; ub; vt; vb; cos_a; sin_a]) = Some s ->
     size s <> 0 ->
     exists r,
       result (wind_shear_normal ut ub vt vb cos_a sin_a dz) = inr (Nd r) /\
       shape r = s).
Proof.
  split; [|split; [|split]].
  - intros v H. apply wind_shear_returns in H.
    destruct H as (a & m & E1 & _ & ->). eexists. split; [reflexivity|].
    now apply wind_shear_shape in E1.
  - intros v H. apply wind_shear_normal_returns in H.
    destruct H as (a & ds & m & E1 & _ & _ & _ & ->).
    eexists. split; [reflexivity|]. now apply wind_shear_normal_shape in E1.
  - intros s. apply wind_shear_total.
  - intros s. apply wind_shear_normal_total.
Qed.

(** C6.  The two worked examples: every intermediate value and both
    results. *)
Theorem worked_examples :
  result (gradient example_u_top example_zero 1000) =
    inr (Nd (mk_nd [2] [0.005; 0.01]%float)) /\
  result (gradient example_zero example_zero 1000) =
    inr (Nd (mk_nd [2] [0; 0]%float)) /\
  result (ds_dz_of example_u_top example_zero example_zero example_zero 1000) =
    inr (Nd (mk_nd [2] [0.005; 0.01]%float)) /\
  result (np_max (Nd (mk_nd [2] [0.005; 0.01]%float))) = inr 0.01%float /\
  abs_distance shear_options 0.01 = [0.008; 0.006; 0.004]%float /\
  result (select_shear 0.01) = inr 6e-3%float /\
  result (wind_shear example_u_top example_zero example_zero example_zero 1000) =
    inr (Nd (mk_nd [2] [6e-3; 6e-3]%float)) /\
  result (dsn_dz_of example_u_top example_zero example_zero example_zero
            (PyFloat 1) (PyFloat 0) 1000) =
    inr (Nd (mk_nd [2] [0; 0]%float)) /\
  np_isnan_any (Nd (mk_nd [2] [0; 0]%float)) = false /\
  result (wind_shear_normal example_u_top example_zero example_zero
            example_zero (PyFloat 1) (PyFloat 0) 1000) =
    inr (Nd (mk_nd [2] [- 6e-3; - 6e-3]%float)).
Proof. repeat split; vm_compute; reflexivity. Qed.

(** C7.  The loop of lines 98-99 (and 163-164) collects three identical
    rows [|candidates - shear_max|]; the flattened arg-min over that matrix
    is the arg-min of one row, and the selection built on the matrix returns
    the same bucket as the selection built on a single distance vector, for
    every value of [shear_max], NaN and the infinities included. *)
Theorem select_shear_single_argmin (shear_max : float) :
  let d := abs_distance shear_options shear_max in
  let rows :=
    fold_left (fun acc (shear : float) => acc ++ [d]) shear_options [] in
  rows = [d; d; d] /\
  result (np_argmin (np_array_2d rows)) = result (np_argmin (mk_nd [3] d)) /\
  select_shear shear_max = select_shear_single shear_max /\
  result (select_shear shear_max) = inr (closest shear_max).
Proof.
  cbv zeta. split; [reflexivity|]. split; [|split].
  - rewrite shear_distance_rows.
    change (result (np_argmin (np_array_2d _))) with
      (@inr exn nat
         (argmin (abs_distance shear_options shear_max ++
                  abs_distance shear_options shear_max ++
                  abs_distance shear_options shear_max ++ []))).
    now rewrite app_nil_r, argmin_rows.
  - now rewrite select_shear_closest, select_shear_single_closest.
  - now rewrite select_shear_closest.
Qed.

(** C8.  Plain Python floats for every argument: both functions raise,
    whatever the numbers and whatever [pow] gives, because the float they
    compute has no [shape]; on the inputs of the first worked example taken
    as scalars, where a correctly rounded [pow] does not overflow, the
    exception is [AttributeError]. *)
Theorem plain_floats_raise (u_top u_btm v_top v_btm cos_a sin_a dz : float) :
  (exists e,
     result (wind_shear (PyFloat u_top) (PyFloat u_btm) (PyFloat v_top)
               (PyFloat v_btm) dz) = inl e) /\
  (exists e,
     result (wind_shear_normal (PyFloat u_top) (PyFloat u_btm) (PyFloat v_top)
               (PyFloat v_btm) (PyFloat cos_a) (PyFloat sin_a) dz) = inl e) /\
  result (wind_shear (libm := rounded_pow) (PyFloat 5) (PyFloat 0) (PyFloat 0)
            (PyFloat 0) 1000) = inl AttributeError /\
  result (wind_shear_normal (libm := rounded_pow) (PyFloat 5) (PyFloat 0)
            (PyFloat 0) (PyFloat 0) (PyFloat 1) (PyFloat 0) 1000) =
  inl AttributeError.
Proof.
  split; [|split; [|split; reflexivity]].
  - unfold result at 1. unfold run. rewrite wind_shear_unfold.
    rewrite result_ds_dz_of.
    destruct (result (gradient (PyFloat u_top) (PyFloat u_btm) dz))
      as [e|du] eqn:E1; [now exists e|].
    destruct (result (gradient (PyFloat v_top) (PyFloat v_btm) dz))
      as [e|dv] eqn:E2; [now exists e|].
    destruct (result (magnitude du dv)) as [e|ds] eqn:E3; [now exists e|].
    destruct (result (np_max ds)) as [e|m]; [now exists e|].
    apply gradient_inv in E1, E2. apply magnitude_inv in E3.
    destruct E1 as (_ & _ & A1), E2 as (_ & _ & A2), E3 as (_ & _ & A3).
    rewrite A1, A2 in A3. destruct ds as [x|a]; [|discriminate].
    now exists AttributeError.
  - unfold result at 1. unfold run. rewrite wind_shear_normal_unfold.
    destruct (result (gradient (PyFloat u_top) (PyFloat u_btm) dz))
      as [e|du] eqn:E1; [now exists e|].
    destruct (result (gradient (PyFloat v_top) (PyFloat v_btm) dz))
      as [e|dv] eqn:E2; [now exists e|].
    destruct (result (normal_gradient du dv (PyFloat cos_a) (PyFloat sin_a)))
      as [e|dsn] eqn:E3; [now exists e|].
    destruct (result (magnitude du dv)) as [e|ds]; [now exists e|].
    destruct (result (np_max ds)) as [e|m]; [now exists e|].
    apply gradient_inv in E1, E2. apply normal_gradient_inv in E3.
    destruct E1 as (_ & _ & A1), E2 as (_ & _ & A2), E3 as (_ & _ & A3).
    rewrite A1, A2 in A3. destruct dsn as [x|a]; [|discriminate].
    now exists AttributeError.
Qed.

(** C9, as the code has it.  With plain floats for [cos_a] and [sin_a],
    [wind_shear_normal] is the elementwise negation of [wind_shear] (and
    raises what [wind_shear] raises) provided that, whenever the NaN check on
    [dsn_dz] fires, the candidate closest to the magnitude maximum is 0.002
    anyway.  That is so when [ds_dz] holds a NaN and when the maximum is
    infinite. *)
Theorem normal_is_negated ut ub vt vb dz (cos_a sin_a : float) :
  ((forall dsn ds m,
      result (dsn_dz_of ut ub vt vb (PyFloat cos_a) (PyFloat sin_a) dz) = inr dsn ->
      result (ds_dz_of ut ub vt vb dz) = inr ds ->
      result (np_max ds) = inr m ->
      np_isnan_any dsn = true -> closest m = 2e-3%float) ->
   result (wind_shear_normal ut ub vt vb (PyFloat cos_a) (PyFloat sin_a) dz) =
   negated (result (wind_shear ut ub vt vb dz))) /\
  (forall a m,
     result (np_max (Nd a)) = inr m ->
     np_isnan_any (Nd a) = true \/ is_infinity m = true ->
     closest m = 2e-3%float).
Proof.
  split.
  - intros H. unfold result at 1 2. unfold run.
    rewrite wind_shear_normal_unfold, wind_shear_unfold.
    rewrite result_dsn_dz_of, result_ds_dz_of in H. rewrite result_ds_dz_of.
    destruct (result (gradient ut ub dz)) as [e|du]; [reflexivity|].
    destruct (result (gradient vt vb dz)) as [e|dv]; [reflexivity|].
    destruct (result (normal_gradient du dv (PyFloat cos_a) (PyFloat sin_a)))
      as [e|dsn] eqn:E1.
    { now rewrite (normal_gradient_raises _ _ _ _ _ E1). }
    destruct (result (magnitude du dv)) as [e|ds] eqn:E2; [reflexivity|].
    destruct (result (np_max ds)) as [e|m] eqn:E3; [reflexivity|].
    destruct (normal_gradient_like_magnitude _ _ _ _ _ _ E1 E2) as [S A].
    cbv zeta. destruct dsn as [x|b], ds as [y|a]; try discriminate A.
    + reflexivity.
    + change (shape b = shape a) in S. rewrite S.
      assert (W : well_formed (Nd a)) by now apply magnitude_inv in E2.
      pose proof (well_formed_size a W (np_max_nonempty _ _ E3)) as Hz.
      apply Nat.eqb_neq in Hz. rewrite Hz. simpl fst. simpl negated.
      rewrite map_nd_full. do 3 f_equal.
      specialize (H (Nd b) (Nd a) m eq_refl eq_refl E3).
      unfold chosen.
      destruct (np_isnan_any (Nd b)) eqn:Nb, (np_isnan_any (Nd a)) eqn:Na;
        try reflexivity.
      * now rewrite H.
      * rewrite (closest_nan_or_infinite m); [reflexivity|]. left.
        now apply (np_max_has_nan a).
  - intros a m E [H|H]; apply closest_nan_or_infinite; [left|now right].
    now apply (np_max_has_nan a).
Qed.

(** C10.  [pow] has the special values of C99.  When the gradients [du_dz]
    and [dv_dz] hold an infinity and no NaN, the magnitude array holds no
    NaN either, its maximum is infinite, so are the three distances, the
    arg-min is the first candidate, and [wind_shear] returns 0.002
    everywhere without printing: the NaN override is not involved.  [wind_shear_normal] returns -0.002 everywhere, and
    without printing when [dsn_dz] holds no NaN either.  And whatever the
    input, every element returned is one of the three finite candidates,
    negated for [wind_shear_normal]. *)
Theorem infinite_gradient_lowest_bucket ut ub vt vb cos_a sin_a dz :
  (forall du_dz dv_dz a,
     result (gradient ut ub dz) = inr du_dz ->
     result (gradient vt vb dz) = inr dv_dz ->
     result (magnitude du_dz dv_dz) = inr (Nd a) ->
     data a <> [] ->
     np_isnan_any du_dz = false ->
     np_isnan_any dv_dz = false ->
     np_isinf_any du_dz || np_isinf_any dv_dz = true ->
     np_isnan_any (Nd a) = false /\
     result (np_max (Nd a)) = inr infinity /\
     abs_distance shear_options infinity = [infinity; infinity; infinity] /\
     argmin (abs_distance shear_options infinity) = 0 /\
     run (wind_shear ut ub vt vb dz) =
       (inr (Nd (np_full (shape a) 2e-3%float)), []) /\
     (forall b,
        result (normal_gradient du_dz dv_dz cos_a sin_a) = inr (Nd b) ->
        data b <> [] ->
        result (wind_shear_normal ut ub vt vb cos_a sin_a dz) =
          inr (Nd (np_full (shape b) (- 2e-3)%float)) /\
        (np_isnan_any (Nd b) = false ->
         printed (wind_shear_normal ut ub vt vb cos_a sin_a dz) = []))) /\
  (forall v, result (wind_shear ut ub vt vb dz) = inr v ->
     exists r, v = Nd r /\
       Forall (fun x => In x shear_options /\ is_finite x = true) (data r)) /\
  (forall v, result (wind_shear_normal ut ub vt vb cos_a sin_a dz) = inr v ->
     exists r, v = Nd r /\
       Forall (fun x => In (- x)%float shear_options /\ is_finite x = true)
         (data r)).
Proof.
  split; [|split].
  - intros du dv a E1 E2 E3 Hne Nu Nv Hi.
    pose proof (gradient_inv _ _ _ _ E1) as (Wu & _).
    pose proof (gradient_inv _ _ _ _ E2) as (Wv & _).
    pose proof (magnitude_inv _ _ _ E3) as (Wa & S & _).
    pose proof (well_formed_size a Wa Hne) as Hz.
    pose proof (magnitude_no_nan du dv a E3 Wu Wv Nu Nv) as Hn.
    destruct (infinite_position du dv (shape a) Wu Wv S Hz Hi) as (k & Hk & Hik).
    pose proof (infinite_maximum du dv a k E3 Hn Hk Hik) as Em.
    assert (Es : result (ds_dz_of ut ub vt vb dz) = inr (Nd a)).
    { now rewrite result_ds_dz_of, E1, E2. }
    split; [assumption|]. split; [assumption|].
    split; [reflexivity|]. split; [reflexivity|]. split.
    + rewrite (wind_shear_result _ _ _ _ _ a infinity Es Em). now rewrite Hn.
    + intros b E4 Hnb.
      assert (En : result (dsn_dz_of ut ub vt vb cos_a sin_a dz) = inr (Nd b)).
      { now rewrite result_dsn_dz_of, E1, E2. }
      pose proof (wind_shear_normal_result _ _ _ _ _ _ _ b (Nd a) infinity
                    En Es Em Hnb) as R.
      cbv zeta in R. unfold result, printed. rewrite R. split.
      * now destruct (np_isnan_any (Nd b)).
      * now intros ->.
  - intros v H. apply wind_shear_returns in H.
    destruct H as (a & m & _ & _ & ->). eexists. split; [reflexivity|].
    simpl. apply Forall_forall. intros x Hx. apply repeat_spec in Hx. subst x.
    pose proof (chosen_In (np_isnan_any (Nd a)) m) as Hc.
    split; [assumption|now apply shear_options_finite].
  - intros v H. apply wind_shear_normal_returns in H.
    destruct H as (a & ds & m & _ & _ & _ & _ & ->).
    eexists. split; [reflexivity|].
    simpl. apply Forall_forall. intros x Hx. apply repeat_spec in Hx. subst x.
    pose proof (chosen_In (np_isnan_any (Nd a)) m) as Hc.
    destruct Hc as [<-|[<-|[<-|[]]]]; split; vm_compute; auto.
Qed.

(* ================================================================== *)
(** * Further properties of the module                                 *)
(* ================================================================== *)

(** X1.  With NumPy arrays for the four wind components, [wind_shear]
    raises nothing but [ValueError], and raises it exactly when the four
    shapes do not broadcast or broadcast to an empty shape (lines 152-158:
    the arithmetic, then [np.max] of an empty array). *)
Theorem wind_shear_array_errors ut ub vt vb dz :
  forallb is_array [ut; ub; vt; vb] = true ->
  (forall e, result (wind_shear ut ub vt vb dz) = inl e -> e = ValueError) /\
  (result (wind_shear ut ub vt vb dz) = inl ValueError <->
   forall s, broadcast_all (map shape_of [ut; ub; vt; vb]) = Some s ->
             size s = 0).
Proof.
  intros Ha. split; [intros e; now apply wind_shear_array_exn|]. split.
  - intros H s Hs. destruct (Nat.eq_dec (size s) 0) as [Z|Z]; [assumption|].
    destruct (wind_shear_total ut ub vt vb dz s Ha Hs Z) as (r & E & _).
    congruence.
  - intros H.
    destruct (result (wind_shear ut ub vt vb dz)) as [e|v] eqn:E.
    + now rewrite (wind_shear_array_exn _ _ _ _ _ e Ha E).
    + exfalso. destruct (wind_shear_returns _ _ _ _ _ _ E) as (a & m & E1 & E2 & _).
      pose proof (wind_shear_shape _ _ _ _ _ _ E1) as S.
      specialize (H _ S).
      assert (W : well_formed (Nd a)).
      { rewrite result_ds_dz_of in E1.
        destruct (result (gradient ut ub dz)); [discriminate|].
        destruct (result (gradient vt vb dz)); [discriminate|].
        now apply magnitude_inv in E1. }
      now apply (well_formed_size a W (np_max_nonempty _ _ E2)).
Qed.

(** X2.  With NumPy arrays for the four wind components,
    [wind_shear_normal] raises nothing but [ValueError], and raises it
    exactly when the shapes of the wind components, [cos_a] and [sin_a] do
    not broadcast or broadcast to an empty shape. *)
Theorem wind_shear_normal_array_errors ut ub vt vb cos_a sin_a dz :
  forallb is_array [ut; ub; vt; vb] = true ->
  (forall e, result (wind_shear_normal ut ub vt vb cos_a sin_a dz) = inl e ->
     e = ValueError) /\
  (result (wind_shear_normal ut ub vt vb cos_a sin_a dz) = inl ValueError <->
   forall s,
     broadcast_all (map shape_of [ut; ub; vt; vb; cos_a; sin_a]) = Some s ->
     size s = 0).
Proof.
  intros Ha. split; [intros e; now apply wind_shear_normal_array_exn|]. split.
  - intros H s Hs. destruct (Nat.eq_dec (size s) 0) as [Z|Z]; [assumption|].
    destruct (wind_shear_normal_total ut ub vt vb cos_a sin_a dz s Ha Hs Z)
      as (r & E & _).
    congruence.
  - intros H.
    destruct (result (wind_shear_normal ut ub vt vb cos_a sin_a dz))
      as [e|v] eqn:E.
    + now rewrite (wind_shear_normal_array_exn _ _ _ _ _ _ _ e Ha E).
    + exfalso.
      destruct (wind_shear_normal_returns _ _ _ _ _ _ _ _ E)
        as (a & ds & m & E1 & _ & _ & Hne & _).
      pose proof (wind_shear_normal_shape _ _ _ _ _ _ _ _ E1) as S.
      specialize (H _ S).
      assert (W : well_formed (Nd a)).
      { rewrite result_dsn_dz_of in E1.
        destruct (result (gradient ut ub dz)); [discriminate|].
        destruct (result (gradient vt vb dz)); [discriminate|].
        now apply normal_gradient_inv in E1. }
      now apply (well_formed_size a W Hne).
Qed.

(** X3.  [wind_shear_enhancement_factor] has two outcomes, and prints
    nothing in either: the plain float 1.0 when the shapes of the
    resolution, the depth and the exponent broadcast, [ValueError] when they
    do not.  A zero depth raises nothing: the depth is an array, so the
    division of line 45 is NumPy's. *)
Theorem enhancement_factor_outcome
  (npy_pow : float -> float -> float) (float_pow : float -> float -> Py float)
  (contrail_depth : ndarray float)
  (effective_vertical_resolution wind_shear_enhancement_exponent : value) :
  run (wind_shear_enhancement_factor npy_pow float_pow contrail_depth
         effective_vertical_resolution wind_shear_enhancement_exponent) =
  match broadcast_all
          [shape_of effective_vertical_resolution; shape contrail_depth;
           shape_of wind_shear_enhancement_exponent] with
  | Some _ => (inr (PyFloat 1.0), [])
  | None => (inl ValueError, [])
  end.
Proof.
  unfold broadcast_all. cbn [fold_left].
  rewrite broadcast_opt_nil_l. cbn [broadcast_opt].
  unfold run, wind_shear_enhancement_factor, bind.
  destruct (broadcast_shapes (shape_of effective_vertical_resolution)
              (shape contrail_depth)) as [s1|] eqn:B1.
  - destruct (binop_array_run
                (fun x y => if (y =? 0)%float then raise ZeroDivisionError
                            else ret (x / y)%float) PrimFloat.div
                effective_vertical_resolution (Nd contrail_depth) s1 [])
      as (ratio & E1 & <-); [apply orb_true_r|exact B1|].
    change (binop _ PrimFloat.div _ _) with
      (py_truediv effective_vertical_resolution (Nd contrail_depth)) in E1.
    rewrite E1. cbn [broadcast_opt]. unfold py_pow.
    destruct (broadcast_shapes (shape ratio)
                (shape_of wind_shear_enhancement_exponent)) as [s2|] eqn:B2.
    + destruct (binop_array_run float_pow npy_pow (Nd ratio)
                  wind_shear_enhancement_exponent s2 [])
        as (p & E2 & <-); [reflexivity|exact B2|].
      rewrite E2.
      destruct (binop_array_run (fun x y => ret (x + y)%float) PrimFloat.add
                  (PyFloat 1.0) (Nd p) (shape p) [])
        as (s & E3 & _); [reflexivity|apply broadcast_shapes_nil_l|].
      change (binop _ PrimFloat.add _ _) with (py_add (PyFloat 1.0) (Nd p)) in E3.
      rewrite E3.
      destruct (binop_array_run (fun x y => ret (x * y)%float) PrimFloat.mul
                  (PyFloat 0.5) (Nd s) (shape s) [])
        as (f & E4 & _); [reflexivity|apply broadcast_shapes_nil_l|].
      change (binop _ PrimFloat.mul _ _) with (py_mul (PyFloat 0.5) (Nd s)) in E4.
      rewrite E4. reflexivity.
    + now rewrite (binop_mismatch_run float_pow npy_pow (Nd ratio)
                     wind_shear_enhancement_exponent [] eq_refl B2).
  - unfold py_truediv.
    rewrite (binop_mismatch_run _ _ effective_vertical_resolution
               (Nd contrail_depth) []); [reflexivity|apply orb_true_r|exact B1].
Qed.

(** X4.  Plain Python floats for every argument.  Both functions raise
    [ZeroDivisionError] exactly when [dz] is zero, and otherwise
    [OverflowError] or [AttributeError].  [wind_shear] prints nothing;
    [wind_shear_normal] prints nothing, or prints the line of line 109 and
    then raises [AttributeError] on line 113. *)
Theorem plain_floats_exceptions (u_top u_btm v_top v_btm cos_a sin_a dz : float) :
  let shear :=
    wind_shear (PyFloat u_top) (PyFloat u_btm) (PyFloat v_top) (PyFloat v_btm) dz in
  let normal :=
    wind_shear_normal (PyFloat u_top) (PyFloat u_btm) (PyFloat v_top)
      (PyFloat v_btm) (PyFloat cos_a) (PyFloat sin_a) dz in
  (result shear = inl ZeroDivisionError <-> (dz =? 0)%float = true) /\
  (result normal = inl ZeroDivisionError <-> (dz =? 0)%float = true) /\
  ((dz =? 0)%float = false ->
   (result shear = inl OverflowError \/ result shear = inl AttributeError) /\
   (result normal = inl OverflowError \/ result normal = inl AttributeError)) /\
  printed shear = [] /\
  (printed normal = [] \/
   run normal = (inl AttributeError, [Removed_NaN])).
Proof.
  cbv zeta. unfold result, printed, run.
  rewrite wind_shear_unfold, wind_shear_normal_unfold, result_ds_dz_of.
  rewrite !gradient_plain.
  destruct (dz =? 0)%float.
  { repeat split; try (intros; discriminate); auto. }
  set (du := ((u_top - u_btm) / dz)%float).
  set (dv := ((v_top - v_btm) / dz)%float).
  rewrite magnitude_plain.
  change (result (normal_gradient (PyFloat du) (PyFloat dv) (PyFloat cos_a)
                    (PyFloat sin_a)))
    with (@inr exn value (PyFloat (dv * cos_a - du * sin_a)%float)).
  cbv iota zeta.
  destruct (overflow du _).
  { repeat split; try (intros; discriminate); auto. }
  destruct (overflow dv _).
  { repeat split; try (intros; discriminate); auto. }
  destruct (overflow _ _).
  { repeat split; try (intros; discriminate); auto. }
  change (result (np_max (PyFloat ?x))) with (@inr exn float x).
  cbv iota zeta. unfold np_isnan_any. simpl.
  destruct (is_nan (dv * cos_a - du * sin_a)); simpl;
    repeat split; try (intros; discriminate); auto.
Qed.

(** X5.  What is printed.  [wind_shear] prints nothing when it raises; when
    it returns the array filled with the bucket [c], it printed nothing and
    [c] is 0.002, or it printed the one line that reports [c].
    [wind_shear_normal] printed at most the line of line 109 when it raises;
    when it returns the array filled with [-c], it printed nothing and [c] is
    0.002, or the one line that reports [-c] with [c] another bucket, or the
    line of line 109 followed by the line that reports -0.002. *)
Theorem diagnostics ut ub vt vb cos_a sin_a dz :
  let shear := wind_shear ut ub vt vb dz in
  let normal := wind_shear_normal ut ub vt vb cos_a sin_a dz in
  (forall e, result shear = inl e -> printed shear = []) /\
  (forall v, result shear = inr v ->
     exists c, v = Nd (np_full (shape_of v) c) /\ In c shear_options /\
       (printed shear = [] /\ c = 2e-3%float \/ printed shear = [Shear c])) /\
  (forall e, result normal = inl e ->
     printed normal = [] \/ printed normal = [Removed_NaN]) /\
  (forall v, result normal = inr v ->
     exists c, v = Nd (np_full (shape_of v) (- c)%float) /\ In c shear_options /\
       (printed normal = [] /\ c = 2e-3%float \/
        printed normal = [NORMAL_shear (- c)%float] /\ c <> 2e-3%float \/
        printed normal = [Removed_NaN; NORMAL_shear (- c)%float] /\
        c = 2e-3%float)).
Proof.
  cbv zeta. unfold result, printed, run.
  rewrite wind_shear_unfold, wind_shear_normal_unfold.
  split; [|split; [|split]].
  - destruct (result (ds_dz_of ut ub vt vb dz)) as [e'|ds]; [reflexivity|].
    destruct (result (np_max ds)) as [e'|m]; [reflexivity|].
    cbv zeta. destruct ds as [x|a]; [reflexivity|discriminate].
  - intros v.
    destruct (result (ds_dz_of ut ub vt vb dz)) as [e'|ds]; [discriminate|].
    destruct (result (np_max ds)) as [e'|m]; [discriminate|].
    cbv zeta. destruct ds as [x|a]; [discriminate|].
    pose proof (chosen_In (np_isnan_any (Nd a)) m) as Hc.
    set (c := chosen (np_isnan_any (Nd a)) m) in *.
    simpl fst. simpl snd. intros [= <-]. exists c.
    split; [reflexivity|]. split; [assumption|].
    destruct (c =? 2e-3)%float eqn:E; simpl negb; cbn [orb].
    + destruct (np_isnan_any (Nd a)); [now right|left].
      split; [reflexivity|now apply eqb_lowest].
    + now right.
  - intros e.
    destruct (result (gradient ut ub dz)) as [e'|du]; [now left|].
    destruct (result (gradient vt vb dz)) as [e'|dv]; [now left|].
    destruct (result (normal_gradient du dv cos_a sin_a)) as [e'|dsn];
      [now left|].
    destruct (result (magnitude du dv)) as [e'|ds]; [now left|].
    destruct (result (np_max ds)) as [e'|m]; [now left|].
    cbv zeta. destruct dsn as [x|a].
    + destruct (np_isnan_any (PyFloat x)); [now right|now left].
    + destruct (size (shape a) =? 0); [|discriminate].
      destruct (np_isnan_any (Nd a)); [now right|now left].
  - intros v.
    destruct (result (gradient ut ub dz)) as [e'|du]; [discriminate|].
    destruct (result (gradient vt vb dz)) as [e'|dv]; [discriminate|].
    destruct (result (normal_gradient du dv cos_a sin_a)) as [e'|dsn];
      [discriminate|].
    destruct (result (magnitude du dv)) as [e'|ds]; [discriminate|].
    destruct (result (np_max ds)) as [e'|m]; [discriminate|].
    cbv zeta. destruct dsn as [x|a]; [discriminate|].
    destruct (size (shape a) =? 0); [discriminate|].
    pose proof (chosen_In (np_isnan_any (Nd a)) m) as Hc.
    unfold chosen in *.
    destruct (np_isnan_any (Nd a)).
    + simpl. intros [= <-]. exists 2e-3%float.
      split; [reflexivity|]. split; [assumption|]. right. right. now split.
    + simpl fst. simpl snd. intros [= <-]. exists (closest m).
      split; [reflexivity|]. split; [assumption|].
      rewrite orb_false_r.
      destruct (closest m =? 2e-3)%float eqn:E; simpl.
      * left. split; [reflexivity|now apply eqb_lowest].
      * right. left. split; [reflexivity|]. intros C. rewrite C in E.
        discriminate.
Qed.

(** X6.  [pow] has the special values of C99.  When [dz] is a zero, an
    infinity or a NaN, every array [wind_shear] returns is filled with 0.002
    and every array [wind_shear_normal] returns is filled with -0.002; with
    arrays for the wind components they do return it as soon as the shapes
    broadcast to a non-empty shape. *)
Theorem degenerate_dz_lowest_bucket ut ub vt vb cos_a sin_a dz :
  degenerate dz = true ->
  (forall v, result (wind_shear ut ub vt vb dz) = inr v ->
     v = Nd (np_full (shape_of v) 2e-3%float)) /\
  (forall v, result (wind_shear_normal ut ub vt vb cos_a sin_a dz) = inr v ->
     v = Nd (np_full (shape_of v) (- 2e-3)%float)) /\
  (forallb is_array [ut; ub; vt; vb] = true ->
   (forall s, broadcast_all (map shape_of [ut; ub; vt; vb]) = Some s ->
      size s <> 0 ->
      result (wind_shear ut ub vt vb dz) = inr (Nd (np_full s 2e-3%float))) /\
   (forall s,
      broadcast_all (map shape_of [ut; ub; vt; vb; cos_a; sin_a]) = Some s ->
      size s <> 0 ->
      result (wind_shear_normal ut ub vt vb cos_a sin_a dz) =
        inr (Nd (np_full s (- 2e-3)%float)))).
Proof.
  intros Hd.
  assert (P1 : forall v, result (wind_shear ut ub vt vb dz) = inr v ->
     v = Nd (np_full (shape_of v) 2e-3%float)).
  { intros v H. apply wind_shear_returns in H.
    destruct H as (a & m & E1 & E2 & ->).
    now rewrite (degenerate_chosen ut ub vt vb dz (Nd a) m _ Hd E1 E2). }
  assert (P2 : forall v,
     result (wind_shear_normal ut ub vt vb cos_a sin_a dz) = inr v ->
     v = Nd (np_full (shape_of v) (- 2e-3)%float)).
  { intros v H. apply wind_shear_normal_returns in H.
    destruct H as (a & ds & m & E1 & E2 & E3 & _ & ->).
    now rewrite (degenerate_chosen ut ub vt vb dz ds m _ Hd E2 E3). }
  split; [exact P1|]. split; [exact P2|]. intros Ha. split; intros s Hs Hz.
  - destruct (wind_shear_total ut ub vt vb dz s Ha Hs Hz) as (r & E & <-).
    rewrite E. f_equal. now apply P1 in E.
  - destruct (wind_shear_normal_total ut ub vt vb cos_a sin_a dz s Ha Hs Hz)
      as (r & E & <-).
    rewrite E. f_equal. now apply P2 in E.
Qed.

(** X7.  [pow] has the special values of C99.  A NaN anywhere in a wind
    component or in [dz] makes every array [wind_shear] returns the one
    filled with 0.002, reported on the standard output.  A NaN anywhere in a wind component, in [cos_a], in [sin_a] or in
    [dz] makes every array [wind_shear_normal] returns the one filled with
    -0.002, with both of its lines printed. *)
Theorem nan_input_lowest_bucket ut ub vt vb cos_a sin_a dz :
  Forall well_formed [ut; ub; vt; vb; cos_a; sin_a] ->
  (existsb np_isnan_any [ut; ub; vt; vb] || is_nan dz = true ->
   forall v, result (wind_shear ut ub vt vb dz) = inr v ->
     run (wind_shear ut ub vt vb dz) =
       (inr (Nd (np_full (shape_of v) 2e-3%float)), [Shear 2e-3%float])) /\
  (existsb np_isnan_any [ut; ub; vt; vb; cos_a; sin_a] || is_nan dz = true ->
   forall v, result (wind_shear_normal ut ub vt vb cos_a sin_a dz) = inr v ->
     run (wind_shear_normal ut ub vt vb cos_a sin_a dz) =
       (inr (Nd (np_full (shape_of v) (- 2e-3)%float)),
        [Removed_NaN; NORMAL_shear (- 2e-3)%float])).
Proof.
  intros W. rewrite Forall_forall in W.
  assert (W1 : well_formed ut) by (apply W; simpl; auto).
  assert (W2 : well_formed ub) by (apply W; simpl; auto).
  assert (W3 : well_formed vt) by (apply W; simpl; auto).
  assert (W4 : well_formed vb) by (apply W; simpl; auto).
  assert (Wc : well_formed cos_a) by (apply W; simpl; auto 7).
  assert (Ws : well_formed sin_a) by (apply W; simpl; auto 7).
  split.
  - intros H v Hv. destruct (wind_shear_returns _ _ _ _ _ _ Hv)
      as (a & m & E1 & E2 & ->).
    assert (N : np_isnan_any (Nd a) = true).
    { rewrite result_ds_dz_of in E1.
      destruct (result (gradient ut ub dz)) as [e|du] eqn:G1; [discriminate|].
      destruct (result (gradient vt vb dz)) as [e|dv] eqn:G2; [discriminate|].
      pose proof (gradient_inv _ _ _ _ G1) as (Wu & _).
      pose proof (gradient_inv _ _ _ _ G2) as (Wv & _).
      pose proof (magnitude_inv _ _ _ E1) as (Wa & S & _).
      pose proof (well_formed_size a Wa (np_max_nonempty _ _ E2)) as Hz.
      apply (magnitude_nan du dv); auto.
      apply (gradients_nan ut ub vt vb dz du dv (shape a)); auto. }
    rewrite (wind_shear_result _ _ _ _ _ a m E1 E2). now rewrite N.
  - intros H v Hv. destruct (wind_shear_normal_returns _ _ _ _ _ _ _ _ Hv)
      as (a & ds & m & E1 & E2 & E3 & Hne & ->).
    assert (N : np_isnan_any (Nd a) = true).
    { rewrite result_dsn_dz_of in E1.
      destruct (result (gradient ut ub dz)) as [e|du] eqn:G1; [discriminate|].
      destruct (result (gradient vt vb dz)) as [e|dv] eqn:G2; [discriminate|].
      pose proof (gradient_inv _ _ _ _ G1) as (Wu & _).
      pose proof (gradient_inv _ _ _ _ G2) as (Wv & _).
      pose proof (normal_gradient_inv _ _ _ _ _ E1) as (Wa & S & _).
      pose proof (well_formed_size a Wa Hne) as Hz.
      apply (normal_gradient_nan du dv cos_a sin_a); auto.
      destruct (np_isnan_any cos_a) eqn:Nc;
        [now rewrite orb_true_r|].
      destruct (np_isnan_any sin_a) eqn:Ns; [now rewrite orb_true_r|].
      rewrite !orb_false_r.
      change (shape_of (Nd a)) with (shape a) in S.
      destruct (broadcast_shapes (shape_of dv) (shape_of cos_a)) as [s1|] eqn:B1;
        [|discriminate].
      destruct (broadcast_shapes (shape_of du) (shape_of sin_a)) as [s2|] eqn:B2;
        [|discriminate].
      cbn [broadcast_opt] in S.
      pose proof (broadcast_shapes_zero _ _ _ S) as Z.
      pose proof (broadcast_shapes_zero _ _ _ B1) as Z1.
      pose proof (broadcast_shapes_zero _ _ _ B2) as Z2.
      assert (Zu : size (shape_of du) <> 0) by tauto.
      assert (Zv : size (shape_of dv) <> 0) by tauto.
      simpl existsb in H. rewrite Nc, Ns in H. rewrite !orb_false_r in H.
      destruct (is_nan dz) eqn:Nz.
      - rewrite (gradient_nan _ _ _ _ G1); auto. rewrite Nz. apply orb_true_r.
      - rewrite orb_false_r in H.
        destruct (np_isnan_any ut || np_isnan_any ub) eqn:Nu.
        + rewrite (gradient_nan _ _ _ _ G1); auto. now rewrite Nu.
        + apply orb_false_iff in Nu.
          destruct Nu as [N1 N2]. rewrite N1, N2 in H. simpl in H.
          rewrite (gradient_nan _ _ _ _ G2); auto; [apply orb_true_r|].
          now rewrite H. }
    rewrite (wind_shear_normal_result _ _ _ _ _ _ _ a ds m E1 E2 E3 Hne).
    now rewrite N.
Qed.

(** X8.  [wind_shear] does not tell the two wind components apart: when a
    call returns, the call with the [u] and [v] arguments exchanged returns
    the same array and prints the same. *)
Theorem wind_shear_symmetric ut ub vt vb dz v :
  result (wind_shear ut ub vt vb dz) = inr v ->
  run (wind_shear vt vb ut ub dz) = run (wind_shear ut ub vt vb dz).
Proof.
  intros H. destruct (wind_shear_returns _ _ _ _ _ _ H) as (a & m & E1 & E2 & _).
  assert (E1' : result (ds_dz_of vt vb ut ub dz) = inr (Nd a)).
  { rewrite result_ds_dz_of in *.
    destruct (result (gradient ut ub dz)) as [e|du]; [discriminate|].
    destruct (result (gradient vt vb dz)) as [e|dv]; [discriminate|].
    now rewrite magnitude_comm. }
  now rewrite (wind_shear_result _ _ _ _ _ a m E1 E2),
    (wind_shear_result _ _ _ _ _ a m E1' E2).
Qed.

(** X9.  [pow] has the special values of C99.  No shear at all: with the
    same finite winds at both levels and a [dz] that is neither zero nor a
    NaN, [wind_shear] returns 0.002 everywhere and [wind_shear_normal], for
    a finite axis, -0.002 everywhere, and nothing is printed. *)
Theorem no_shear_lowest_bucket u v cos_a sin_a dz s :
  well_formed (Nd u) -> well_formed (Nd v) ->
  forallb is_finite (data u) = true -> forallb is_finite (data v) = true ->
  (dz =? 0)%float = false -> is_nan dz = false ->
  (broadcast_shapes (shape u) (shape v) = Some s -> size s <> 0 ->
   run (wind_shear (Nd u) (Nd u) (Nd v) (Nd v) dz) =
     (inr (Nd (np_full s 2e-3%float)), [])) /\
  (well_formed cos_a -> well_formed sin_a ->
   forallb is_finite (data (as_array cos_a)) = true ->
   forallb is_finite (data (as_array sin_a)) = true ->
   broadcast_all [shape u; shape v; shape_of cos_a; shape_of sin_a] = Some s ->
   size s <> 0 ->
   run (wind_shear_normal (Nd u) (Nd u) (Nd v) (Nd v) cos_a sin_a dz) =
     (inr (Nd (np_full s (- 2e-3)%float)), [])).
Proof.
  intros Wu Wv Fu Fv Hz Hn.
  destruct (gradient_same_levels u dz Wu Fu Hz Hn) as (du & E1 & S1 & Z1).
  destruct (gradient_same_levels v dz Wv Fv Hz Hn) as (dv & E2 & S2 & Z2).
  pose proof (gradient_inv _ _ _ _ E1) as (Wdu & _).
  pose proof (gradient_inv _ _ _ _ E2) as (Wdv & _).
  assert (M : forall t a,
    broadcast_shapes (shape u) (shape v) = Some t -> size t <> 0 ->
    result (magnitude (Nd du) (Nd dv)) = inr (Nd a) ->
    np_isnan_any (Nd a) = false /\ result (np_max (Nd a)) = inr 0%float /\
    shape a = t).
  { intros t a B Ht E3. pose proof (magnitude_inv _ _ _ E3) as (Wa & Sa & _).
    change (shape_of (Nd a)) with (shape a) in Sa.
    change (shape_of (Nd du)) with (shape du) in Sa.
    change (shape_of (Nd dv)) with (shape dv) in Sa.
    rewrite S1, S2, B in Sa. injection Sa as Sa. subst t.
    pose proof (magnitude_of_zeros du dv a E3 Wdu Wdv Z1 Z2) as Fa.
    assert (Na : np_isnan_any (Nd a) = false).
    { apply existsb_false. intros x Hx. rewrite Forall_forall in Fa.
      now rewrite (Fa x Hx). }
    split; [assumption|]. split; [|reflexivity].
    destruct (np_max_total (Nd a) (well_formed_nonempty a Wa Ht)) as [m Em].
    destruct (np_max_is_max _ _ Em Na) as (Hm & _).
    rewrite Forall_forall in Fa. rewrite Em. f_equal. now apply Fa. }
  split.
  - intros B Hs.
    destruct (magnitude_array du dv s) as (a & E3 & Sa);
      [now rewrite S1, S2|].
    destruct (M s a B Hs E3) as (Na & Em & _).
    assert (E : result (ds_dz_of (Nd u) (Nd u) (Nd v) (Nd v) dz) = inr (Nd a)).
    { now rewrite result_ds_dz_of, E1, E2. }
    rewrite (wind_shear_result _ _ _ _ _ a 0%float E Em). rewrite Na, Sa.
    reflexivity.
  - intros Wc Ws Fc Fs B Hs.
    assert (B' : broadcast_opt
                   (broadcast_shapes (shape dv) (shape_of cos_a))
                   (broadcast_shapes (shape du) (shape_of sin_a)) = Some s).
    { rewrite S1, S2. rewrite <- B. unfold broadcast_all. cbn [fold_left].
      rewrite broadcast_opt_nil_l.
      change (broadcast_shapes (shape v) (shape_of cos_a)) with
        (broadcast_opt (Some (shape v)) (Some (shape_of cos_a))).
      change (broadcast_shapes (shape u) (shape_of sin_a)) with
        (broadcast_opt (Some (shape u)) (Some (shape_of sin_a))).
      rewrite broadcast_opt_swap.
      now rewrite <- broadcast_opt_assoc. }
    destruct (normal_gradient_array du dv cos_a sin_a s B') as (b & E3 & Sb).
    assert (B3 : exists t, broadcast_shapes (shape u) (shape v) = Some t /\
                           size t <> 0).
    { rewrite S1, S2 in B'.
      change (broadcast_shapes (shape v) (shape_of cos_a)) with
        (broadcast_opt (Some (shape v)) (Some (shape_of cos_a))) in B'.
      change (broadcast_shapes (shape u) (shape_of sin_a)) with
        (broadcast_opt (Some (shape u)) (Some (shape_of sin_a))) in B'.
      rewrite broadcast_opt_swap in B'.
      change (broadcast_opt (Some (shape u)) (Some (shape v)))
        with (broadcast_shapes (shape u) (shape v)) in B'.
      destruct (broadcast_shapes (shape u) (shape v)) as [t|]; [|discriminate].
      exists t. split; [reflexivity|].
      destruct (broadcast_opt (Some (shape_of cos_a)) (Some (shape_of sin_a)))
        as [t'|]; [|discriminate].
      cbn [broadcast_opt] in B'. apply broadcast_shapes_zero in B'. tauto. }
    destruct B3 as (t & B3 & Ht).
    destruct (magnitude_array du dv t) as (a & E4 & Sa);
      [now rewrite S1, S2|].
    destruct (M t a B3 Ht E4) as (Na & Em & _).
    pose proof (normal_gradient_inv _ _ _ _ _ E3) as (Wb & _).
    assert (Hne : data b <> []).
    { apply well_formed_nonempty; [assumption|now rewrite Sb]. }
    assert (Nb : np_isnan_any (Nd b) = false).
    { apply all_zero_no_nan. rewrite result_normal_gradient in E3.
      destruct (result (py_mul (Nd dv) cos_a)) as [e|p] eqn:P1; [discriminate|].
      destruct (result (py_mul (Nd du) sin_a)) as [e|q] eqn:P2; [discriminate|].
      pose proof (binop_inv _ _ _ _ _ P1) as (Wp & _).
      pose proof (binop_inv _ _ _ _ _ P2) as (Wq & _).
      apply (binop_forall (fun x => (x =? 0)%float = true)
               (fun x => (x =? 0)%float = true) _ PrimFloat.sub p q (Nd b));
        auto.
      - apply FloatZero.sub_zero.
      - apply (binop_forall (fun x => (x =? 0)%float = true)
                 (fun x => is_finite x = true) _ PrimFloat.mul (Nd dv) cos_a p);
          auto.
        + apply FloatZero.mul_zero_finite.
        + apply Forall_forall. now apply forallb_forall.
      - apply (binop_forall (fun x => (x =? 0)%float = true)
                 (fun x => is_finite x = true) _ PrimFloat.mul (Nd du) sin_a q);
          auto.
        + apply FloatZero.mul_zero_finite.
        + apply Forall_forall. now apply forallb_forall. }
    rewrite (wind_shear_normal_result _ _ _ _ _ _ _ b (Nd a) 0%float); auto.
    + rewrite Nb, Sb. reflexivity.
    + now rewrite result_dsn_dz_of, E1, E2.
    + now rewrite result_ds_dz_of, E1, E2.
Qed.

(** X10.  With a [pow] whose square does not see the sign of its base,
    [wind_shear] does not depend on which level is the top one, nor on the
    sign of [dz]: exchanging the two levels, or negating [dz], gives the
    same result, the same exception and the same output. *)
Theorem wind_shear_orientation ut ub vt vb dz :
  run (wind_shear ub ut vb vt dz) = run (wind_shear ut ub vt vb dz) /\
  run (wind_shear ut ub vt vb (- dz)) = run (wind_shear ut ub vt vb dz).
Proof.
  unfold run. rewrite !wind_shear_unfold. split.
  - now rewrite (ds_dz_of_mirrored ut ub vt vb dz ub ut vb vt dz
                   (gradient_exchanged ut ub dz) (gradient_exchanged vt vb dz)).
  - now rewrite (ds_dz_of_mirrored ut ub vt vb dz ut ub vt vb (- dz)%float
                   (gradient_negated ut ub dz) (gradient_negated vt vb dz)).
Qed.

(** X11.  Neither does [wind_shear_normal], with such a [pow]: exchanging
    the two levels, or negating [dz], changes the sign of the signed
    gradient of line 89, but the result, the exception and the output stay
    the same. *)
Theorem wind_shear_normal_orientation ut ub vt vb cos_a sin_a dz :
  run (wind_shear_normal ub ut vb vt cos_a sin_a dz) =
    run (wind_shear_normal ut ub vt vb cos_a sin_a dz) /\
  run (wind_shear_normal ut ub vt vb cos_a sin_a (- dz)) =
    run (wind_shear_normal ut ub vt vb cos_a sin_a dz).
Proof.
  split; apply wind_shear_normal_mirrored;
    auto using gradient_exchanged, gradient_negated.
Qed.

(** X12.  Nor does [wind_shear_normal] depend on the direction of the
    axis: negating both [cos_a] and [sin_a] gives the same result, the same
    exception and the same output. *)
Theorem wind_shear_normal_axis_reversed ut ub vt vb cos_a sin_a dz :
  run (wind_shear_normal ut ub vt vb (py_neg cos_a) (py_neg sin_a) dz) =
  run (wind_shear_normal ut ub vt vb cos_a sin_a dz).
Proof.
  unfold run. rewrite !wind_shear_normal_unfold.
  destruct (result (gradient ut ub dz)) as [e1|du]; [reflexivity|].
  destruct (result (gradient vt vb dz)) as [e2|dv]; [reflexivity|].
  pose proof (normal_gradient_reversed du dv cos_a sin_a) as Hn.
  destruct (result (normal_gradient du dv cos_a sin_a)) as [e3|dsn],
    (result (normal_gradient du dv (py_neg cos_a) (py_neg sin_a)))
      as [e3'|dsn'];
    try contradiction.
  { simpl in Hn. now subst. }
  simpl in Hn. pose proof (related_same_nan _ _ Hn) as N.
  destruct Hn as (A & S & _).
  destruct (result (magnitude du dv)) as [e4|ds]; [reflexivity|].
  destruct (result (np_max ds)) as [e5|m]; [reflexivity|].
  cbv zeta. rewrite N.
  destruct dsn as [x|a], dsn' as [x'|a']; try discriminate A; [reflexivity|].
  unfold shape_of in S. simpl in S. now rewrite S.
Qed.

(** X13.  NumPy scalars where plain floats fail: with [np.float64] values
    for the four wind components, and NumPy scalars or plain floats for the
    axis, both functions return, for every value of every argument ([dz]
    zero included) and whatever [pow] gives, an array of no dimension that
    holds a bucket, negated for [wind_shear_normal]. *)
Theorem numpy_scalars_accepted (u_top u_btm v_top v_btm cos_a sin_a dz : float) :
  (exists c, In c shear_options /\
     result (wind_shear (np_float64 u_top) (np_float64 u_btm)
               (np_float64 v_top) (np_float64 v_btm) dz) =
     inr (np_array_0d c)) /\
  (exists c, In c shear_options /\
     result (wind_shear_normal (np_float64 u_top) (np_float64 u_btm)
               (np_float64 v_top) (np_float64 v_btm)
               (np_float64 cos_a) (np_float64 sin_a) dz) =
     inr (np_array_0d (- c))) /\
  (exists c, In c shear_options /\
     result (wind_shear_normal (np_float64 u_top) (np_float64 u_btm)
               (np_float64 v_top) (np_float64 v_btm)
               (PyFloat cos_a) (PyFloat sin_a) dz) =
     inr (np_array_0d (- c))).
Proof.
  assert (P : forall cos sin, shape_of cos = [] -> shape_of sin = [] ->
    exists c, In c shear_options /\
      result (wind_shear_normal (np_float64 u_top) (np_float64 u_btm)
                (np_float64 v_top) (np_float64 v_btm) cos sin dz) =
      inr (np_array_0d (- c))).
  { intros cos sin Sc Ss.
    destruct (wind_shear_normal_total (np_float64 u_top) (np_float64 u_btm)
                (np_float64 v_top) (np_float64 v_btm) cos sin dz [])
      as (r & E & S); [reflexivity| |discriminate|].
    { simpl map. rewrite Sc, Ss. reflexivity. }
    destruct (wind_shear_normal_returns _ _ _ _ _ _ _ _ E)
      as (a & ds & m & _ & _ & _ & _ & V).
    exists (chosen (np_isnan_any (Nd a)) m). split; [apply chosen_In|].
    rewrite E, V. injection V as ->. simpl in S. now rewrite S. }
  split; [|split; apply P; reflexivity].
  destruct (wind_shear_total (np_float64 u_top) (np_float64 u_btm)
              (np_float64 v_top) (np_float64 v_btm) dz [])
    as (r & E & S); [reflexivity|reflexivity|discriminate|].
  destruct (wind_shear_returns _ _ _ _ _ _ E) as (a & m & _ & _ & V).
  exists (chosen (np_isnan_any (Nd a)) m). split; [apply chosen_In|].
  rewrite E, V. injection V as ->. simpl in S. now rewrite S.
Qed.

(** X14.  [wind_shear_normal] ignores the axis beyond the shape of
    [dsn_dz] and the NaN check: two axes whose signed arrays have the same
    shape and both hold a NaN, or both hold none, give the same result and
    the same output. *)
Theorem axis_ignored ut ub vt vb cos_a sin_a cos_a' sin_a' dz a a' :
  result (dsn_dz_of ut ub vt vb cos_a sin_a dz) = inr (Nd a) ->
  result (dsn_dz_of ut ub vt vb cos_a' sin_a' dz) = inr (Nd a') ->
  shape a = shape a' ->
  np_isnan_any (Nd a) = np_isnan_any (Nd a') ->
  run (wind_shear_normal ut ub vt vb cos_a' sin_a' dz) =
  run (wind_shear_normal ut ub vt vb cos_a sin_a dz).
Proof.
  rewrite !result_dsn_dz_of. unfold run. rewrite !wind_shear_normal_unfold.
  destruct (result (gradient ut ub dz)) as [e|du]; [discriminate|].
  destruct (result (gradient vt vb dz)) as [e|dv]; [discriminate|].
  intros -> -> S N.
  destruct (result (magnitude du dv)) as [e|ds]; [reflexivity|].
  destruct (result (np_max ds)) as [e|m]; [reflexivity|].
  cbv zeta. now rewrite S, N.
Qed.

End Properties.

(* ================================================================== *)
(** * The properties on concrete inputs                                *)
(* ================================================================== *)

(** The correctly rounded [pow] has the special values of C99 and is even. *)
Lemma rounded_c99 : c99_pow rounded_pow.
Proof.
  split; [exact FloatMagnitude.squaring_mul|exact FloatMagnitude.rooting_sqrt].
Qed.

Lemma rounded_even : pow_even rounded_pow.
Proof.
  intros x. change ((- x) * (- x) = x * x)%float.
  apply FloatMirror.mul_self_abs. apply Prim2SF_inj.
  rewrite !abs_spec, opp_spec. now destruct (Prim2SF x).
Qed.

(** The inputs below are evaluated with it. *)
#[local] Existing Instance rounded_pow.

Lemma enhancement_factor_is_one_witness :
  PyFloat 1.0 = PyFloat 1.0 /\
  run (wind_shear_enhancement_factor
         (fun x _ => (x * x)%float) (fun x _ => ret (x * x)%float)
         (mk_nd [2] [0; 50]%float) (PyFloat 200) (PyFloat 2))
  = (inr (PyFloat 1.0), []).
Proof.
  destruct (enhancement_factor_is_one
              (fun x _ => (x * x)%float) (fun x _ => ret (x * x)%float)
              (mk_nd [2] [0; 50]%float) (PyFloat 200) (PyFloat 2)) as [H1 H2].
  split.
  - apply H1. reflexivity.
  - apply H2. discriminate.
Defined.

Lemma constant_fill_witness :
  (exists a m,
     result (ds_dz_of example_u_top example_zero example_zero example_zero 1000) =
       inr (Nd a) /\
     result (np_max (Nd a)) = inr m /\
     let c := chosen (np_isnan_any (Nd a)) m in
     In c shear_options /\ (0 <? c)%float = true /\
     Nd (mk_nd [2] [6e-3; 6e-3]%float) =
     Nd (mk_nd (shape a) (repeat c (size (shape a))))) /\
  (exists a ds m,
     result (dsn_dz_of example_u_top example_zero example_zero example_zero
               (PyFloat 1) (PyFloat 0) 1000) = inr (Nd a) /\
     result (ds_dz_of example_u_top example_zero example_zero example_zero 1000) =
       inr ds /\
     result (np_max ds) = inr m /\
     let c := chosen (np_isnan_any (Nd a)) m in
     In c shear_options /\ (0 <? c)%float = true /\
     Nd (mk_nd [2] [- 6e-3; - 6e-3]%float) =
     Nd (mk_nd (shape a) (repeat (- c)%float (size (shape a))))).
Proof.
  pose proof (constant_fill example_u_top example_zero example_zero
                example_zero (PyFloat 1) (PyFloat 0) 1000) as H.
  split.
  - apply (proj1 H). vm_compute. reflexivity.
  - apply (proj2 H). vm_compute. reflexivity.
Defined.



Lemma nan_forces_lowest_bucket_witness :
  run (wind_shear (Nd (mk_nd [2] [nan; 10]%float)) example_zero example_zero
         example_zero 1000) =
    (inr (Nd (np_full [2] 2e-3%float)), [Shear 2e-3%float]) /\
  run (wind_shear_normal (Nd (mk_nd [2] [nan; 10]%float)) example_zero
         example_zero example_zero (PyFloat 1) (PyFloat 0) 1000) =
    (inr (Nd (np_full [2] (- 2e-3)%float)),
     [Removed_NaN; NORMAL_shear (- 2e-3)%float]).
Proof.
  pose proof (nan_forces_lowest_bucket (Nd (mk_nd [2] [nan; 10]%float))
                example_zero example_zero example_zero
                (PyFloat 1) (PyFloat 0) 1000) as H.
  split.
  - apply (proj1 H (mk_nd [2] [nan; 0.01]%float)); vm_compute; reflexivity.
  - apply (proj2 H (mk_nd [2] [nan; 0]%float));
      [vm_compute; reflexivity|vm_compute; reflexivity|now right].
Defined.

(** C4 as stated fails for [wind_shear_normal]: with plain floats for the
    wind components and an array holding a NaN for [cos_a], [dsn_dz] is an
    array with a NaN, and the square of the gradient 1e200 on line 90
    overflows before the check of line 106 is reached. *)
Lemma nan_check_after_overflow :
  ~ (forall (libm : Libm), c99_pow libm_pow -> pow_even libm_pow ->
     forall ut ub vt vb cos_a sin_a dz a,
       result (dsn_dz_of ut ub vt vb cos_a sin_a dz) = inr (Nd a) ->
       np_isnan_any (Nd a) = true ->
       result (wind_shear_normal ut ub vt vb cos_a sin_a dz) =
       inr (Nd (np_full (shape a) (- 2e-3)%float))).
Proof.
  intros H.
  specialize (H rounded_pow rounded_c99 rounded_even
                (PyFloat 1e200) (PyFloat 0) (PyFloat 0) (PyFloat 0)
                (Nd (mk_nd [1] [nan])) example_one_zero 1%float
                (mk_nd [1] [nan]) eq_refl eq_refl).
  vm_compute in H. discriminate.
Qed.

Lemma result_shape_witness :
  (exists r,
     Nd (mk_nd [3] [- 6e-3; - 6e-3; - 6e-3]%float) = Nd r /\
     broadcast_all
       (map shape_of
          [example_one_row; example_one_zero; example_one_row;
           example_one_zero; example_cos_3; example_sin_3]) = Some (shape r)) /\
  (exists r,
     result (wind_shear example_u_top example_zero example_zero example_zero
               1000) = inr (Nd r) /\ shape r = [2]).
Proof.
  split.
  - apply (proj1 (proj2 (result_shape example_one_row example_one_zero
                           example_one_row example_one_zero
                           example_cos_3 example_sin_3 1000))).
    vm_compute. reflexivity.
  - apply (proj1 (proj2 (proj2 (result_shape example_u_top example_zero
                           example_zero example_zero
                           (PyFloat 1) (PyFloat 0) 1000))));
      [reflexivity|reflexivity|discriminate].
Defined.

(** C5 as stated fails for [wind_shear_normal]: wind components of shape
    [(1,)] with [cos_a] and [sin_a] of shape [(3,)] give an array of shape
    [(3,)], not the broadcast shape [(1,)] of the wind components. *)
Lemma normal_shape_depends_on_cos_a :
  ~ (forall (libm : Libm) ut ub vt vb cos_a sin_a dz r,
       result (wind_shear_normal ut ub vt vb cos_a sin_a dz) = inr (Nd r) ->
       broadcast_all (map shape_of [ut; ub; vt; vb]) = Some (shape r)).
Proof.
  intros H.
  specialize (H rounded_pow example_one_row example_one_zero example_one_row
                example_one_zero example_cos_3 example_sin_3 1000%float
                (mk_nd [3] [- 6e-3; - 6e-3; - 6e-3]%float)).
  vm_compute in H. specialize (H eq_refl). discriminate.
Qed.

Lemma normal_is_negated_witness :
  result (wind_shear_normal (Nd (mk_nd [2] [nan; 10]%float)) example_zero
            example_zero example_zero (PyFloat 1) (PyFloat 0) 1000) =
  negated (result (wind_shear (Nd (mk_nd [2] [nan; 10]%float)) example_zero
                     example_zero example_zero 1000)) /\
  closest nan = 2e-3%float.
Proof.
  destruct (normal_is_negated (Nd (mk_nd [2] [nan; 10]%float)) example_zero
              example_zero example_zero 1000 1 0) as [H1 H2].
  split.
  - apply H1. intros dsn ds m E1 E2 E3 _.
    vm_compute in E2. injection E2 as <-.
    vm_compute in E3. injection E3 as <-. reflexivity.
  - apply (H2 (mk_nd [2] [nan; 0.01]%float)); [reflexivity|now left].
Defined.

(** C9 as stated fails: with gradients of 10 per second and
    [cos_a = sin_a = 1e308], both products overflow, [dsn_dz] is
    [inf - inf], a NaN, and [wind_shear_normal] returns -0.002 where
    [wind_shear] returns 0.006. *)
Lemma negation_fails_on_overflow :
  ~ (forall (libm : Libm) ut ub vt vb dz cos_a sin_a,
       is_finite cos_a = true -> is_finite sin_a = true ->
       result (wind_shear_normal ut ub vt vb (PyFloat cos_a) (PyFloat sin_a) dz) =
       negated (result (wind_shear ut ub vt vb dz))).
Proof.
  intros H.
  specialize (H rounded_pow example_one_row example_one_zero example_one_row
                example_one_zero 1%float 1e308%float 1e308%float
                eq_refl eq_refl).
  vm_compute in H. discriminate.
Qed.

Lemma infinite_gradient_lowest_bucket_witness :
  result (np_max (Nd (mk_nd [2] [infinity; infinity]))) = inr infinity /\
  run (wind_shear example_u_top example_zero example_u_top example_zero 0) =
    (inr (Nd (np_full [2] 2e-3%float)), []) /\
  (result (wind_shear_normal example_u_top example_zero example_u_top
             example_zero (PyFloat 1) (PyFloat (-1)) 0) =
     inr (Nd (np_full [2] (- 2e-3)%float)) /\
   printed (wind_shear_normal example_u_top example_zero example_u_top
              example_zero (PyFloat 1) (PyFloat (-1)) 0) = []) /\
  (exists r,
     Nd (mk_nd [2] [6e-3; 6e-3]%float) = Nd r /\
     Forall (fun x => In x shear_options /\ is_finite x = true) (data r)).
Proof.
  destruct (infinite_gradient_lowest_bucket rounded_c99 example_u_top example_zero
              example_u_top example_zero (PyFloat 1) (PyFloat (-1)) 0)
    as (H1 & H2 & _).
  destruct (H1 (Nd (mk_nd [2] [infinity; infinity]))
              (Nd (mk_nd [2] [infinity; infinity]))
              (mk_nd [2] [infinity; infinity]))
    as (_ & M & _ & _ & R & N); try (vm_compute; reflexivity).
  { discriminate. }
  split; [exact M|]. split; [exact R|]. split.
  - destruct (N (mk_nd [2] [infinity; infinity])) as [N1 N2];
      [vm_compute; reflexivity|discriminate|].
    split; [exact N1|apply N2; reflexivity].
  - destruct (infinite_gradient_lowest_bucket rounded_c99 example_u_top example_zero
                example_zero example_zero (PyFloat 1) (PyFloat 0) 1000)
      as (_ & H3 & _).
    apply H3. vm_compute. reflexivity.
Defined.

Lemma wind_shear_array_errors_witness :
  result (wind_shear (Nd (mk_nd [2] [5; 10]%float)) (Nd (mk_nd [3] [0; 0; 0]%float))
            example_zero example_zero 1000) = inl ValueError /\
  result (wind_shear (Nd (mk_nd [0] [])) (Nd (mk_nd [1] [0]%float))
            (Nd (mk_nd [0] [])) (Nd (mk_nd [0] [])) 1000) = inl ValueError.
Proof.
  split.
  - apply (proj2 (wind_shear_array_errors
                    (Nd (mk_nd [2] [5; 10]%float))
                    (Nd (mk_nd [3] [0; 0; 0]%float))
                    example_zero example_zero 1000 eq_refl)).
    intros s H. vm_compute in H. discriminate.
  - apply (proj2 (wind_shear_array_errors
                    (Nd (mk_nd [0] [])) (Nd (mk_nd [1] [0]%float))
                    (Nd (mk_nd [0] [])) (Nd (mk_nd [0] [])) 1000 eq_refl)).
    intros s H. vm_compute in H. now injection H as <-.
Defined.

Lemma wind_shear_normal_array_errors_witness :
  result (wind_shear_normal example_u_top example_zero example_zero example_zero
            example_cos_3 example_sin_3 1000) = inl ValueError /\
  result (wind_shear_normal example_one_row example_one_zero example_one_row
            example_one_zero (Nd (mk_nd [0] [])) (PyFloat 0) 1000) =
    inl ValueError.
Proof.
  split.
  - apply (proj2 (wind_shear_normal_array_errors
                    example_u_top example_zero example_zero example_zero
                    example_cos_3 example_sin_3 1000 eq_refl)).
    intros s H. vm_compute in H. discriminate.
  - apply (proj2 (wind_shear_normal_array_errors
                    example_one_row example_one_zero example_one_row
                    example_one_zero (Nd (mk_nd [0] [])) (PyFloat 0) 1000
                    eq_refl)).
    intros s H. vm_compute in H. now injection H as <-.
Defined.

Lemma degenerate_dz_lowest_bucket_witness :
  result (wind_shear example_u_top example_zero example_zero example_zero 0) =
    inr (Nd (np_full [2] 2e-3%float)) /\
  result (wind_shear_normal example_u_top example_zero example_zero
            example_zero (PyFloat 1) (PyFloat 0) infinity) =
    inr (Nd (np_full [2] (- 2e-3)%float)).
Proof.
  split.
  - apply (proj1 (proj2 (proj2 (degenerate_dz_lowest_bucket rounded_c99
             example_u_top example_zero example_zero example_zero
             (PyFloat 1) (PyFloat 0) 0 eq_refl)) eq_refl));
      [reflexivity|discriminate].
  - apply (proj2 (proj2 (proj2 (degenerate_dz_lowest_bucket rounded_c99
             example_u_top example_zero example_zero example_zero
             (PyFloat 1) (PyFloat 0) infinity eq_refl)) eq_refl));
      [reflexivity|discriminate].
Defined.

Lemma nan_input_lowest_bucket_witness :
  run (wind_shear (Nd (mk_nd [2] [5; nan]%float)) example_zero example_zero
         example_zero 1000) =
    (inr (Nd (np_full [2] 2e-3%float)), [Shear 2e-3%float]) /\
  run (wind_shear_normal example_u_top example_zero example_zero example_zero
         (Nd (mk_nd [2] [1; nan]%float)) (PyFloat 0) 1000) =
    (inr (Nd (np_full [2] (- 2e-3)%float)),
     [Removed_NaN; NORMAL_shear (- 2e-3)%float]).
Proof.
  split.
  - apply (proj1 (nan_input_lowest_bucket rounded_c99
                    (Nd (mk_nd [2] [5; nan]%float)) example_zero example_zero
                    example_zero (PyFloat 1) (PyFloat 0) 1000
                    ltac:(repeat constructor)) eq_refl
             (Nd (np_full [2] 2e-3%float))).
    vm_compute. reflexivity.
  - apply (proj2 (nan_input_lowest_bucket rounded_c99
                    example_u_top example_zero example_zero example_zero
                    (Nd (mk_nd [2] [1; nan]%float)) (PyFloat 0) 1000
                    ltac:(repeat constructor)) eq_refl
             (Nd (np_full [2] (- 2e-3)%float))).
    vm_compute. reflexivity.
Defined.

Lemma wind_shear_symmetric_witness :
  run (wind_shear example_zero example_zero example_u_top example_zero 1000) =
  run (wind_shear example_u_top example_zero example_zero example_zero 1000).
Proof.
  apply (wind_shear_symmetric example_u_top example_zero example_zero
           example_zero 1000 (Nd (mk_nd [2] [6e-3; 6e-3]%float))).
  vm_compute. reflexivity.
Defined.

Lemma no_shear_lowest_bucket_witness :
  run (wind_shear example_u_top example_u_top example_zero example_zero 1000) =
    (inr (Nd (np_full [2] 2e-3%float)), []) /\
  run (wind_shear_normal example_u_top example_u_top example_zero example_zero
         (PyFloat 1) (PyFloat 0) 1000) =
    (inr (Nd (np_full [2] (- 2e-3)%float)), []).
Proof.
  destruct (no_shear_lowest_bucket rounded_c99 (mk_nd [2] [5; 10]%float)
              (mk_nd [2] [0; 0]%float) (PyFloat 1) (PyFloat 0) 1000 [2]
              eq_refl eq_refl eq_refl eq_refl eq_refl eq_refl) as [H1 H2].
  split.
  - apply H1; [reflexivity|discriminate].
  - apply H2; try reflexivity. discriminate.
Defined.

Lemma wind_shear_orientation_witness :
  run (wind_shear (np_float64 0) (np_float64 5) (np_float64 0) (np_float64 0)
         1000) =
    run (wind_shear (np_float64 5) (np_float64 0) (np_float64 0)
           (np_float64 0) 1000) /\
  run (wind_shear (np_float64 5) (np_float64 0) (np_float64 0) (np_float64 0)
         (- 1000)) =
    run (wind_shear (np_float64 5) (np_float64 0) (np_float64 0)
           (np_float64 0) 1000).
Proof.
  exact (wind_shear_orientation rounded_even (np_float64 5) (np_float64 0)
           (np_float64 0) (np_float64 0) 1000).
Defined.

Lemma wind_shear_normal_orientation_witness :
  run (wind_shear_normal (np_float64 0) (np_float64 5) (np_float64 0)
         (np_float64 0) (PyFloat 1) (PyFloat 0) 1000) =
    run (wind_shear_normal (np_float64 5) (np_float64 0) (np_float64 0)
           (np_float64 0) (PyFloat 1) (PyFloat 0) 1000) /\
  run (wind_shear_normal (np_float64 5) (np_float64 0) (np_float64 0)
         (np_float64 0) (PyFloat 1) (PyFloat 0) (- 1000)) =
    run (wind_shear_normal (np_float64 5) (np_float64 0) (np_float64 0)
           (np_float64 0) (PyFloat 1) (PyFloat 0) 1000).
Proof.
  exact (wind_shear_normal_orientation rounded_even (np_float64 5)
           (np_float64 0) (np_float64 0) (np_float64 0) (PyFloat 1)
           (PyFloat 0) 1000).
Defined.

Lemma axis_ignored_witness :
  run (wind_shear_normal example_u_top example_zero example_zero example_zero
         (PyFloat 0) (PyFloat 1) 1000) =
  run (wind_shear_normal example_u_top example_zero example_zero example_zero
         (PyFloat 1) (PyFloat 0) 1000).
Proof.
  apply (axis_ignored example_u_top example_zero example_zero example_zero
           (PyFloat 1) (PyFloat 0) (PyFloat 0) (PyFloat 1) 1000
           (mk_nd [2] [0; 0]%float) (mk_nd [2] [-0.005; -0.01]%float));
    vm_compute; reflexivity.
Defined.
